(** * go-zero: rolling window, google breaker and bloom filter

    A shallow embedding of [core/collection/rollingwindow.go],
    [core/breaker/googlebreaker.go], [core/breaker/breakers.go],
    [core/timex/relativetime.go], [core/bloom/bloom.go] and
    [core/stringx/random.go], and the properties of the specification
    proved (or refuted) on it, followed by further properties of the
    code.

    Conventions of the embedding:
    - Go's [int], [int64] and [time.Duration] are 64-bit two's complement
      integers: values are in [Z] and every arithmetic result is
      normalised with [wrap64].
    - Go's [float64] is modelled by exact rational arithmetic ([Q], kept
      in lowest terms): no rounding, no NaN and no infinities.  The
      breaker only ever stores sums of 0 and 1, and computes with
      integers and halves of integers, on which float64 is exact below
      2^53; only the final quotient of [accept] is rounded in Go.
    - A Go function that mutates its receiver is a computation in the
      state-and-panic monad [M]: the store survives a panic, as the heap
      does in Go.
    - Every reading of the relative clock and every random draw is an
      explicit argument of the operation that performs it. *)

From Stdlib Require Import ZArith QArith Qminmax Lia Lqa List String Ascii.
From Stdlib Require Import DecimalString DecimalPos DecimalN.
From stdpp Require Import base list gmap strings.

Local Open Scope Z_scope.

(** ** Go runtime: panics, machine integers, the state-and-panic monad *)

Module Go.

(** The payload of a panic. *)
Inductive fault : Type :=
| DivideByZero                  (* runtime error: integer divide by zero *)
| IndexOutOfRange               (* runtime error: index out of range *)
| PanicValue (msg : string).    (* panic(v) of the program's own *)

Inductive res (A : Type) : Type :=
| Ok (a : A)
| Panic (f : fault).
Arguments Ok {A} a.
Arguments Panic {A} f.

Definition M (S A : Type) : Type := S -> res A * S.

Definition ret {S A : Type} (a : A) : M S A := fun s => (Ok a, s).

Definition bind {S A B : Type} (m : M S A) (k : A -> M S B) : M S B :=
  fun s =>
    match m s with
    | (Ok a, s') => k a s'
    | (Panic f, s') => (Panic f, s')
    end.

Definition panic {S A : Type} (f : fault) : M S A := fun s => (Panic f, s).

Definition get {S : Type} : M S S := fun s => (Ok s, s).

Definition put {S : Type} (s : S) : M S unit := fun _ => (Ok tt, s).

(** [defer func() { if e := recover(); e != nil { h(e) } }()] around [m]:
    when [m] returns, [recover()] is nil and the handler is skipped; when
    [m] panics with [e], the handler runs on the store the panic left
    behind, and a handler that ends in [panic(e)] re-raises.  A panic
    value is never nil: since Go 1.21 [panic(nil)] raises a
    [*runtime.PanicNilError]. *)
Definition defer_recover {S A : Type} (m : M S A) (h : fault -> M S A) : M S A :=
  fun s =>
    match m s with
    | (Ok a, s') => (Ok a, s')
    | (Panic e, s') => h e s'
    end.

(** Run a computation on a component of the store (a field that holds a
    pointer to the component). *)
Definition zoom {S T A : Type} (proj : S -> T) (upd : T -> S -> S)
    (m : M T A) : M S A :=
  fun s => let '(r, t') := m (proj s) in (r, upd t' s).

Definition int64_max : Z := 2 ^ 63 - 1.
Definition int64_min : Z := - 2 ^ 63.

(** Two's complement normalisation of a 64-bit result. *)
Definition wrap64 (z : Z) : Z := (z + 2 ^ 63) mod 2 ^ 64 - 2 ^ 63.

Definition add64 (a b : Z) : Z := wrap64 (a + b).
Definition sub64 (a b : Z) : Z := wrap64 (a - b).

(** [a / b] and [a % b] on signed integers: truncated division, a
    run-time panic on a zero divisor. *)
Definition div64 {S : Type} (a b : Z) : M S Z :=
  if b =? 0 then panic DivideByZero else ret (wrap64 (Z.quot a b)).

Definition rem64 {S : Type} (a b : Z) : M S Z :=
  if b =? 0 then panic DivideByZero else ret (Z.rem a b).

(** [xs[i]] and [xs[i] = x] on a slice: a run-time panic out of range. *)
Definition index {A : Type} (i : Z) : M (list A) A :=
  fun xs =>
    if (0 <=? i) && (i <? Z.of_nat (length xs)) then
      match xs !! Z.to_nat i with
      | Some x => (Ok x, xs)
      | None => (Panic IndexOutOfRange, xs)
      end
    else (Panic IndexOutOfRange, xs).

Definition store {A : Type} (i : Z) (x : A) : M (list A) unit :=
  fun xs =>
    if (0 <=? i) && (i <? Z.of_nat (length xs)) then
      (Ok tt, <[Z.to_nat i := x]> xs)
    else (Panic IndexOutOfRange, xs).

(** [for i := from; i < from + n; i++ { body(i) }] with a loop-carried
    value; [i + 1] cannot overflow below the bound. *)
Fixpoint for_loop {S A : Type} (n : nat) (i : Z) (body : Z -> A -> M S A)
    (acc : A) : M S A :=
  match n with
  | O => ret acc
  | S n' => bind (body i acc) (fun acc' => for_loop n' (i + 1) body acc')
  end.

(** [float64(n)] for an integer [n], and [int64(x)] for a float [x]:
    truncation toward zero. *)
Definition float64_of_int (n : Z) : Q := inject_Z n.
Definition int64_of_float (x : Q) : Z :=
  wrap64 (Z.quot (Qnum x) (Zpos (Qden x))).

(** [byte(i)] for an unsigned [i]: the low eight bits. *)
Definition byte_of_uint (i : Z) : Byte.byte :=
  match Byte.of_N (Z.to_N (i mod 256)) with
  | Some b => b
  | None => Byte.x00
  end.

End Go.

Import Go.

Notation "x <- m ;; k" := (bind m (fun x => k))
  (at level 100, m at next level, right associativity).
Notation "m ;;; k" := (bind m (fun _ => k))
  (at level 100, right associativity).

(** ** core/timex: the relative clock *)

Module timex.

(** [Since(d)] is [time.Since(initTime) - d]; [now] is the reading
    [time.Since(initTime)] of the monotonic clock. *)
Definition Since (now d : Z) : Z := sub64 now d.

End timex.

(** ** core/collection: the rolling window *)

Module collection.

Record Bucket : Type := mkBucket {
  Sum : Q;
  Count : Z
}.

Definition Bucket_add (v : Q) (b : Bucket) : Bucket :=
  {| Sum := Qred (Sum b + v); Count := add64 (Count b) 1 |}.

Definition Bucket_reset (b : Bucket) : Bucket :=
  {| Sum := 0; Count := 0 |}.

Record window : Type := mkWindow {
  buckets : list Bucket;
  w_size : Z
}.

Definition set_buckets (bs : list Bucket) (w : window) : window :=
  {| buckets := bs; w_size := w_size w |}.

(** [make([]*Bucket, size)] filled with fresh buckets; the only caller
    has checked [size >= 1]. *)
Definition newWindow (size : Z) : window :=
  {| buckets := replicate (Z.to_nat size) (mkBucket 0 0); w_size := size |}.

(** [w.buckets[i]] read, and written back through the pointer. *)
Definition bucket_get (i : Z) : M window Bucket :=
  zoom buckets set_buckets (index i).

Definition bucket_set (i : Z) (b : Bucket) : M window unit :=
  zoom buckets set_buckets (store i b).

Definition window_add (offset : Z) (v : Q) : M window unit :=
  w <- get ;;
  i <- rem64 offset (w_size w) ;;
  b <- bucket_get i ;;
  bucket_set i (Bucket_add v b).

(** [fn] receives a pointer to the bucket and closes over its own
    variables: it maps the bucket and the captured variables to their
    new values. *)
Definition window_reduce {A : Type} (start count : Z)
    (fn : Bucket -> A -> Bucket * A) (acc : A) : M window A :=
  for_loop (Z.to_nat count) 0
    (fun i acc =>
       w <- get ;;
       j <- rem64 (add64 start i) (w_size w) ;;
       b <- bucket_get j ;;
       let '(b', acc') := fn b acc in
       bucket_set j b' ;;;
       ret acc')
    acc.

Definition window_resetBucket (offset : Z) : M window unit :=
  w <- get ;;
  i <- rem64 offset (w_size w) ;;
  b <- bucket_get i ;;
  bucket_set i (Bucket_reset b).

Record RollingWindow : Type := mkRollingWindow {
  size : Z;
  win : window;
  interval : Z;
  offset : Z;
  ignoreCurrent : bool;
  lastTime : Z
}.

Definition set_win (w : window) (rw : RollingWindow) : RollingWindow :=
  {| size := size rw; win := w; interval := interval rw;
     offset := offset rw; ignoreCurrent := ignoreCurrent rw;
     lastTime := lastTime rw |}.

Definition set_offset (o : Z) (rw : RollingWindow) : RollingWindow :=
  {| size := size rw; win := win rw; interval := interval rw;
     offset := o; ignoreCurrent := ignoreCurrent rw;
     lastTime := lastTime rw |}.

Definition set_lastTime (t : Z) (rw : RollingWindow) : RollingWindow :=
  {| size := size rw; win := win rw; interval := interval rw;
     offset := offset rw; ignoreCurrent := ignoreCurrent rw;
     lastTime := t |}.

Definition set_ignoreCurrent (b : bool) (rw : RollingWindow) : RollingWindow :=
  {| size := size rw; win := win rw; interval := interval rw;
     offset := offset rw; ignoreCurrent := b;
     lastTime := lastTime rw |}.

Definition on_win {A : Type} (m : M window A) : M RollingWindow A :=
  zoom win set_win m.

Definition RollingWindowOption : Type := RollingWindow -> RollingWindow.

Definition IgnoreCurrentBucket : RollingWindowOption :=
  set_ignoreCurrent true.

(** [now] is the reading of [timex.Now()] at construction. *)
Definition NewRollingWindow (size : Z) (interval : Z)
    (opts : list RollingWindowOption) (now : Z) : res RollingWindow :=
  if size <? 1 then Panic (PanicValue "size must be greater than 0")
  else
    Ok (fold_left (fun w opt => opt w) opts
          {| size := size; win := newWindow size; interval := interval;
             offset := 0; ignoreCurrent := false; lastTime := now |}).

(** [now] is the clock reading inside [timex.Since]. *)
Definition RollingWindow_span (now : Z) : M RollingWindow Z :=
  rw <- get ;;
  offset <- div64 (timex.Since now (lastTime rw)) (interval rw) ;;
  if (0 <=? offset) && (offset <? size rw) then ret offset
  else ret (size rw).

(** [t1] is the clock reading of [span], [t2] that of the later
    [timex.Now()]. *)
Definition RollingWindow_updateOffset (t1 t2 : Z) : M RollingWindow unit :=
  span <- RollingWindow_span t1 ;;
  if span <=? 0 then ret tt
  else
    rw <- get ;;
    let offset := offset rw in
    for_loop (Z.to_nat span) 0
      (fun i (_ : unit) =>
         j <- rem64 (add64 (add64 offset i) 1) (size rw) ;;
         on_win (window_resetBucket j))
      tt ;;;
    o <- rem64 (add64 offset span) (size rw) ;;
    rw1 <- get ;;
    put (set_offset o rw1) ;;;
    let now := t2 in
    rw2 <- get ;;
    r <- rem64 (sub64 now (lastTime rw2)) (interval rw2) ;;
    put (set_lastTime (sub64 now r) rw2).

Definition RollingWindow_Add (v : Q) (t1 t2 : Z) : M RollingWindow unit :=
  RollingWindow_updateOffset t1 t2 ;;;
  rw <- get ;;
  on_win (window_add (offset rw) v).

Definition RollingWindow_Reduce {A : Type} (fn : Bucket -> A -> Bucket * A)
    (acc : A) (now : Z) : M RollingWindow A :=
  span <- RollingWindow_span now ;;
  rw <- get ;;
  let diff :=
    if (span =? 0) && ignoreCurrent rw then sub64 (size rw) 1
    else sub64 (size rw) span in
  if 0 <? diff then
    offset <- rem64 (add64 (add64 (offset rw) span) 1) (size rw) ;;
    on_win (window_reduce offset diff fn acc)
  else ret acc.

End collection.

(** ** core/breaker: the google breaker *)

Module breaker.

Import collection.

(** 250ms for bucket duration; [window] is [time.Second * 10] in
    nanoseconds. *)
Definition window : Z := 1000000000 * 10.
Definition buckets : Z := 40.
Definition k : Q := 3 # 2.
Definition protection : Z := 5.

(** A non-nil [error] value; [error] itself may be nil. *)
Inductive err : Type :=
| ErrServiceUnavailable
| ErrOther (msg : string).

Definition error : Type := option err.

Record googleBreaker : Type := mkGoogleBreaker {
  gb_k : Q;
  stat : RollingWindow
}.

Definition set_stat (st : RollingWindow) (b : googleBreaker) : googleBreaker :=
  {| gb_k := gb_k b; stat := st |}.

Definition on_stat {A : Type} (m : M RollingWindow A) : M googleBreaker A :=
  zoom stat set_stat m.

(** Modelled from the spec: [mathx.Proba.TrueOnProba] is not among the
    sources; it is true when a uniformly distributed draw in [0,1) is
    below [p].  The draw is an argument. *)
Definition TrueOnProba (draw p : Q) : bool := negb (Qle_bool p draw).

(** [now] is the clock reading of [timex.Now()] in [NewRollingWindow]. *)
Definition newGoogleBreaker (now : Z) : res googleBreaker :=
  let bucketDuration := wrap64 (Z.quot window buckets) in
  match NewRollingWindow buckets bucketDuration [] now with
  | Ok st => Ok {| gb_k := k; stat := st |}
  | Panic f => Panic f
  end.

(** The closure passed to [Reduce]: it reads the bucket and adds to the
    captured [accepts] and [total]. *)
Definition history_fn (b : Bucket) (acc : Z * Z) : Bucket * (Z * Z) :=
  let '(accepts, total) := acc in
  (b, (add64 accepts (int64_of_float (Sum b)), add64 total (Count b))).

Definition googleBreaker_history (now : Z) : M googleBreaker (Z * Z) :=
  on_stat (RollingWindow_Reduce history_fn (0, 0) now).

(** The local [dropRatio] of [accept]. *)
Definition dropRatio (k : Q) (accepts total : Z) : Q :=
  let weightedAccepts := (k * float64_of_int accepts)%Q in
  Qmax 0 ((float64_of_int (sub64 total protection) - weightedAccepts)
          / float64_of_int (add64 total 1))%Q.

(** [now] is the clock reading of [history], [draw] the random draw of
    the probability gate. *)
Definition googleBreaker_accept (now : Z) (draw : Q) : M googleBreaker error :=
  h <- googleBreaker_history now ;;
  let '(accepts, total) := h in
  b <- get ;;
  let dropRatio := dropRatio (gb_k b) accepts total in
  if Qle_bool dropRatio 0 then ret None
  else if TrueOnProba draw dropRatio then ret (Some ErrServiceUnavailable)
  else ret None.

Definition googleBreaker_markSuccess (t1 t2 : Z) : M googleBreaker unit :=
  on_stat (RollingWindow_Add 1 t1 t2).

Definition googleBreaker_markFailure (t1 t2 : Z) : M googleBreaker unit :=
  on_stat (RollingWindow_Add 0 t1 t2).

(** [googlePromise] holds a pointer to its breaker. *)
Inductive googlePromise : Type := mkGooglePromise.

Definition googleBreaker_allow (now : Z) (draw : Q)
    : M googleBreaker (option googlePromise * error) :=
  e <- googleBreaker_accept now draw ;;
  match e with
  | Some _ => ret (None, e)
  | None => ret (Some mkGooglePromise, None)
  end.

Definition googlePromise_Accept (p : googlePromise) (t1 t2 : Z)
    : M googleBreaker unit :=
  googleBreaker_markSuccess t1 t2.

Definition googlePromise_Reject (p : googlePromise) (t1 t2 : Z)
    : M googleBreaker unit :=
  googleBreaker_markFailure t1 t2.

(** The caller's functions are opaque to the breaker; the store records
    each invocation next to the breaker. *)
Inductive call : Type :=
| CallReq
| CallFallback (e : error)
| CallAcceptable (e : error).

Record world : Type := mkWorld {
  brk : googleBreaker;
  calls : list call
}.

Definition set_brk (b : googleBreaker) (w : world) : world :=
  {| brk := b; calls := calls w |}.

Definition on_brk {A : Type} (m : M googleBreaker A) : M world A :=
  zoom brk set_brk m.

(** Invoke a caller's function: record the call, then return its
    result or raise its panic. *)
Definition invoke {A : Type} (c : call) (r : res A) : M world A :=
  fun w => (r, {| brk := brk w; calls := calls w ++ [c] |}).

(** [req] is the outcome of [req()]; [ta] and [draw] belong to [accept],
    [t1 t2] to the marking after [req] returned, [t3 t4] to the marking
    of the deferred function. *)
Definition googleBreaker_doReq (req : res error)
    (fallback : option (error -> res error))
    (acceptable : error -> res bool)
    (ta : Z) (draw : Q) (t1 t2 t3 t4 : Z) : M world error :=
  e <- on_brk (googleBreaker_accept ta draw) ;;
  match e with
  | Some _ =>
      match fallback with
      | Some fb => invoke (CallFallback e) (fb e)
      | None => ret e
      end
  | None =>
      defer_recover
        (err <- invoke CallReq req ;;
         ok <- invoke (CallAcceptable err) (acceptable err) ;;
         (if ok : bool then on_brk (googleBreaker_markSuccess t1 t2)
          else on_brk (googleBreaker_markFailure t1 t2)) ;;;
         ret err)
        (fun e => on_brk (googleBreaker_markFailure t3 t4) ;;; panic e)
  end.

End breaker.

(** ** core/bloom: the bloom filter over a redis bit set *)

Module bloom.

(** maps as k in the error rate table *)
Definition maps : Z := 14.

Inductive err : Type :=
| ErrTooLargeOffset
| redis_Nil
| StoreErr (msg : string).

Definition error : Type := option err.

Inductive script : Type := setScript | testScript.

(** [strconv.FormatUint(n, 10)] *)
Definition FormatUint (n : Z) : string :=
  NilZero.string_of_uint (N.to_uint (Z.to_N n)).

Record redisBitSet : Type := mkRedisBitSet {
  key : string;
  rbits : Z
}.

Record Filter : Type := mkFilter {
  bits : Z;
  bitSet : redisBitSet
}.

Definition newRedisBitSet (key : string) (bits : Z) : redisBitSet :=
  {| key := key; rbits := bits |}.

Definition New (key : string) (bits : Z) : Filter :=
  {| bits := bits; bitSet := newRedisBitSet key bits |}.

(** [for _, offset := range offsets] with the early return. *)
Fixpoint buildOffsetArgs_loop (r : redisBitSet) (offsets : list Z)
    (args : list string) : list string * error :=
  match offsets with
  | [] => (args, None)
  | offset :: rest =>
      if rbits r <=? offset then ([], Some ErrTooLargeOffset)
      else buildOffsetArgs_loop r rest (args ++ [FormatUint offset])
  end.

Definition redisBitSet_buildOffsetArgs (r : redisBitSet) (offsets : list Z)
    : list string * error :=
  buildOffsetArgs_loop r offsets [].

Section WithStore.

(** [hash.Hash] (a uint64) and the redis store's [Eval] are not among
    the sources: they are parameters.  [Eval] answers with a reply that
    is an int64 or not, and an error. *)
Variable Hash : list Byte.byte -> Z.
Variable Eval : script -> list string -> list string -> option Z * error.

(** [locations[i] = uint(hashValue % uint64(f.bits))] for [i] below
    [maps]; the remainder panics on [f.bits = 0]. *)
Definition Filter_getLocations (f : Filter) (data : list Byte.byte)
    : res (list Z) :=
  let '(r, locations) :=
    for_loop (Z.to_nat maps) 0
      (fun i (_ : unit) =>
         let hashValue :=
           Hash (data ++ [byte_of_uint i]) in
         if bits f =? 0 then panic DivideByZero
         else store i (hashValue mod bits f))
      tt
      (replicate (Z.to_nat maps) 0) in
  match r with
  | Ok _ => Ok locations
  | Panic e => Panic e
  end.

Definition redisBitSet_check (r : redisBitSet) (offsets : list Z)
    : bool * error :=
  let '(args, e) := redisBitSet_buildOffsetArgs r offsets in
  match e with
  | Some _ => (false, e)
  | None =>
      let '(resp, e) := Eval testScript [key r] args in
      match e with
      | Some redis_Nil => (false, None)
      | Some _ => (false, e)
      | None =>
          match resp with
          | Some exists_ => (exists_ =? 1, None)
          | None => (false, None)
          end
      end
  end.

Definition redisBitSet_set (r : redisBitSet) (offsets : list Z) : error :=
  let '(args, e) := redisBitSet_buildOffsetArgs r offsets in
  match e with
  | Some _ => e
  | None =>
      let '(_, e) := Eval setScript [key r] args in
      match e with
      | Some redis_Nil => None
      | _ => e
      end
  end.

Definition Filter_Add (f : Filter) (data : list Byte.byte) : res error :=
  match Filter_getLocations f data with
  | Ok locations => Ok (redisBitSet_set (bitSet f) locations)
  | Panic e => Panic e
  end.

Definition Filter_Exists (f : Filter) (data : list Byte.byte)
    : res (bool * error) :=
  match Filter_getLocations f data with
  | Ok locations =>
      let '(isSet, e) := redisBitSet_check (bitSet f) locations in
      match e with
      | Some _ => Ok (false, e)
      | None => Ok (isSet, None)
      end
  | Panic e => Panic e
  end.

End WithStore.

End bloom.

(** ** core/breaker/breakers.go: the registry of named breakers *)

Module breakers.

Section Registry.

(** The [Breaker] interface, [NewBreaker] and [newNoOpBreaker] are
    declared in files that are not among the sources: a breaker is a
    value of a parameter type (in Go, a pointer), and the breakers the
    two constructors return are arguments of the operations that call
    them. *)
Variable Breaker : Type.

(** [breakers = make(map[string]Breaker)] *)
Definition registry : Type := gmap string Breaker.

(** [fresh] is what [NewBreaker(WithName(name))] returns when it is
    called.  Between [lock.RUnlock()] and [lock.Lock()] no lock is
    held: [others] is what other goroutines do to the map meanwhile. *)
Definition GetBreaker (name : string) (fresh : Breaker)
    (others : registry -> registry) : M registry Breaker :=
  bs <- get ;;
  match bs !! name with
  | Some b => ret b
  | None =>
      put (others bs) ;;;
      bs <- get ;;
      match bs !! name with
      | Some b => ret b
      | None => put (<[name := fresh]> bs) ;;; ret fresh
      end
  end.

(** [noop] is what [newNoOpBreaker()] returns. *)
Definition NoBreakerFor (name : string) (noop : Breaker) : M registry unit :=
  bs <- get ;;
  put (<[name := noop]> bs).

(** [execute] runs on the breaker, not on the registry. *)
Definition do {E : Type} (name : string) (execute : Breaker -> E)
    (fresh : Breaker) (others : registry -> registry) : M registry E :=
  b <- GetBreaker name fresh others ;;
  ret (execute b).

End Registry.

End breakers.

(** ** The redis server behind the bloom filter *)

Module redis.

(** Redis is not among the sources.  This is what the two Lua scripts
    of bloom.go do on a server whose keys hold bitmaps: [SETBIT] and
    [GETBIT] take the offset in decimal and refuse one that is not a
    number below 2^32, which aborts the script with an error (the bits
    set before stay set); a script that ends without a value or
    returns false makes [Eval] return [redis.Nil], and one that returns
    true the integer 1. *)

(** The bits that are 1, by key and offset. *)
Definition db : Type := list (string * Z).

(** An offset is a decimal number without sign or leading zeros, below
    2^32. *)
Definition parse_offset (s : string) : option Z :=
  match NilZero.uint_of_string s with
  | Some u =>
      let o := Z.of_N (N.of_uint u) in
      if String.eqb (bloom.FormatUint o) s && (o <? 2 ^ 32) then Some o
      else None
  | None => None
  end.

Definition bit_offset_error : bloom.err :=
  bloom.StoreErr "ERR bit offset is not an integer or out of range".

Definition getbit (d : db) (key : string) (o : Z) : Z :=
  if existsb (fun e => String.eqb (fst e) key && (snd e =? o)) d then 1
  else 0.

Definition setbit (d : db) (key : string) (o : Z) : db := (key, o) :: d.

Definition key_error : bloom.err :=
  bloom.StoreErr "ERR Lua redis() command arguments must be strings or integers".

(** [redis.call("setbit", KEYS[1], offset, 1)] and
    [redis.call("getbit", KEYS[1], offset)]; [KEYS[1]] is nil when no
    key was passed. *)
Definition call_setbit (key : option string) (offset : string) (d : db)
    : bloom.error * db :=
  match key with
  | None => (Some key_error, d)
  | Some k =>
      match parse_offset offset with
      | Some o => (None, setbit d k o)
      | None => (Some bit_offset_error, d)
      end
  end.

Definition call_getbit (key : option string) (offset : string) (d : db)
    : option Z * bloom.error :=
  match key with
  | None => (None, Some key_error)
  | Some k =>
      match parse_offset offset with
      | Some o => (Some (getbit d k o), None)
      | None => (None, Some bit_offset_error)
      end
  end.

(** [setScript]: [for _, offset in ipairs(ARGV) do
    redis.call("setbit", KEYS[1], offset, 1) end] *)
Fixpoint run_setScript (key : option string) (argv : list string) (d : db)
    : (option Z * bloom.error) * db :=
  match argv with
  | [] => ((None, Some bloom.redis_Nil), d)
  | offset :: rest =>
      match call_setbit key offset d with
      | (None, d') => run_setScript key rest d'
      | (Some e, d') => ((None, Some e), d')
      end
  end.

(** [testScript]: [for _, offset in ipairs(ARGV) do
    if tonumber(redis.call("getbit", KEYS[1], offset)) == 0 then
    return false end end return true] *)
Fixpoint run_testScript (key : option string) (argv : list string) (d : db)
    : option Z * bloom.error :=
  match argv with
  | [] => (Some 1, None)
  | offset :: rest =>
      match call_getbit key offset d with
      | (Some bit, _) =>
          if bit =? 0 then (None, Some bloom.redis_Nil)
          else run_testScript key rest d
      | (None, e) => (None, e)
      end
  end.

(** [store.Eval(script, keys, args)]: the reply and the server
    afterwards. *)
Definition Eval (s : bloom.script) (keys argv : list string) (d : db)
    : (option Z * bloom.error) * db :=
  match s with
  | bloom.setScript => run_setScript (hd_error keys) argv d
  | bloom.testScript => (run_testScript (hd_error keys) argv d, d)
  end.

End redis.

(** ** core/stringx: random strings *)

Module stringx.

Definition letterBytes : list Byte.byte :=
  list_byte_of_string
    "abcdefghijklmnopqrstuvwxyzABCDEFGHIJKLMNOPQRSTUVWXYZ0123456789".

(** 6 bits to represent a letter index *)
Definition letterIdxBits : Z := 6.
(** All 1-bits, as many as letterIdxBits *)
Definition letterIdxMask : Z := Z.shiftl 1 letterIdxBits - 1.
(** # of letter indices fitting in 63 bits *)
Definition letterIdxMax : Z := Z.quot 63 letterIdxBits.

Section WithSource.

(** [math/rand] is not among the sources: the random source is a state
    of a parameter type with its [Int63]. *)
Variable Source : Type.
Variable Int63 : Source -> Z * Source.

(** The loop of [Randn],
    [for i, cache, remain := n-1, src.Int63(), letterIdxMax; i >= 0; {...}],
    from the state after its initialisation.  Nothing bounds the number
    of rounds: [fuel] does, and the result is [None] when it is used
    up. *)
Fixpoint Randn_loop (fuel : nat) (i cache remain : Z) (b : list Byte.byte)
    (s : Source) : res (option (list Byte.byte)) * Source :=
  match fuel with
  | O => (Ok None, s)
  | S fuel' =>
      if 0 <=? i then
        let '(cache, remain, s) :=
          if remain =? 0 then
            let '(c, s') := Int63 s in (c, letterIdxMax, s')
          else (cache, remain, s) in
        let idx := Z.land cache letterIdxMask in
        if idx <? Z.of_nat (length letterBytes) then
          match index idx letterBytes with
          | (Ok x, _) =>
              match store i x b with
              | (Ok _, b') =>
                  Randn_loop fuel' (sub64 i 1) (Z.shiftr cache letterIdxBits)
                    (sub64 remain 1) b' s
              | (Panic f, _) => (Panic f, s)
              end
          | (Panic f, _) => (Panic f, s)
          end
        else
          Randn_loop fuel' i (Z.shiftr cache letterIdxBits)
            (sub64 remain 1) b s
      else (Ok (Some b), s)
  end.

(** [make([]byte, n)] panics on a negative length (the run-time error
    is carried as its message); memory is not bounded, so that no
    other length makes it fail. *)
Definition Randn (fuel : nat) (n : Z) : M Source (option string) :=
  fun s =>
    if n <? 0 then
      (Panic (PanicValue "runtime error: makeslice: len out of range"), s)
    else
      let b := replicate (Z.to_nat n) Byte.x00 in
      let '(cache, s1) := Int63 s in
      match Randn_loop fuel (sub64 n 1) cache letterIdxMax b s1 with
      | (Ok (Some b'), s2) => (Ok (Some (string_of_list_byte b')), s2)
      | (Ok None, s2) => (Ok None, s2)
      | (Panic f, s2) => (Panic f, s2)
      end.

End WithSource.

End stringx.

(** * Vocabulary of the statements *)

(** A reading of the relative clock: below 2^62 ns (146 years), so that
    differences of readings do not overflow. *)
Definition valid_time (t : Z) : Prop := 0 <= t < 2 ^ 62.

(** A sequence of [Add] calls, each with its value and its two clock
    readings. *)
Definition run_adds (adds : list (Q * Z * Z)) (rw : collection.RollingWindow)
    : collection.RollingWindow :=
  fold_left
    (fun rw '(v, t1, t2) => snd (collection.RollingWindow_Add v t1 t2 rw))
    adds rw.

(** A callback of [Reduce] that does not write through its bucket
    pointer. *)
Definition read_only {A : Type}
    (fn : collection.Bucket -> A -> collection.Bucket * A) : Prop :=
  forall b a, fst (fn b a) = b.

(** [n] calls of [Reduce] in a row at the same clock reading: the
    results, oldest first, and the final window. *)
Fixpoint Reduce_times {A : Type} (n : nat)
    (fn : collection.Bucket -> A -> collection.Bucket * A) (acc : A)
    (now : Z) (rw : collection.RollingWindow)
    : list (res A) * collection.RollingWindow :=
  match n with
  | O => ([], rw)
  | S n' =>
      let '(r, rw1) := collection.RollingWindow_Reduce fn acc now rw in
      let '(rs, rw2) := Reduce_times n' fn acc now rw1 in
      (r :: rs, rw2)
  end.

(** The drop ratio in the words of the specification, over exact
    rationals: [max(0, (total - protection - k * accepts) / (total + 1))]. *)
Definition spec_dropRatio (k : Q) (protection accepts total : Z) : Q :=
  Qmax 0 ((inject_Z total - inject_Z protection - k * inject_Z accepts)
          / (inject_Z total + 1))%Q.

(** The bucket at an index, for reading ([0, 0] outside the slice, where
    the code panics). *)
Definition bucket_at (bs : list collection.Bucket) (j : Z) : collection.Bucket :=
  default (collection.mkBucket 0 0) (bs !! Z.to_nat j).

(** ** Auxiliary definitions of the proofs *)

Section ProofVocabulary.

Import collection.

(** [window_add] and [window_resetBucket] are the same read-modify-write
    of one bucket. *)
Definition window_modify (f : Bucket -> Bucket) (offset : Z) : M window unit :=
  w <- get ;;
  i <- rem64 offset (w_size w) ;;
  b <- bucket_get i ;;
  bucket_set i (f b).

(** The body of the loop of [window.reduce]. *)
Definition reduce_body {A : Type} (fn : Bucket -> A -> Bucket * A)
    (start : Z) (i : Z) (acc : A) : M window A :=
  w <- get ;;
  j <- rem64 (add64 start i) (w_size w) ;;
  b <- bucket_get j ;;
  let '(b', acc') := fn b acc in
  bucket_set j b' ;;;
  ret acc'.

(** The value [span] returns, as a function of the clock reading. *)
Definition span_val (rw : RollingWindow) (now : Z) : Z :=
  let q := wrap64 (Z.quot (timex.Since now (lastTime rw)) (interval rw)) in
  if (0 <=? q) && (q <? size rw) then q else size rw.

(** Well-formed windows: what [NewRollingWindow] establishes and every
    operation keeps.  The bound on [size] is far above any slice that
    can be allocated and keeps [offset + span + 1] from overflowing. *)
Record rw_ok (rw : RollingWindow) : Prop := mk_rw_ok {
  ok_size : 1 <= size rw < 2 ^ 62;
  ok_wsize : w_size (win rw) = size rw;
  ok_len : Z.of_nat (length (buckets (win rw))) = size rw;
  ok_offset : 0 <= offset rw < size rw
}.

(** Each bucket is untouched or has been reset. *)
Definition reset_some (bs bs' : list Bucket) : Prop :=
  Forall2 (fun b b' => b' = b \/ b' = mkBucket 0 0) bs bs'.

(** The offset and the alignment after [updateOffset]. *)
Definition next_offset (rw : RollingWindow) (t1 : Z) : Z :=
  if span_val rw t1 <=? 0 then offset rw
  else Z.rem (offset rw + span_val rw t1) (size rw).

Definition next_lastTime (rw : RollingWindow) (t1 t2 : Z) : Z :=
  if span_val rw t1 <=? 0 then lastTime rw
  else sub64 t2 (Z.rem (sub64 t2 (lastTime rw)) (interval rw)).

(** The indices [Reduce] visits at a clock reading, in order. *)
Definition visited (rw : RollingWindow) (now : Z) : list Z :=
  let span := span_val rw now in
  let diff :=
    if (span =? 0) && ignoreCurrent rw then size rw - 1
    else size rw - span in
  map (fun i => Z.rem (Z.rem (offset rw + span + 1) (size rw) + i) (size rw))
      (seqZ 0 diff).

(** One step of the closure of [history] on the bucket at an index. *)
Definition history_step (bs : list Bucket) (acc : Z * Z) (j : Z) : Z * Z :=
  snd (breaker.history_fn (bucket_at bs j) acc).

(** The sum of a bucket of the breaker is a count of successes. *)
Definition sum_ok (n : Z) (bk : Bucket) : Prop :=
  exists m, Sum bk = inject_Z m /\ 0 <= m <= n.

Record brk_ok (n : Z) (b : breaker.googleBreaker) : Prop := mk_brk_ok {
  bk_k : breaker.gb_k b = breaker.k;
  bk_rw : rw_ok (breaker.stat b);
  bk_size : size (breaker.stat b) = breaker.buckets;
  bk_interval : interval (breaker.stat b) = 250000000;
  bk_ignore : ignoreCurrent (breaker.stat b) = false;
  bk_sums : Forall (sum_ok n) (buckets (win (breaker.stat b)))
}.

(** The states of a breaker: made by [newGoogleBreaker], then changed
    by [markSuccess] and [markFailure] (which [doReq] and the promise's
    [Accept] and [Reject] call) at any clock readings; [n] counts the
    outcomes recorded so far. *)
Inductive reachable : nat -> breaker.googleBreaker -> Prop :=
| reach_new now b :
    breaker.newGoogleBreaker now = Ok b -> reachable 0 b
| reach_accept n b now draw :
    reachable n b ->
    reachable n (snd (breaker.googleBreaker_accept now draw b))
| reach_success n b t1 t2 :
    reachable n b ->
    reachable (S n) (snd (breaker.googleBreaker_markSuccess t1 t2 b))
| reach_failure n b t1 t2 :
    reachable n b ->
    reachable (S n) (snd (breaker.googleBreaker_markFailure t1 t2 b)).

(** A clock reading inside the interval of the current bucket. *)
Definition in_current_bucket (rw : RollingWindow) (t : Z) : Prop :=
  0 <= timex.Since t (lastTime rw) < interval rw.

End ProofVocabulary.

(** The offsets [getLocations] computes, for a hash function. *)
Definition locations_of (Hash : list Byte.byte -> Z) (bits : Z)
    (data : list Byte.byte) : list Z :=
  map (fun i => Hash (data ++ [byte_of_uint i]) mod bits) (seqZ 0 bloom.maps).

(** ** Vocabulary of the further properties *)

(** The sum of the values of a sequence of [Add] calls. *)
Definition sum_values (adds : list (Q * Z * Z)) : Q :=
  fold_right (fun a s => (fst (fst a) + s)%Q) 0%Q adds.

(** The buckets the loop of [updateOffset] resets when it advances by
    [span]: those at [(offset + i + 1) % size] for [i] below [span]. *)
Definition expired (rw : collection.RollingWindow) (span j : Z) : bool :=
  existsb
    (fun i => Z.rem (collection.offset rw + i + 1) (collection.size rw) =? j)
    (seqZ 0 span).

(** A bucket of the breaker is a tally: [Sum] is the number of
    successes among its [Count] outcomes. *)
Definition tally (bk : collection.Bucket) : Prop :=
  exists m, collection.Sum bk = inject_Z m /\ 0 <= m <= collection.Count bk.

(** The outcomes held by a slice of buckets, and by the buckets at a
    list of indices. *)
Definition count_sum (bs : list collection.Bucket) : Z :=
  fold_right (fun b s => collection.Count b + s) 0 bs.

Definition count_at (bs : list collection.Bucket) (js : list Z) : Z :=
  fold_right (fun j s => collection.Count (bucket_at bs j) + s) 0 js.

(** A server that holds every bit another one holds. *)
Definition holds_bits_of (d d' : redis.db) : Prop :=
  forall key o, redis.getbit d key o = 1 -> redis.getbit d' key o = 1.

(** What a filter is told by a server in a given state. *)
Definition answers (d : redis.db) (s : bloom.script) (keys argv : list string)
    : option Z * bloom.error :=
  fst (redis.Eval s keys argv d).

(** Among the [r] low groups of six bits of a random value, one is the
    index of a letter. *)
Definition has_letter (c r : Z) : Prop :=
  exists j,
    0 <= j < r
    /\ Z.land (Z.shiftr c (stringx.letterIdxBits * j)) stringx.letterIdxMask
       < Z.of_nat (length stringx.letterBytes).

Section RandomVocabulary.

Variable Source : Type.
Variable Int63 : Source -> Z * Source.

(** The cache, the count and the source after the refill at the head
    of a round of [Randn]. *)
Definition refill (cache remain : Z) (s : Source) : Z * Z * Source :=
  if remain =? 0 then
    let '(c, s') := Int63 s in (c, stringx.letterIdxMax, s')
  else (cache, remain, s).

End RandomVocabulary.

(** * Verification *)

(** Boolean comparisons of the code as facts for [lia]. *)
Ltac zbool :=
  repeat match goal with
         | H : (_ <=? _) = true |- _ => apply Z.leb_le in H
         | H : (_ <=? _) = false |- _ => apply Z.leb_gt in H
         | H : (_ <? _) = true |- _ => apply Z.ltb_lt in H
         | H : (_ <? _) = false |- _ => apply Z.ltb_ge in H
         | H : (_ =? _) = true |- _ => apply Z.eqb_eq in H
         | H : (_ =? _) = false |- _ => apply Z.eqb_neq in H
         | H : andb _ _ = true |- _ => apply andb_true_iff in H; destruct H
         end.

(** ** Machine arithmetic *)

Section Arith.

Lemma wrap64_small z : int64_min <= z <= int64_max -> wrap64 z = z.
Proof.
  unfold wrap64, int64_min, int64_max. intros H.
  rewrite Z.mod_small; lia.
Qed.

Lemma wrap64_range z : int64_min <= wrap64 z <= int64_max.
Proof.
  unfold wrap64, int64_min, int64_max.
  pose proof (Z.mod_pos_bound (z + 2 ^ 63) (2 ^ 64)). lia.
Qed.

Lemma wrap64_congr a b : (a - b) mod 2 ^ 64 = 0 -> wrap64 a = wrap64 b.
Proof.
  unfold wrap64. intros H. f_equal.
  apply Z.mod_divide in H; [|lia]. destruct H as [q Hq].
  replace (a + 2 ^ 63) with (b + 2 ^ 63 + q * 2 ^ 64) by lia.
  apply Z.mod_add. lia.
Qed.

Lemma wrap64_wrap_diff a : (wrap64 a - a) mod 2 ^ 64 = 0.
Proof.
  unfold wrap64. apply Z.mod_divide; [lia|].
  exists (- ((a + 2 ^ 63) / 2 ^ 64)).
  pose proof (Z.div_mod (a + 2 ^ 63) (2 ^ 64)). lia.
Qed.

Lemma wrap64_add_l a b : wrap64 (wrap64 a + b) = wrap64 (a + b).
Proof.
  apply wrap64_congr.
  replace (wrap64 a + b - (a + b)) with (wrap64 a - a) by lia.
  apply wrap64_wrap_diff.
Qed.

Lemma wrap64_add_r a b : wrap64 (a + wrap64 b) = wrap64 (a + b).
Proof. rewrite Z.add_comm, wrap64_add_l. f_equal. lia. Qed.

Lemma add64_shift a b : add64 a (add64 b 1) = add64 (add64 a b) 1.
Proof.
  unfold add64. rewrite wrap64_add_r, wrap64_add_l. f_equal. lia.
Qed.

End Arith.

(** ** The monad and its loops *)

Section Loops.

Context {S A : Type}.

Lemma bind_run_ok {B : Type} (m : M S A) (k : A -> M S B) s a s' :
  m s = (Ok a, s') -> bind m k s = k a s'.
Proof. intros H. unfold bind. rewrite H. reflexivity. Qed.

Lemma bind_run_panic {B : Type} (m : M S A) (k : A -> M S B) s f s' :
  m s = (Panic f, s') -> bind m k s = (Panic f, s').
Proof. intros H. unfold bind. rewrite H. reflexivity. Qed.

Lemma for_loop_state_inv (P : S -> Prop) (body : Z -> A -> M S A) :
  (forall i a s, P s -> P (snd (body i a s))) ->
  forall n i a s, P s -> P (snd (for_loop n i body a s)).
Proof.
  intros Hbody n. induction n as [|n IH]; intros i a s Hs; simpl; [exact Hs|].
  unfold bind. specialize (Hbody i a s Hs).
  destruct (body i a s) as [[a'|f] s']; simpl in *; auto.
Qed.

Lemma for_loop_unchanged (body : Z -> A -> M S A) (s : S) :
  (forall i a, snd (body i a s) = s) ->
  forall n i a, snd (for_loop n i body a s) = s.
Proof.
  intros Hbody n i a.
  apply (for_loop_state_inv (fun s' => s' = s)); [|reflexivity].
  intros j a' s' ->. apply Hbody.
Qed.

Lemma for_loop_pure (body : Z -> A -> M S A) (g : Z -> A -> A) (s : S) :
  forall n i a,
    (forall j a', i <= j < i + Z.of_nat n -> body j a' s = (Ok (g j a'), s)) ->
    for_loop n i body a s
    = (Ok (fold_left (fun a j => g j a) (seqZ i (Z.of_nat n)) a), s).
Proof.
  induction n as [|n IH]; intros i a Hbody; [reflexivity|].
  cbn [for_loop]. unfold bind. rewrite Hbody by lia.
  rewrite IH by (intros; apply Hbody; lia).
  replace (Z.of_nat (Datatypes.S n)) with (Z.succ (Z.of_nat n)) by lia.
  rewrite (seqZ_cons i) by lia. cbn [fold_left].
  replace (Z.pred (Z.succ (Z.of_nat n))) with (Z.of_nat n) by lia.
  replace (Z.succ i) with (i + 1) by lia.
  reflexivity.
Qed.

Lemma for_loop_ok (P : S -> Prop) (body : Z -> A -> M S A) :
  forall n i a s,
    (forall j a' s', i <= j < i + Z.of_nat n -> P s' ->
       exists a'' s'', body j a' s' = (Ok a'', s'') /\ P s'') ->
    P s ->
    exists a' s', for_loop n i body a s = (Ok a', s') /\ P s'.
Proof.
  induction n as [|n IH]; intros i a s Hbody Hs.
  - exists a, s. split; [reflexivity|exact Hs].
  - cbn [for_loop]. unfold bind.
    destruct (Hbody i a s) as (a1 & s1 & E1 & H1); [lia|exact Hs|].
    rewrite E1. apply IH; [|exact H1].
    intros j a' s' Hj. apply Hbody. lia.
Qed.

End Loops.

(** ** The window: what one operation does to the buckets *)

Section Window.

Import collection.

Lemma set_buckets_id w : set_buckets (buckets w) w = w.
Proof. destruct w; reflexivity. Qed.

Lemma index_ok {T : Type} (xs : list T) i x :
  0 <= i -> xs !! Z.to_nat i = Some x -> index i xs = (Ok x, xs).
Proof.
  intros Hi Hx. unfold index. rewrite Hx.
  apply lookup_lt_Some in Hx.
  destruct (0 <=? i) eqn:E1; [|zbool; lia].
  destruct (i <? Z.of_nat (length xs)) eqn:E2; [reflexivity|zbool; lia].
Qed.

Lemma index_cases {T : Type} (xs : list T) i :
  (exists x, 0 <= i /\ xs !! Z.to_nat i = Some x /\ index i xs = (Ok x, xs))
  \/ index i xs = (Panic IndexOutOfRange, xs).
Proof.
  unfold index.
  destruct (0 <=? i) eqn:E1; [|right; reflexivity].
  destruct (i <? Z.of_nat (length xs)) eqn:E2; [|right; reflexivity].
  simpl. destruct (xs !! Z.to_nat i) as [x|] eqn:Hx; [|right; reflexivity].
  left. exists x. zbool. repeat split. lia.
Qed.

Lemma store_ok {T : Type} (xs : list T) i x y :
  0 <= i -> xs !! Z.to_nat i = Some y ->
  store i x xs = (Ok tt, <[Z.to_nat i := x]> xs).
Proof.
  intros Hi Hy. unfold store. apply lookup_lt_Some in Hy.
  destruct (0 <=? i) eqn:E1; [|zbool; lia].
  destruct (i <? Z.of_nat (length xs)) eqn:E2; [reflexivity|zbool; lia].
Qed.

Lemma window_add_modify offset v :
  window_add offset v = window_modify (Bucket_add v) offset.
Proof. reflexivity. Qed.

Lemma window_resetBucket_modify offset :
  window_resetBucket offset = window_modify Bucket_reset offset.
Proof. reflexivity. Qed.

Lemma window_modify_ok f offset w b :
  w_size w <> 0 -> 0 <= Z.rem offset (w_size w) ->
  buckets w !! Z.to_nat (Z.rem offset (w_size w)) = Some b ->
  window_modify f offset w
  = (Ok tt,
     set_buckets (<[Z.to_nat (Z.rem offset (w_size w)) := f b]> (buckets w)) w).
Proof.
  intros Hn Hi Hb. unfold window_modify, bind, get, rem64.
  destruct (w_size w =? 0) eqn:E; [zbool; lia|].
  unfold ret, bucket_get, bucket_set, zoom.
  rewrite (index_ok _ _ b Hi Hb). rewrite set_buckets_id.
  rewrite (store_ok _ _ _ b Hi Hb). reflexivity.
Qed.

Lemma window_modify_cases f offset w :
  (exists e, window_modify f offset w = (Panic e, w))
  \/ (exists b,
        w_size w <> 0 /\ 0 <= Z.rem offset (w_size w) /\
        buckets w !! Z.to_nat (Z.rem offset (w_size w)) = Some b /\
        window_modify f offset w
        = (Ok tt,
           set_buckets
             (<[Z.to_nat (Z.rem offset (w_size w)) := f b]> (buckets w)) w)).
Proof.
  destruct (Z.eq_dec (w_size w) 0) as [Hz|Hn].
  - left. exists DivideByZero. unfold window_modify, bind, get, rem64.
    rewrite Hz. reflexivity.
  - destruct (index_cases (buckets w) (Z.rem offset (w_size w)))
      as [(b & Hi & Hb & _)|Hp].
    + right. exists b. repeat split; try assumption.
      apply window_modify_ok; assumption.
    + left. exists IndexOutOfRange.
      unfold window_modify, bind, get, rem64.
      destruct (w_size w =? 0) eqn:E; [zbool; lia|].
      unfold ret, bucket_get, zoom. rewrite Hp.
      rewrite set_buckets_id. reflexivity.
Qed.

(** Whatever happens, the window keeps its size and its number of
    buckets. *)
Lemma window_modify_shape f offset w :
  let w' := snd (window_modify f offset w) in
  w_size w' = w_size w /\ length (buckets w') = length (buckets w).
Proof.
  destruct (window_modify_cases f offset w) as [[e ->]|(b & _ & _ & _ & ->)];
    simpl; [tauto|].
  split; [reflexivity|]. apply length_insert.
Qed.

Lemma window_modify_Forall (P : Bucket -> Prop) f offset w :
  (forall b, P b -> P (f b)) ->
  Forall P (buckets w) ->
  Forall P (buckets (snd (window_modify f offset w))).
Proof.
  intros Hf HP.
  destruct (window_modify_cases f offset w) as [[e ->]|(b & _ & _ & Hb & ->)];
    simpl; [assumption|].
  apply Forall_insert; [assumption|].
  apply Hf. rewrite Forall_lookup in HP. eapply HP, Hb.
Qed.

End Window.

(** ** The rolling window *)

Section RollingWindowFacts.

Import collection.

Lemma span_run now rw :
  interval rw <> 0 -> RollingWindow_span now rw = (Ok (span_val rw now), rw).
Proof.
  intros Hi. unfold RollingWindow_span, span_val, bind, get, div64.
  destruct (interval rw =? 0) eqn:E; [zbool; lia|]. unfold ret.
  destruct ((0 <=? _) && _); reflexivity.
Qed.

Lemma span_panic now rw :
  interval rw = 0 -> RollingWindow_span now rw = (Panic DivideByZero, rw).
Proof.
  intros Hi. unfold RollingWindow_span, bind, get, div64.
  rewrite Hi. reflexivity.
Qed.

Lemma span_val_range rw now :
  1 <= size rw -> 0 <= span_val rw now <= size rw.
Proof.
  intros Hs. unfold span_val.
  destruct ((0 <=? _) && _) eqn:E; zbool; lia.
Qed.

Lemma reset_some_refl bs : reset_some bs bs.
Proof. apply Forall2_same_length_lookup_2; [reflexivity|]. intros i x y H1 H2. left. congruence. Qed.

Lemma reset_some_length bs bs' : reset_some bs bs' -> length bs' = length bs.
Proof. intros H. symmetry. eapply Forall2_length, H. Qed.

Lemma reset_some_insert bs bs' i b :
  reset_some bs bs' -> reset_some bs (<[i := Bucket_reset b]> bs').
Proof.
  intros H. unfold reset_some in *.
  apply Forall2_same_length_lookup_2.
  - rewrite length_insert. eapply Forall2_length, H.
  - intros j x y Hx Hy. destruct (decide (i = j)) as [->|Hne].
    + rewrite list_lookup_insert_eq in Hy
        by (apply lookup_lt_Some in Hx; rewrite <- (Forall2_length _ _ _ H); exact Hx).
      right. inversion Hy. reflexivity.
    + rewrite list_lookup_insert_ne in Hy by assumption.
      exact (Forall2_lookup_lr _ _ _ _ _ _ H Hx Hy).
Qed.

Lemma reset_some_Forall (P : Bucket -> Prop) bs bs' :
  reset_some bs bs' -> P (mkBucket 0 0) -> Forall P bs -> Forall P bs'.
Proof.
  intros H H0 HP. induction H as [|b b' bs bs' Hb _ IH]; [constructor|].
  inversion HP; subst. constructor; [|auto].
  destruct Hb as [->| ->]; assumption.
Qed.

Lemma rem_index_range a n : 0 <= a -> 0 < n -> 0 <= Z.rem a n < n.
Proof. intros Ha Hn. apply Z.rem_bound_pos; lia. Qed.

(** One step of the reset loop of [updateOffset]. *)
Lemma reset_step (rw : RollingWindow) (s : RollingWindow) (i : Z) :
  rw_ok rw -> 0 <= i < size rw ->
  size s = size rw -> w_size (win s) = size rw ->
  reset_some (buckets (win rw)) (buckets (win s)) ->
  exists w',
    (j <- rem64 (add64 (add64 (offset rw) i) 1) (size rw) ;;
     on_win (window_resetBucket j)) s
    = (Ok tt, set_win w' s)
    /\ w_size w' = size rw
    /\ reset_some (buckets (win rw)) (buckets w').
Proof.
  intros Hok Hi Hsz Hws Hrs. destruct Hok as [Hsize Hwsize Hlen Hoff].
  unfold bind, rem64.
  destruct (size rw =? 0) eqn:E; [zbool; lia|]. unfold ret, on_win, zoom.
  unfold add64. rewrite (wrap64_small (offset rw + i)) by (unfold int64_min, int64_max; lia).
  rewrite wrap64_small by (unfold int64_min, int64_max; lia).
  set (j := Z.rem (offset rw + i + 1) (size rw)).
  assert (Hj : 0 <= j < size rw) by (apply rem_index_range; lia).
  rewrite window_resetBucket_modify.
  assert (Hjj : Z.rem j (w_size (win s)) = j) by (rewrite Hws; apply Z.rem_small; lia).
  assert (Hl : length (buckets (win s)) = length (buckets (win rw)))
    by (apply reset_some_length; assumption).
  destruct (lookup_lt_is_Some_2 (buckets (win s)) (Z.to_nat j)) as [b Hb]; [lia|].
  erewrite window_modify_ok; [| lia | lia | rewrite Hjj; eassumption].
  eexists. split; [reflexivity|]. simpl. split; [assumption|].
  apply reset_some_insert. assumption.
Qed.

End RollingWindowFacts.

Section RollingWindowRuns.

Import collection.

Lemma updateOffset_same t1 t2 rw :
  interval rw <> 0 -> span_val rw t1 <= 0 ->
  RollingWindow_updateOffset t1 t2 rw = (Ok tt, rw).
Proof.
  intros Hi Hs. unfold RollingWindow_updateOffset, bind.
  rewrite span_run by assumption.
  destruct (span_val rw t1 <=? 0) eqn:E; [reflexivity|zbool; lia].
Qed.

Lemma updateOffset_panic t1 t2 rw :
  interval rw = 0 ->
  RollingWindow_updateOffset t1 t2 rw = (Panic DivideByZero, rw).
Proof.
  intros Hi. unfold RollingWindow_updateOffset, bind.
  rewrite span_panic by assumption. reflexivity.
Qed.

(** A rotation: the stale buckets are reset, [offset] advances by [span]
    and [lastTime] is re-aligned. *)
Lemma updateOffset_rotate t1 t2 rw :
  rw_ok rw -> interval rw <> 0 -> 0 < span_val rw t1 ->
  exists bs,
    reset_some (buckets (win rw)) bs /\
    RollingWindow_updateOffset t1 t2 rw
    = (Ok tt,
       {| size := size rw;
          win := mkWindow bs (size rw);
          interval := interval rw;
          offset := Z.rem (offset rw + span_val rw t1) (size rw);
          ignoreCurrent := ignoreCurrent rw;
          lastTime :=
            sub64 t2 (Z.rem (sub64 t2 (lastTime rw)) (interval rw)) |}).
Proof.
  intros Hok Hi Hs. pose proof Hok as [Hsize Hwsize Hlen Hoff].
  pose proof (span_val_range rw t1 ltac:(lia)) as Hsp.
  unfold RollingWindow_updateOffset.
  rewrite (bind_run_ok _ _ _ _ _ (span_run t1 rw Hi)).
  destruct (span_val rw t1 <=? 0) eqn:E; [zbool; lia|]. clear E.
  rewrite (bind_run_ok get _ rw rw rw eq_refl).
  destruct (for_loop_ok
              (fun s => size s = size rw /\ interval s = interval rw /\
                        offset s = offset rw /\
                        ignoreCurrent s = ignoreCurrent rw /\
                        lastTime s = lastTime rw /\
                        w_size (win s) = size rw /\
                        reset_some (buckets (win rw)) (buckets (win s)))
              (fun i (_ : unit) =>
                 j <- rem64 (add64 (add64 (offset rw) i) 1) (size rw) ;;
                 on_win (window_resetBucket j))
              (Z.to_nat (span_val rw t1)) 0 tt rw)
    as (u & s & Eloop & Hs1 & Hs2 & Hs3 & Hs4 & Hs5 & Hs6 & Hs7).
  - intros j [] s' Hj (H1 & H2 & H3 & H4 & H5 & H6 & H7).
    destruct (reset_step rw s' j Hok ltac:(lia) H1 H6 H7) as (w' & E & Hw1 & Hw2).
    exists tt, (set_win w' s'). split; [exact E|]. simpl. tauto.
  - repeat split; try reflexivity; try assumption. apply reset_some_refl.
  - rewrite (bind_run_ok _ _ _ _ _ Eloop).
    exists (buckets (win s)). split; [assumption|].
    unfold bind, rem64.
    destruct (size rw =? 0) eqn:E; [zbool; lia|]. unfold ret, get, put. simpl.
    rewrite Hs2. destruct (interval rw =? 0) eqn:E2; [zbool; lia|]. simpl.
    unfold add64. rewrite wrap64_small by (unfold int64_min, int64_max; lia).
    unfold set_lastTime, set_offset. simpl.
    rewrite Hs1, Hs2, Hs4, Hs5. destruct u.
    do 3 f_equal. destruct (win s) as [bs n]. simpl in *. congruence.
Qed.

Lemma next_offset_range rw t1 :
  rw_ok rw -> 0 <= next_offset rw t1 < size rw.
Proof.
  intros [Hsize _ _ Hoff]. unfold next_offset.
  pose proof (span_val_range rw t1 ltac:(lia)).
  destruct (span_val rw t1 <=? 0); [lia|].
  apply rem_index_range; lia.
Qed.

Lemma Add_spec v t1 t2 rw :
  rw_ok rw -> interval rw <> 0 ->
  exists bs b,
    reset_some (buckets (win rw)) bs /\
    (span_val rw t1 <= 0 -> bs = buckets (win rw)) /\
    bs !! Z.to_nat (next_offset rw t1) = Some b /\
    RollingWindow_Add v t1 t2 rw
    = (Ok tt,
       {| size := size rw;
          win := mkWindow (<[Z.to_nat (next_offset rw t1) := Bucket_add v b]> bs)
                          (size rw);
          interval := interval rw;
          offset := next_offset rw t1;
          ignoreCurrent := ignoreCurrent rw;
          lastTime := next_lastTime rw t1 t2 |}).
Proof.
  intros Hok Hi. pose proof Hok as [Hsize Hwsize Hlen Hoff].
  pose proof (next_offset_range rw t1 Hok) as Hno.
  unfold RollingWindow_Add, bind, next_lastTime.
  unfold next_offset in *.
  destruct (span_val rw t1 <=? 0) eqn:E; zbool.
  - rewrite updateOffset_same by assumption. unfold get, on_win, zoom.
    rewrite window_add_modify.
    destruct (lookup_lt_is_Some_2 (buckets (win rw)) (Z.to_nat (offset rw)))
      as [b Hb]; [lia|].
    exists (buckets (win rw)), b.
    split; [apply reset_some_refl|]. split; [reflexivity|]. split; [assumption|].
    assert (Hr : Z.rem (offset rw) (w_size (win rw)) = offset rw)
      by (apply Z.rem_small; lia).
    erewrite window_modify_ok; [| lia | lia | rewrite Hr; eassumption].
    rewrite Hr. destruct rw as [sz [bs n] iv off ign lt]. simpl in *. subst n.
    reflexivity.
  - destruct (updateOffset_rotate t1 t2 rw Hok Hi ltac:(lia)) as (bs & Hbs & ->).
    unfold get, on_win, zoom. cbn [win offset].
    rewrite window_add_modify.
    set (o := Z.rem (offset rw + span_val rw t1) (size rw)) in *.
    pose proof (reset_some_length _ _ Hbs) as Hl.
    destruct (lookup_lt_is_Some_2 bs (Z.to_nat o)) as [b Hb]; [lia|].
    exists bs, b. split; [assumption|]. split; [lia|]. split; [assumption|].
    assert (Hr : Z.rem o (size rw) = o) by (apply Z.rem_small; lia).
    erewrite window_modify_ok;
      [| simpl; lia | simpl; lia | simpl; rewrite Hr; eassumption].
    simpl. rewrite Hr. reflexivity.
Qed.

Lemma Add_panic v t1 t2 rw :
  interval rw = 0 -> RollingWindow_Add v t1 t2 rw = (Panic DivideByZero, rw).
Proof.
  intros Hi. unfold RollingWindow_Add, bind.
  rewrite updateOffset_panic by assumption. reflexivity.
Qed.

(** [Add] keeps a window well formed, whatever the clock says. *)
Lemma Add_ok v t1 t2 rw :
  rw_ok rw -> rw_ok (snd (RollingWindow_Add v t1 t2 rw)).
Proof.
  intros Hok. destruct (Z.eq_dec (interval rw) 0) as [Hz|Hnz].
  - rewrite Add_panic by assumption. exact Hok.
  - destruct (Add_spec v t1 t2 rw Hok Hnz) as (bs & b & Hbs & _ & Hb & ->).
    pose proof Hok as [Hsize Hwsize Hlen Hoff].
    pose proof (next_offset_range rw t1 Hok). simpl.
    constructor; simpl; try assumption; try reflexivity.
    rewrite length_insert, (reset_some_length _ _ Hbs). assumption.
Qed.

End RollingWindowRuns.

Section Alignment.

Import collection.

Lemma rem_between a b :
  b <> 0 ->
  (0 <= a -> 0 <= Z.rem a b <= a) /\ (a <= 0 -> a <= Z.rem a b <= 0).
Proof.
  intros Hb.
  pose proof (Z.quot_rem' a b) as E.
  split; intros Ha.
  - pose proof (Z.rem_nonneg a b Hb Ha).
    assert (0 <= b * Z.quot a b); [|lia].
    destruct (Z.lt_total b 0) as [Hn|[Hz|Hp]]; [|lia|].
    + rewrite <- (Z.opp_involutive b), Z.quot_opp_r by lia.
      pose proof (Z.quot_pos a (- b) Ha ltac:(lia)). nia.
    + pose proof (Z.quot_pos a b Ha Hp). nia.
  - pose proof (Z.rem_nonpos a b Hb Ha).
    assert (b * Z.quot a b <= 0); [|lia].
    replace a with (- (- a)) by lia.
    rewrite Z.quot_opp_l by lia.
    destruct (Z.lt_total b 0) as [Hn|[Hz|Hp]]; [|lia|].
    + rewrite <- (Z.opp_involutive b), Z.quot_opp_r by lia.
      pose proof (Z.quot_pos (- a) (- b) ltac:(lia) ltac:(lia)).
      rewrite Z.opp_involutive. nia.
    + pose proof (Z.quot_pos (- a) b ltac:(lia) Hp). nia.
Qed.

Lemma sub64_valid a b : valid_time a -> valid_time b -> sub64 a b = a - b.
Proof.
  unfold valid_time, sub64. intros Ha Hb.
  apply wrap64_small. unfold int64_min, int64_max. lia.
Qed.

(** The re-alignment of [updateOffset] on valid clock readings. *)
Lemma realign_facts lt t2 iv :
  valid_time lt -> valid_time t2 -> iv <> 0 ->
  let lt' := sub64 t2 (Z.rem (sub64 t2 lt) iv) in
  lt' = t2 - Z.rem (t2 - lt) iv /\ valid_time lt' /\ (iv | lt' - lt).
Proof.
  intros Hlt Ht2 Hiv lt'. subst lt'.
  rewrite (sub64_valid t2 lt) by assumption.
  destruct (rem_between (t2 - lt) iv Hiv) as [Hpos Hneg].
  assert (Hr : valid_time (t2 - Z.rem (t2 - lt) iv)).
  { unfold valid_time in *.
    destruct (Z.le_gt_cases 0 (t2 - lt)) as [H|H].
    - specialize (Hpos H). lia.
    - specialize (Hneg ltac:(lia)). lia. }
  assert (E : sub64 t2 (Z.rem (t2 - lt) iv) = t2 - Z.rem (t2 - lt) iv).
  { unfold sub64. apply wrap64_small.
    unfold valid_time, int64_min, int64_max in *. lia. }
  rewrite E. split; [reflexivity|]. split; [assumption|].
  exists (Z.quot (t2 - lt) iv).
  pose proof (Z.quot_rem' (t2 - lt) iv). lia.
Qed.

Lemma Add_lastTime v t1 t2 rw :
  rw_ok rw -> valid_time (lastTime rw) -> valid_time t2 ->
  let rw' := snd (RollingWindow_Add v t1 t2 rw) in
  size rw' = size rw /\ interval rw' = interval rw /\
  valid_time (lastTime rw') /\
  (interval rw | lastTime rw' - lastTime rw) /\
  (lastTime rw' = lastTime rw
   \/ lastTime rw' = t2 - Z.rem (t2 - lastTime rw) (interval rw)).
Proof.
  intros Hok Hlt Ht2. destruct (Z.eq_dec (interval rw) 0) as [Hz|Hnz].
  - rewrite Add_panic by assumption. simpl.
    split; [reflexivity|]. split; [reflexivity|]. split; [assumption|].
    split; [|left; reflexivity].
    rewrite Z.sub_diag. apply Z.divide_0_r.
  - destruct (Add_spec v t1 t2 rw Hok Hnz) as (bs & b & _ & _ & _ & ->).
    simpl. unfold next_lastTime.
    destruct (span_val rw t1 <=? 0).
    + split; [reflexivity|]. split; [reflexivity|]. split; [assumption|].
      split; [|left; reflexivity].
      rewrite Z.sub_diag. apply Z.divide_0_r.
    + destruct (realign_facts (lastTime rw) t2 (interval rw) Hlt Ht2 Hnz)
        as (E & Hv & Hd).
      split; [reflexivity|]. split; [reflexivity|]. split; [assumption|].
      split; [assumption|]. right. exact E.
Qed.

Lemma options_keep (P : RollingWindow -> Prop) opts rw0 :
  (forall rw, P rw -> P (IgnoreCurrentBucket rw)) ->
  Forall (fun o => o = IgnoreCurrentBucket) opts ->
  P rw0 -> P (fold_left (fun w (opt : RollingWindowOption) => opt w) opts rw0).
Proof.
  intros HP Hopts. revert rw0.
  induction Hopts as [|o opts -> _ IH]; intros rw0 H0; simpl; [exact H0|].
  apply IH, HP, H0.
Qed.

Lemma NewRollingWindow_ok sz iv opts now rw :
  Forall (fun o => o = IgnoreCurrentBucket) opts ->
  NewRollingWindow sz iv opts now = Ok rw ->
  sz < 2 ^ 62 ->
  rw_ok rw /\ size rw = sz /\ interval rw = iv /\ lastTime rw = now
  /\ offset rw = 0
  /\ buckets (win rw) = replicate (Z.to_nat sz) (mkBucket 0 0).
Proof.
  intros Hopts Hnew Hsz. unfold NewRollingWindow in Hnew.
  destruct (sz <? 1) eqn:E; [discriminate|]. zbool.
  inversion Hnew as [Hrw]. clear Hnew Hrw.
  apply (options_keep
           (fun rw => rw_ok rw /\ size rw = sz /\ interval rw = iv
                      /\ lastTime rw = now /\ offset rw = 0
                      /\ buckets (win rw)
                         = replicate (Z.to_nat sz) (mkBucket 0 0)));
    [|assumption|].
  - intros rw0 ([? ? ? ?] & ? & ? & ? & ? & ?).
    repeat split; simpl; first [assumption | lia].
  - repeat split; simpl; try lia. rewrite length_replicate. lia.
Qed.

End Alignment.

Section ReduceFacts.

Import collection.

Context {A : Type} (fn : Bucket -> A -> Bucket * A).

Lemma window_reduce_body start count acc :
  window_reduce start count fn acc
  = for_loop (Z.to_nat count) 0 (reduce_body fn start) acc.
Proof. reflexivity. Qed.

Lemma reduce_body_ok start i acc w b :
  w_size w <> 0 ->
  0 <= Z.rem (add64 start i) (w_size w) ->
  buckets w !! Z.to_nat (Z.rem (add64 start i) (w_size w)) = Some b ->
  reduce_body fn start i acc w
  = (Ok (snd (fn b acc)),
     set_buckets
       (<[Z.to_nat (Z.rem (add64 start i) (w_size w)) := fst (fn b acc)]>
          (buckets w)) w).
Proof.
  intros Hn Hj Hb. unfold reduce_body, bind, get, rem64.
  destruct (w_size w =? 0) eqn:E; [zbool; lia|].
  unfold ret, bucket_get, zoom.
  rewrite (index_ok _ _ b Hj Hb), set_buckets_id.
  destruct (fn b acc) as [b' acc']. unfold bucket_set, zoom.
  rewrite (store_ok _ _ _ b Hj Hb). reflexivity.
Qed.

Lemma reduce_body_cases start i acc w :
  (exists e, reduce_body fn start i acc w = (Panic e, w))
  \/ (exists b,
        w_size w <> 0 /\
        0 <= Z.rem (add64 start i) (w_size w) /\
        buckets w !! Z.to_nat (Z.rem (add64 start i) (w_size w)) = Some b).
Proof.
  destruct (Z.eq_dec (w_size w) 0) as [Hz|Hn].
  - left. exists DivideByZero. unfold reduce_body, bind, get, rem64.
    rewrite Hz. reflexivity.
  - destruct (index_cases (buckets w) (Z.rem (add64 start i) (w_size w)))
      as [(b & Hi & Hb & _)|Hp].
    + right. exists b. auto.
    + left. exists IndexOutOfRange.
      unfold reduce_body, bind, get, rem64.
      destruct (w_size w =? 0) eqn:E; [zbool; lia|].
      unfold ret, bucket_get, zoom. rewrite Hp, set_buckets_id. reflexivity.
Qed.

Hypothesis fn_read_only : read_only fn.

Lemma reduce_body_unchanged start i acc w :
  snd (reduce_body fn start i acc w) = w.
Proof.
  destruct (reduce_body_cases start i acc w) as [[e ->]|(b & Hn & Hj & Hb)];
    [reflexivity|].
  rewrite (reduce_body_ok _ _ _ _ b Hn Hj Hb). simpl.
  rewrite fn_read_only, list_insert_id by assumption.
  apply set_buckets_id.
Qed.

Lemma window_reduce_unchanged start count acc w :
  snd (window_reduce start count fn acc w) = w.
Proof.
  rewrite window_reduce_body. apply for_loop_unchanged.
  intros. apply reduce_body_unchanged.
Qed.

Lemma set_win_id rw : set_win (win rw) rw = rw.
Proof. destruct rw; reflexivity. Qed.

(** [Reduce] with a reading callback leaves the window as it is,
    well formed or not, panicking or not. *)
Lemma Reduce_unchanged acc now rw :
  snd (RollingWindow_Reduce fn acc now rw) = rw.
Proof.
  unfold RollingWindow_Reduce.
  destruct (Z.eq_dec (interval rw) 0) as [Hz|Hnz].
  - rewrite (bind_run_panic _ _ _ _ _ (span_panic now rw Hz)). reflexivity.
  - rewrite (bind_run_ok _ _ _ _ _ (span_run now rw Hnz)).
    rewrite (bind_run_ok get _ rw rw rw eq_refl).
    match goal with |- context [if 0 <? ?d then _ else _] =>
      destruct (0 <? d) end; [|reflexivity].
    unfold bind, rem64. destruct (size rw =? 0); [reflexivity|].
    unfold ret, on_win, zoom.
    match goal with |- context [window_reduce ?s ?c fn acc (win rw)] =>
      pose proof (window_reduce_unchanged s c acc (win rw)) as H;
      destruct (window_reduce s c fn acc (win rw)) as [r w'] end.
    simpl in *. subst w'. apply set_win_id.
Qed.

Lemma Reduce_times_unchanged n acc now rw :
  Reduce_times n fn acc now rw
  = (repeat (fst (RollingWindow_Reduce fn acc now rw)) n, rw).
Proof.
  induction n as [|n IH]; [reflexivity|]. cbn [Reduce_times].
  pose proof (Reduce_unchanged acc now rw) as H.
  destruct (RollingWindow_Reduce fn acc now rw) as [r rw1]. simpl in *.
  subst rw1. rewrite IH. reflexivity.
Qed.

End ReduceFacts.

Section BreakerReads.

Import breaker.

Lemma history_fn_read_only : read_only history_fn.
Proof. intros b [accepts total]. reflexivity. Qed.

Lemma set_stat_id b : set_stat (stat b) b = b.
Proof. destruct b; reflexivity. Qed.

Lemma history_unchanged now b : snd (googleBreaker_history now b) = b.
Proof.
  unfold googleBreaker_history, on_stat, zoom.
  pose proof (Reduce_unchanged history_fn history_fn_read_only (0, 0)%Z now
                (stat b)) as H.
  destruct (collection.RollingWindow_Reduce _ _ _ _) as [r rw']. simpl in *.
  subst rw'. apply set_stat_id.
Qed.

(** What [accept] returns once [history] has returned. *)
Lemma accept_run now draw b accepts total :
  fst (googleBreaker_history now b) = Ok (accepts, total) ->
  googleBreaker_accept now draw b
  = (Ok (if Qle_bool (dropRatio (gb_k b) accepts total) 0 then None
         else if TrueOnProba draw (dropRatio (gb_k b) accepts total)
              then Some ErrServiceUnavailable
              else None),
     b).
Proof.
  intros H. pose proof (history_unchanged now b) as Hs.
  unfold googleBreaker_accept, bind.
  destruct (googleBreaker_history now b) as [r b']. simpl in *. subst r b'.
  unfold get. destruct (Qle_bool _ 0); [reflexivity|].
  destruct (TrueOnProba _ _); reflexivity.
Qed.

Lemma accept_unchanged now draw b : snd (googleBreaker_accept now draw b) = b.
Proof.
  pose proof (history_unchanged now b) as Hs.
  destruct (fst (googleBreaker_history now b)) as [[accepts total]|f] eqn:E.
  - rewrite (accept_run now draw b accepts total E). reflexivity.
  - unfold googleBreaker_accept, bind.
    destruct (googleBreaker_history now b) as [r b']. simpl in *. subst r b'.
    reflexivity.
Qed.

End BreakerReads.

Section ReduceValue.

Import collection.

Lemma fold_left_map_index {X Y B : Type} (f : B -> Y -> B) (g : X -> Y) l a :
  fold_left f (map g l) a = fold_left (fun a x => f a (g x)) l a.
Proof. revert a. induction l as [|x l IH]; intros a; simpl; auto. Qed.

Lemma fold_left_ext_in {X B : Type} (f g : B -> X -> B) l a :
  (forall a x, In x l -> f a x = g a x) ->
  fold_left f l a = fold_left g l a.
Proof.
  revert a. induction l as [|x l IH]; intros a H; simpl; [reflexivity|].
  rewrite H by (left; reflexivity). apply IH. intros; apply H; right; assumption.
Qed.

Context {A : Type} (fn : Bucket -> A -> Bucket * A).
Hypothesis fn_read_only : read_only fn.

Lemma visited_length rw now :
  rw_ok rw -> (length (visited rw now) <= Z.to_nat (size rw))%nat.
Proof.
  intros Hok. pose proof (ok_size rw Hok).
  pose proof (span_val_range rw now ltac:(lia)).
  unfold visited. rewrite length_map, length_seqZ.
  destruct (_ && _); lia.
Qed.

Lemma Reduce_ro_run acc now rw :
  rw_ok rw -> interval rw <> 0 ->
  RollingWindow_Reduce fn acc now rw
  = (Ok (fold_left (fun a j => snd (fn (bucket_at (buckets (win rw)) j) a))
           (visited rw now) acc),
     rw).
Proof.
  intros Hok Hiv. pose proof Hok as [Hsize Hwsize Hlen Hoff].
  pose proof (span_val_range rw now ltac:(lia)) as Hsp.
  unfold RollingWindow_Reduce, visited.
  rewrite (bind_run_ok _ _ _ _ _ (span_run now rw Hiv)).
  rewrite (bind_run_ok get _ rw rw rw eq_refl).
  set (span := span_val rw now) in *.
  set (diff := if (span =? 0) && ignoreCurrent rw then size rw - 1
               else size rw - span).
  assert (Hdiff : (if (span =? 0) && ignoreCurrent rw then sub64 (size rw) 1
                   else sub64 (size rw) span) = diff).
  { subst diff. unfold sub64.
    destruct (_ && _); apply wrap64_small; unfold int64_min, int64_max; lia. }
  rewrite Hdiff.
  assert (Hd : diff <= size rw) by (subst diff; destruct (_ && _); lia).
  destruct (0 <? diff) eqn:E; zbool.
  2: { rewrite seqZ_nil by lia. reflexivity. }
  unfold rem64 at 1. unfold bind at 1.
  destruct (size rw =? 0) eqn:E0; [zbool; lia|]. unfold ret at 1.
  unfold add64 at 1 2. rewrite (wrap64_small (offset rw + span))
    by (unfold int64_min, int64_max; lia).
  rewrite wrap64_small by (unfold int64_min, int64_max; lia).
  set (start := Z.rem (offset rw + span + 1) (size rw)).
  assert (Hstart : 0 <= start < size rw) by (apply rem_index_range; lia).
  unfold on_win, zoom. rewrite window_reduce_body.
  rewrite (for_loop_pure _
             (fun i a => snd (fn (bucket_at (buckets (win rw))
                                    (Z.rem (start + i) (size rw))) a))).
  - rewrite set_win_id, fold_left_map_index.
    replace (Z.of_nat (Z.to_nat diff)) with diff by lia. reflexivity.
  - intros j a Hj.
    assert (Hadd : add64 start j = start + j)
      by (apply wrap64_small; unfold int64_min, int64_max; lia).
    assert (Hr : 0 <= Z.rem (start + j) (size rw) < size rw)
      by (apply rem_index_range; lia).
    destruct (lookup_lt_is_Some_2 (buckets (win rw))
                (Z.to_nat (Z.rem (start + j) (size rw)))) as [b Hb]; [lia|].
    rewrite (reduce_body_ok fn start j a (win rw) b);
      rewrite ?Hadd, ?Hwsize; try assumption; try lia.
    rewrite fn_read_only, list_insert_id, set_buckets_id by assumption.
    unfold bucket_at. rewrite Hb. reflexivity.
Qed.

End ReduceValue.

(** ** The breaker's states *)

Section BreakerStates.

Import collection.

Lemma sum_ok_weaken n n' bk : n <= n' -> sum_ok n bk -> sum_ok n' bk.
Proof. intros Hn (m & Hm & Hr). exists m. split; [assumption|lia]. Qed.

Lemma Qred_inject_add m c :
  Qred (inject_Z m + inject_Z c) = inject_Z (m + c).
Proof.
  rewrite <- (Qcanon.Qred_identity (inject_Z (m + c))).
  - apply Qred_complete. rewrite inject_Z_plus. reflexivity.
  - simpl. apply Z.gcd_1_r.
Qed.

Lemma sum_ok_add n c bk :
  0 <= c <= 1 -> sum_ok n bk -> sum_ok (n + 1) (Bucket_add (inject_Z c) bk).
Proof.
  intros Hc (m & Hm & Hr). exists (m + c). simpl.
  rewrite Hm, Qred_inject_add. split; [reflexivity|lia].
Qed.

Lemma sum_ok_zero n : 0 <= n -> sum_ok n (mkBucket 0 0).
Proof. intros Hn. exists 0. split; [reflexivity|lia]. Qed.

(** Recording an outcome keeps the breaker well formed. *)
Lemma mark_ok n c t1 t2 b :
  0 <= n -> 0 <= c <= 1 -> brk_ok n b ->
  exists bs bk,
    reset_some (buckets (win (breaker.stat b))) bs
    /\ (span_val (breaker.stat b) t1 <= 0 -> bs = buckets (win (breaker.stat b)))
    /\ bs !! Z.to_nat (next_offset (breaker.stat b) t1) = Some bk
    /\ breaker.on_stat (RollingWindow_Add (inject_Z c) t1 t2) b
       = (Ok tt,
          {| breaker.gb_k := breaker.gb_k b;
             breaker.stat :=
               {| size := size (breaker.stat b);
                  win := mkWindow
                           (<[Z.to_nat (next_offset (breaker.stat b) t1)
                              := Bucket_add (inject_Z c) bk]> bs)
                           (size (breaker.stat b));
                  interval := interval (breaker.stat b);
                  offset := next_offset (breaker.stat b) t1;
                  ignoreCurrent := ignoreCurrent (breaker.stat b);
                  lastTime := next_lastTime (breaker.stat b) t1 t2 |} |})
    /\ brk_ok (n + 1)
         (snd (breaker.on_stat (RollingWindow_Add (inject_Z c) t1 t2) b)).
Proof.
  intros Hn Hc [Hk Hrw Hsz Hiv Hig Hsums].
  destruct (Add_spec (inject_Z c) t1 t2 (breaker.stat b) Hrw ltac:(lia))
    as (bs & bk & Hbs & Hsame & Hbk & Hadd).
  exists bs, bk. split; [assumption|]. split; [assumption|].
  split; [assumption|].
  split; [unfold breaker.on_stat, zoom; rewrite Hadd; reflexivity|].
  unfold breaker.on_stat, zoom. rewrite Hadd. simpl.
  pose proof (Add_ok (inject_Z c) t1 t2 (breaker.stat b) Hrw) as Hok'.
  rewrite Hadd in Hok'. simpl in Hok'.
  constructor; simpl; try assumption.
  assert (Hall : Forall (sum_ok n) bs)
    by (eapply reset_some_Forall; [eassumption|apply sum_ok_zero; lia|assumption]).
  apply Forall_insert.
  - eapply Forall_impl; [exact Hall|]. intros; eapply sum_ok_weaken; [|eassumption]. lia.
  - apply sum_ok_add; [assumption|]. rewrite Forall_lookup in Hall. eapply Hall, Hbk.
Qed.

Lemma newGoogleBreaker_ok now b :
  breaker.newGoogleBreaker now = Ok b -> brk_ok 0 b.
Proof.
  unfold breaker.newGoogleBreaker. intros H.
  destruct (NewRollingWindow _ _ _ _) as [st|f] eqn:E; [|discriminate].
  inversion H; subst b. clear H.
  destruct (NewRollingWindow_ok _ _ _ _ _ (Forall_nil_2 _) E)
    as (Hok & Hs & Hi & _ & _ & Hb).
  { unfold breaker.buckets. lia. }
  constructor; simpl; try assumption; try reflexivity.
  - unfold NewRollingWindow in E. simpl in E. inversion E. reflexivity.
  - rewrite Hb. apply Forall_replicate. apply sum_ok_zero. lia.
Qed.

Lemma reachable_ok n b : reachable n b -> brk_ok (Z.of_nat n) b.
Proof.
  induction 1 as [now b Hnew|n b now draw _ IH|n b t1 t2 _ IH|n b t1 t2 _ IH].
  - apply (newGoogleBreaker_ok now b Hnew).
  - rewrite accept_unchanged. exact IH.
  - replace (Z.of_nat (S n)) with (Z.of_nat n + 1) by lia.
    destruct (mark_ok (Z.of_nat n) 1 t1 t2 b ltac:(lia) ltac:(lia) IH)
      as (? & ? & _ & _ & _ & _ & H).
    exact H.
  - replace (Z.of_nat (S n)) with (Z.of_nat n + 1) by lia.
    destruct (mark_ok (Z.of_nat n) 0 t1 t2 b ltac:(lia) ltac:(lia) IH)
      as (? & ? & _ & _ & _ & _ & H).
    exact H.
Qed.

End BreakerStates.

Section HistoryValue.

Import collection.

Lemma history_run n now b :
  brk_ok n b ->
  breaker.googleBreaker_history now b
  = (Ok (fold_left (history_step (buckets (win (breaker.stat b))))
           (visited (breaker.stat b) now) (0, 0)),
     b).
Proof.
  intros [Hk Hrw Hsz Hiv Hig Hsums].
  unfold breaker.googleBreaker_history, breaker.on_stat, zoom.
  rewrite (Reduce_ro_run breaker.history_fn history_fn_read_only)
    by (assumption || lia).
  rewrite set_stat_id. reflexivity.
Qed.

Lemma int64_of_float_inject z : int64_of_float (inject_Z z) = wrap64 z.
Proof. unfold int64_of_float. simpl. rewrite Z.quot_1_r. reflexivity. Qed.

Lemma bucket_at_sum_ok n bs j :
  0 <= n -> Forall (sum_ok n) bs -> sum_ok n (bucket_at bs j).
Proof.
  intros Hn Hall. unfold bucket_at.
  destruct (bs !! Z.to_nat j) as [bk|] eqn:E; simpl.
  - rewrite Forall_lookup in Hall. eapply Hall, E.
  - apply sum_ok_zero, Hn.
Qed.

(** With at most [n] successes in each bucket, the accepts of [history]
    add up without overflow. *)
Lemma history_accepts_bounds n bs l :
  0 <= n -> Forall (sum_ok n) bs ->
  forall a t,
    0 <= a -> a + Z.of_nat (length l) * n <= int64_max ->
    a <= fst (fold_left (history_step bs) l (a, t))
      <= a + Z.of_nat (length l) * n.
Proof.
  intros Hn Hall. induction l as [|j l IH]; intros a t Ha Hb.
  - simpl. lia.
  - destruct (bucket_at_sum_ok n bs j Hn Hall) as (m & Hm & Hr).
    cbn [length] in *.
    assert (Hstep : history_step bs (a, t) j
                    = (a + m, add64 t (Count (bucket_at bs j)))).
    { unfold history_step, breaker.history_fn. cbn [snd].
      rewrite Hm, int64_of_float_inject. f_equal.
      assert (Hw : wrap64 m = m)
        by (apply wrap64_small; unfold int64_min, int64_max in *; nia).
      rewrite Hw. unfold add64. apply wrap64_small.
      unfold int64_min, int64_max in *. nia. }
    cbn [fold_left]. rewrite Hstep.
    specialize (IH (a + m) (add64 t (Count (bucket_at bs j)))
                  ltac:(lia) ltac:(nia)).
    nia.
Qed.

Lemma in_current_span rw t :
  1 <= size rw -> in_current_bucket rw t -> span_val rw t = 0.
Proof.
  intros Hs [H0 H1]. unfold span_val.
  rewrite Z.quot_small by lia. change (wrap64 0) with 0.
  destruct (0 <? size rw) eqn:E; [reflexivity|zbool; lia].
Qed.

(** The indices visited while the clock is in the current bucket: all
    of them, the current one last. *)
Lemma visit_index o s i :
  0 <= o < s -> 0 <= i < s ->
  let j := Z.rem (Z.rem (o + 0 + 1) s + i) s in
  0 <= j < s /\ (j = o <-> i = s - 1).
Proof.
  intros Ho Hi j. subst j.
  pose proof (rem_index_range (o + 0 + 1) s ltac:(lia) ltac:(lia)) as Hst.
  rewrite (Z.rem_mod_nonneg (_ + i)) by lia.
  rewrite (Z.rem_mod_nonneg (o + 0 + 1)) by lia.
  rewrite Zplus_mod_idemp_l.
  split; [apply Z.mod_pos_bound; lia|].
  destruct (Z.lt_ge_cases (o + 0 + 1 + i) s) as [Hlt|Hge].
  - rewrite Z.mod_small by lia. lia.
  - replace (o + 0 + 1 + i) with ((o + 1 + i - s) + 1 * s) by lia.
    rewrite Z.mod_add by lia. rewrite Z.mod_small by lia. lia.
Qed.

Lemma visited_current rw t :
  rw_ok rw -> ignoreCurrent rw = false -> in_current_bucket rw t ->
  visited rw t
  = map (fun i => Z.rem (Z.rem (offset rw + 0 + 1) (size rw) + i) (size rw))
        (seqZ 0 (size rw - 1))
    ++ [offset rw].
Proof.
  intros Hok Hig Hcur. pose proof Hok as [Hsize _ _ Hoff].
  unfold visited. rewrite (in_current_span rw t) by (assumption || lia).
  rewrite Hig, andb_false_r, Z.sub_0_r.
  replace (seqZ 0 (size rw)) with (seqZ 0 ((size rw - 1) + 1))
    by (f_equal; lia).
  rewrite seqZ_app by lia. rewrite map_app. f_equal.
  change (seqZ (0 + (size rw - 1)) 1) with [0 + (size rw - 1)].
  cbn [map]. f_equal.
  apply (visit_index (offset rw) (size rw) (0 + (size rw - 1))); lia.
Qed.

(** The accumulators of [history] before and after one more outcome in
    the current bucket. *)
Lemma history_fold_after_add bs o s bk m c :
  0 <= o < s -> Z.of_nat (length bs) = s ->
  bs !! Z.to_nat o = Some bk -> Sum bk = inject_Z m ->
  let l := map (fun i => Z.rem (Z.rem (o + 0 + 1) s + i) s) (seqZ 0 (s - 1))
           ++ [o] in
  let bs' := <[Z.to_nat o := Bucket_add (inject_Z c) bk]> bs in
  exists a t,
    fold_left (history_step bs) l (0, 0)
    = (add64 a (wrap64 m), add64 t (Count bk))
    /\ fold_left (history_step bs') l (0, 0)
       = (add64 a (wrap64 (m + c)), add64 t (add64 (Count bk) 1)).
Proof.
  intros Ho Hlen Hbk Hm l bs'. subst l.
  rewrite !fold_left_app.
  set (pre := map _ (seqZ 0 (s - 1))).
  assert (Hpre : fold_left (history_step bs') pre (0, 0)
                 = fold_left (history_step bs) pre (0, 0)).
  { apply fold_left_ext_in. intros acc j Hin. subst pre.
    apply in_map_iff in Hin. destruct Hin as (i & <- & Hi).
    apply list_elem_of_In, elem_of_seqZ in Hi.
    destruct (visit_index o s i Ho ltac:(lia)) as [Hr Hne].
    unfold history_step, bucket_at. subst bs'.
    rewrite list_lookup_insert_ne; [reflexivity|]. lia. }
  rewrite Hpre. destruct (fold_left (history_step bs) pre (0, 0)) as [a t].
  exists a, t. cbn [fold_left]. unfold history_step, bucket_at. subst bs'.
  rewrite list_lookup_insert_eq by (apply lookup_lt_Some in Hbk; exact Hbk).
  rewrite Hbk. simpl. rewrite Hm, Qred_inject_add, !int64_of_float_inject.
  split; reflexivity.
Qed.

End HistoryValue.

(** ** C6: the invariants of the window *)

Section WindowInvariants.

Import collection.

Lemma run_adds_invariant sz iv now adds :
  Forall (fun a : Q * Z * Z => valid_time (snd (fst a)) /\ valid_time (snd a))
         adds ->
  forall rw,
    rw_ok rw -> size rw = sz -> interval rw = iv ->
    valid_time (lastTime rw) -> (iv | lastTime rw - now) ->
    let rw' := run_adds adds rw in
    rw_ok rw' /\ size rw' = sz /\ interval rw' = iv /\
    valid_time (lastTime rw') /\ (iv | lastTime rw' - now).
Proof.
  induction 1 as [|[[v t1] t2] adds [_ Ht2] _ IH]; intros rw Hok Hsz Hiv Hlt Hdiv.
  - simpl. tauto.
  - unfold run_adds. cbn [fold_left]. apply IH; simpl in Ht2.
    + apply Add_ok, Hok.
    + destruct (Add_lastTime v t1 t2 rw Hok Hlt Ht2) as (E & _). lia.
    + destruct (Add_lastTime v t1 t2 rw Hok Hlt Ht2) as (_ & E & _). lia.
    + apply (Add_lastTime v t1 t2 rw Hok Hlt Ht2).
    + destruct (Add_lastTime v t1 t2 rw Hok Hlt Ht2) as (_ & _ & _ & D & _).
      rewrite Hiv in D.
      replace (lastTime (snd (RollingWindow_Add v t1 t2 rw)) - now)
        with ((lastTime (snd (RollingWindow_Add v t1 t2 rw)) - lastTime rw)
              + (lastTime rw - now)) by lia.
      apply Z.divide_add_r; assumption.
Qed.

(** C6. After construction and after every [Add], [0 <= offset < size]
    and [lastTime] stays congruent to the initial [lastTime] modulo
    [interval]; an [Add] leaves [lastTime] alone or re-aligns it to
    [now - (now - lastTime) % interval].  Clock readings are below 2^62
    and the size below 2^62, so that no 64-bit operation overflows. *)
Theorem window_invariants sz iv opts now adds rw :
  Forall (fun o => o = IgnoreCurrentBucket) opts ->
  NewRollingWindow sz iv opts now = Ok rw ->
  sz < 2 ^ 62 ->
  valid_time now ->
  Forall (fun a : Q * Z * Z => valid_time (snd (fst a)) /\ valid_time (snd a))
         adds ->
  let rw' := run_adds adds rw in
  0 <= offset rw' < size rw'
  /\ (interval rw' | lastTime rw' - now)
  /\ forall v t1 t2,
       valid_time t2 ->
       let rw'' := snd (RollingWindow_Add v t1 t2 rw') in
       0 <= offset rw'' < size rw''
       /\ (lastTime rw'' = lastTime rw'
           \/ lastTime rw''
              = t2 - Z.rem (t2 - lastTime rw') (interval rw')).
Proof.
  intros Hopts Hnew Hsz Hnow Hadds rw'.
  destruct (NewRollingWindow_ok sz iv opts now rw Hopts Hnew Hsz)
    as (Hok & Hs & Hi & Hl & _).
  destruct (run_adds_invariant sz iv now adds Hadds rw Hok Hs Hi)
    as (Hok' & Hs' & Hi' & Hl' & Hd').
  { rewrite Hl. exact Hnow. }
  { rewrite Hl, Z.sub_diag. apply Z.divide_0_r. }
  fold rw' in Hok', Hs', Hi', Hl', Hd'.
  split; [apply Hok'|]. split; [rewrite Hi'; exact Hd'|].
  intros v t1 t2 Ht2 rw''. split.
  - apply (Add_ok v t1 t2 rw' Hok').
  - apply (Add_lastTime v t1 t2 rw' Hok' Hl' Ht2).
Qed.

Lemma window_invariants_witness :
  let rw' :=
    run_adds [(1%Q, 105, 105); (1%Q, 112, 113)]
      {| size := 3; win := newWindow 3; interval := 10; offset := 0;
         ignoreCurrent := true; lastTime := 100 |} in
  0 <= offset rw' < size rw'
  /\ (interval rw' | lastTime rw' - 100)
  /\ forall v t1 t2,
       valid_time t2 ->
       let rw'' := snd (RollingWindow_Add v t1 t2 rw') in
       0 <= offset rw'' < size rw''
       /\ (lastTime rw'' = lastTime rw'
           \/ lastTime rw''
              = t2 - Z.rem (t2 - lastTime rw') (interval rw')).
Proof.
  apply (window_invariants 3 10 [IgnoreCurrentBucket] 100).
  - repeat constructor.
  - reflexivity.
  - lia.
  - unfold valid_time. lia.
  - repeat constructor; unfold valid_time; simpl; lia.
Defined.

End WindowInvariants.

(** ** C3 and C4: rotation and ageing out *)

Section Rotation.

Import collection.

(** C3. With size 3, interval 10 and offset 0, 25 units after
    [lastTime] the span is 2 and [Reduce] calls [fn] once, on the bucket
    at index [(offset + span + 1) mod size]; the other two slots are
    neither read nor written. *)
Theorem rotation_size3_elapsed25 rw now :
  size rw = 3 -> interval rw = 10 -> offset rw = 0 ->
  w_size (win rw) = 3 -> length (buckets (win rw)) = 3%nat ->
  timex.Since now (lastTime rw) = 25 ->
  RollingWindow_span now rw = (Ok 2, rw)
  /\ exists b,
       buckets (win rw) !! Z.to_nat ((offset rw + 2 + 1) mod size rw) = Some b
       /\ forall (A : Type) (fn : Bucket -> A -> Bucket * A) (acc : A),
            RollingWindow_Reduce fn acc now rw
            = (Ok (snd (fn b acc)),
               set_win
                 (set_buckets
                    (<[Z.to_nat ((offset rw + 2 + 1) mod size rw)
                       := fst (fn b acc)]> (buckets (win rw)))
                    (win rw))
                 rw).
Proof.
  intros Hsize Hiv Hoff Hws Hlen Hsince.
  destruct rw as [sz [bs n] iv off ign lt]. simpl in *. subst sz iv off n.
  destruct bs as [|b0 [|b1 [|b2 [|? ?]]]]; try discriminate. clear Hlen.
  assert (Hspan : RollingWindow_span now
                    {| size := 3; win := mkWindow [b0; b1; b2] 3;
                       interval := 10; offset := 0; ignoreCurrent := ign;
                       lastTime := lt |}
                  = (Ok 2,
                     {| size := 3; win := mkWindow [b0; b1; b2] 3;
                        interval := 10; offset := 0; ignoreCurrent := ign;
                        lastTime := lt |})).
  { unfold RollingWindow_span, bind, get, div64. simpl.
    rewrite Hsince. reflexivity. }
  split; [exact Hspan|].
  exists b0. split; [reflexivity|].
  intros A fn acc. unfold RollingWindow_Reduce.
  rewrite (bind_run_ok _ _ _ _ _ Hspan).
  rewrite (bind_run_ok get _ _ _ _ eq_refl). cbn [size offset ignoreCurrent].
  change (2 =? 0) with false. cbn [andb].
  change (sub64 3 2) with 1. change (0 <? 1) with true. cbv iota.
  change (add64 (add64 0 2) 1) with 3.
  rewrite (bind_run_ok (rem64 3 3) _ _ 0 _ eq_refl).
  unfold on_win, zoom. cbn [win].
  rewrite window_reduce_body. change (Z.to_nat 1) with 1%nat.
  cbn [for_loop].
  rewrite (bind_run_ok _ _ _ _ _
             (reduce_body_ok fn 0 0 acc (mkWindow [b0; b1; b2] 3) b0
                ltac:(discriminate) ltac:(discriminate) eq_refl)).
  reflexivity.
Qed.

Lemma rotation_size3_elapsed25_witness :
  let rw := {| size := 3; win := mkWindow [mkBucket 4 5; mkBucket 1 2; mkBucket 0 1] 3;
               interval := 10; offset := 0; ignoreCurrent := false;
               lastTime := 100 |} in
  RollingWindow_span 125 rw = (Ok 2, rw)
  /\ fst (RollingWindow_Reduce breaker.history_fn (0, 0) 125 rw) = Ok (4, 5).
Proof.
  intros rw.
  destruct (rotation_size3_elapsed25 rw 125 eq_refl eq_refl eq_refl eq_refl
              eq_refl eq_refl) as (Hspan & b & Hb & Hred).
  split; [exact Hspan|].
  rewrite Hred. inversion Hb. reflexivity.
Defined.

Lemma quot_no_wrap e iv :
  int64_min <= e <= int64_max -> 0 <= e -> 0 < iv ->
  wrap64 (Z.quot e iv) = e / iv /\ 0 <= e / iv <= e.
Proof.
  intros He Hpos Hiv. rewrite Z.quot_div_nonneg by lia.
  pose proof (Z.div_pos e iv Hpos Hiv).
  assert (e / iv <= e) by (apply Z.div_le_upper_bound; nia).
  split; [|lia]. apply wrap64_small. unfold int64_min, int64_max in *. lia.
Qed.

Lemma span_val_elapsed rw now :
  0 < interval rw -> 0 <= timex.Since now (lastTime rw) ->
  span_val rw now
  = let q := timex.Since now (lastTime rw) / interval rw in
    if q <? size rw then q else size rw.
Proof.
  intros Hiv He. unfold span_val.
  destruct (quot_no_wrap (timex.Since now (lastTime rw)) (interval rw))
    as [-> Hq]; try assumption.
  { apply wrap64_range. }
  cbv zeta. destruct (0 <=? _) eqn:E; [reflexivity|zbool; lia].
Qed.

(** C4. The span is the floor of the elapsed time over the interval,
    taken as [size] when it is not below [size]; once [size * interval]
    has elapsed the span is [size], [Reduce] calls [fn] on no bucket,
    and [history] returns (0, 0). *)
Theorem stale_window_reads_nothing rw now :
  1 <= size rw -> 0 < interval rw ->
  0 <= timex.Since now (lastTime rw) ->
  RollingWindow_span now rw
  = (Ok (let q := timex.Since now (lastTime rw) / interval rw in
         if q <? size rw then q else size rw), rw)
  /\ (size rw * interval rw <= timex.Since now (lastTime rw) ->
      RollingWindow_span now rw = (Ok (size rw), rw)
      /\ (forall (A : Type) (fn : Bucket -> A -> Bucket * A) (acc : A),
            RollingWindow_Reduce fn acc now rw = (Ok acc, rw))
      /\ (forall b, breaker.stat b = rw ->
            breaker.googleBreaker_history now b = (Ok (0, 0), b))).
Proof.
  intros Hsize Hiv He.
  assert (Hrun : RollingWindow_span now rw = (Ok (span_val rw now), rw))
    by (apply span_run; lia).
  rewrite Hrun, span_val_elapsed by assumption.
  split; [reflexivity|]. intros Hstale.
  assert (Hq : size rw <= timex.Since now (lastTime rw) / interval rw)
    by (apply Z.div_le_lower_bound; lia).
  cbv zeta in *.
  destruct (_ <? size rw) eqn:E; [zbool; lia|]. clear E.
  assert (Hred : forall (A : Type) (fn : Bucket -> A -> Bucket * A) (acc : A),
             RollingWindow_Reduce fn acc now rw = (Ok acc, rw)).
  { intros A fn acc. unfold RollingWindow_Reduce.
    rewrite (bind_run_ok _ _ _ _ _ Hrun), span_val_elapsed by assumption.
    cbv zeta. destruct (_ <? size rw) eqn:E; [zbool; lia|]. clear E.
    rewrite (bind_run_ok get _ rw rw rw eq_refl).
    destruct (size rw =? 0) eqn:E; [zbool; lia|]. simpl.
    unfold sub64. rewrite Z.sub_diag. reflexivity. }
  split; [|split].
  - rewrite span_val_elapsed in Hrun by assumption. cbv zeta in Hrun.
    destruct (_ <? size rw) eqn:E in Hrun; [zbool; lia|]. reflexivity.
  - exact Hred.
  - intros b <-. unfold breaker.googleBreaker_history, breaker.on_stat, zoom.
    rewrite Hred. destruct b; reflexivity.
Qed.

Lemma stale_window_reads_nothing_witness :
  let rw := {| size := 3; win := mkWindow [mkBucket 4 5; mkBucket 1 2; mkBucket 0 1] 3;
               interval := 10; offset := 1; ignoreCurrent := false;
               lastTime := 100 |} in
  RollingWindow_span 130 rw = (Ok 3, rw)
  /\ breaker.googleBreaker_history 130 (breaker.mkGoogleBreaker breaker.k rw)
     = (Ok (0, 0), breaker.mkGoogleBreaker breaker.k rw).
Proof.
  intros rw.
  destruct (stale_window_reads_nothing rw 130) as [_ H].
  - simpl. lia.
  - simpl. lia.
  - vm_compute. discriminate.
  - destruct H as (H1 & _ & H3).
    + vm_compute. discriminate.
    + split; [exact H1|]. apply H3. reflexivity.
Defined.

End Rotation.

(** ** C1 and C5: the drop ratio *)

Section DropRatio.

Import breaker.

Local Open Scope Q_scope.

Lemma sub64_protection total :
  (0 <= total < int64_max)%Z -> sub64 total protection = (total - 5)%Z.
Proof.
  intros H. unfold sub64, protection. apply wrap64_small.
  unfold int64_min, int64_max in *. lia.
Qed.

Lemma add64_one total :
  (0 <= total < int64_max)%Z -> add64 total 1 = (total + 1)%Z.
Proof.
  intros H. unfold add64. apply wrap64_small.
  unfold int64_min, int64_max in *. lia.
Qed.

(** The quotient under the [max], on totals that do not overflow. *)
Lemma dropRatio_unfold kk accepts total :
  (0 <= total < int64_max)%Z ->
  dropRatio kk accepts total
  = Qmax 0 ((inject_Z (total - 5) - kk * inject_Z accepts)
            / inject_Z (total + 1)).
Proof.
  intros H. unfold dropRatio, float64_of_int.
  rewrite sub64_protection, add64_one by assumption. reflexivity.
Qed.

Lemma inject_Z_pos n : (0 <= n)%Z -> 0 < inject_Z (n + 1).
Proof. intros H. unfold Qlt. simpl. lia. Qed.

Lemma dropRatio_spec accepts total :
  (0 <= total < int64_max)%Z ->
  dropRatio k accepts total == spec_dropRatio k protection accepts total.
Proof.
  intros H. rewrite dropRatio_unfold by assumption. unfold spec_dropRatio.
  apply Q.max_compat; [reflexivity|].
  unfold protection, Z.sub.
  rewrite !inject_Z_plus, inject_Z_opp. reflexivity.
Qed.

Lemma dropRatio_accepts_antitone accepts accepts' total :
  (0 <= total < int64_max)%Z -> (accepts <= accepts')%Z ->
  dropRatio k accepts' total <= dropRatio k accepts total.
Proof.
  intros Ht Ha. rewrite !dropRatio_unfold by assumption.
  apply Q.max_le_compat_l.
  pose proof (inject_Z_pos total ltac:(lia)) as Hd.
  apply Qle_shift_div_l; [assumption|].
  unfold Qdiv. rewrite <- Qmult_assoc, (Qmult_comm (/ _)), Qmult_inv_r, Qmult_1_r
    by (intros E; rewrite E in Hd; discriminate).
  assert (inject_Z accepts <= inject_Z accepts') by (rewrite <- Zle_Qle; assumption).
  unfold k. lra.
Qed.

Lemma dropRatio_total_monotone accepts total total' :
  (0 <= accepts)%Z -> (0 <= total <= total')%Z -> (total' < int64_max)%Z ->
  dropRatio k accepts total <= dropRatio k accepts total'.
Proof.
  intros Ha Ht Ht'. rewrite !dropRatio_unfold by lia.
  apply Q.max_le_compat_l.
  pose proof (inject_Z_pos total ltac:(lia)) as Hd.
  pose proof (inject_Z_pos total' ltac:(lia)) as Hd'.
  apply Qle_shift_div_l; [assumption|].
  unfold Qdiv. rewrite <- Qmult_assoc, (Qmult_comm (/ _)), Qmult_assoc.
  apply Qle_shift_div_r; [assumption|].
  unfold Z.sub. rewrite !inject_Z_plus, !inject_Z_opp.
  assert (H0 : 0 <= inject_Z accepts) by (change 0 with (inject_Z 0); rewrite <- Zle_Qle; assumption).
  assert (H1 : inject_Z total <= inject_Z total') by (rewrite <- Zle_Qle; lia).
  assert (H2 : 0 <= inject_Z total) by (change 0 with (inject_Z 0); rewrite <- Zle_Qle; lia).
  set (x := inject_Z total) in *. set (x' := inject_Z total') in *.
  set (y := inject_Z accepts) in *.
  change (inject_Z 5) with 5. change (inject_Z 1) with 1. unfold k.
  nra.
Qed.


(** C1. For the pair [history] returns, [accept] computes
    [max(0, (total - 5 - 1.5 * accepts) / (total + 1))] and admits
    without looking at the random draw when that ratio is not positive;
    for accepts = 50 and total = 100 the ratio is 20/101.  The total is
    below the largest int64, so that [total + 1] does not overflow. *)
Theorem accept_computes_drop_ratio b now accepts total :
  gb_k b = k ->
  fst (googleBreaker_history now b) = Ok (accepts, total) ->
  (0 <= total < int64_max)%Z ->
  dropRatio k accepts total == spec_dropRatio (3 # 2) 5 accepts total
  /\ (forall draw,
        googleBreaker_accept now draw b
        = (Ok (if Qle_bool (dropRatio k accepts total) 0 then None
               else if TrueOnProba draw (dropRatio k accepts total)
                    then Some ErrServiceUnavailable
                    else None),
           b))
  /\ (dropRatio k accepts total <= 0 ->
      forall draw, googleBreaker_accept now draw b = (Ok None, b))
  /\ dropRatio k 50 100 == 20 # 101.
Proof.
  intros Hk Hh Ht. split; [apply dropRatio_spec; assumption|].
  split; [|split].
  - intros draw. rewrite (accept_run now draw b accepts total Hh), Hk.
    reflexivity.
  - intros Hle draw. rewrite (accept_run now draw b accepts total Hh), Hk.
    apply Qle_bool_iff in Hle. rewrite Hle. reflexivity.
  - reflexivity.
Qed.

Lemma accept_computes_drop_ratio_witness :
  let b :=
    {| gb_k := k;
       stat := {| collection.size := 2;
                  collection.win :=
                    collection.mkWindow
                      [collection.mkBucket 3 10; collection.mkBucket 4 10] 2;
                  collection.interval := 10; collection.offset := 1;
                  collection.ignoreCurrent := false;
                  collection.lastTime := 100 |} |} in
  dropRatio k 7 20 == spec_dropRatio (3 # 2) 5 7 20
  /\ googleBreaker_accept 101 (1 # 10) b = (Ok (Some ErrServiceUnavailable), b)
  /\ googleBreaker_accept 101 (1 # 2) b = (Ok None, b).
Proof.
  intros b.
  destruct (accept_computes_drop_ratio b 101 7 20) as (H1 & H2 & _).
  - reflexivity.
  - reflexivity.
  - unfold int64_max. lia.
  - split; [exact H1|]. split; [apply (H2 (1 # 10))|apply (H2 (1 # 2))].
Defined.

(** C5. The drop ratio does not increase when accepts grows and does not
    decrease when total grows (accepts non-negative), on totals below
    the largest int64. *)
Theorem dropRatio_monotone :
  (forall total accepts accepts',
      (0 <= total < int64_max)%Z -> (accepts <= accepts')%Z ->
      dropRatio k accepts' total <= dropRatio k accepts total)
  /\ (forall accepts total total',
        (0 <= accepts)%Z -> (0 <= total <= total')%Z ->
        (total' < int64_max)%Z ->
        dropRatio k accepts total <= dropRatio k accepts total').
Proof.
  split.
  - intros. apply dropRatio_accepts_antitone; assumption.
  - intros. apply dropRatio_total_monotone; assumption.
Qed.

Lemma dropRatio_monotone_witness :
  dropRatio k 60 100 <= dropRatio k 50 100
  /\ dropRatio k 50 100 <= dropRatio k 50 200.
Proof.
  split.
  - apply (proj1 dropRatio_monotone 100%Z 50%Z 60%Z);
      unfold int64_max; lia.
  - apply (proj2 dropRatio_monotone 50%Z 100%Z 200%Z);
      unfold int64_max; lia.
Defined.

End DropRatio.

(** ** C9: reading the statistics does not write them *)

Section Frame.

Import breaker.

Lemma on_brk_accept ta draw w :
  on_brk (googleBreaker_accept ta draw) w
  = (fst (googleBreaker_accept ta draw (brk w)), w).
Proof.
  unfold on_brk, zoom. pose proof (accept_unchanged ta draw (brk w)) as H.
  destruct (googleBreaker_accept ta draw (brk w)) as [r b']. simpl in *.
  subst b'. destruct w; reflexivity.
Qed.

(** A rejected [doReq]: the fallback, when there is one, decides the
    result; the breaker is as before. *)
Lemma doReq_rejected req fallback acceptable ta draw t1 t2 t3 t4 w e :
  fst (googleBreaker_accept ta draw (brk w)) = Ok (Some e) ->
  googleBreaker_doReq req fallback acceptable ta draw t1 t2 t3 t4 w
  = match fallback with
    | Some fb =>
        (fb (Some e),
         {| brk := brk w; calls := calls w ++ [CallFallback (Some e)] |})
    | None => (Ok (Some e), w)
    end.
Proof.
  intros H. unfold googleBreaker_doReq.
  erewrite bind_run_ok by (rewrite on_brk_accept, H; reflexivity).
  destruct fallback as [fb|]; reflexivity.
Qed.

(** C9. [accept], [history] and [Reduce] (with a callback that only
    reads its bucket, as the closure of [history] does) leave the window
    as it was: a rejected call records nothing, and any number of
    [Reduce] calls at one clock reading return the same aggregate and
    change no bucket, offset or lastTime. *)
Theorem reads_leave_window_unchanged :
  (forall now draw b, snd (googleBreaker_accept now draw b) = b)
  /\ (forall now b, snd (googleBreaker_history now b) = b)
  /\ (forall (A : Type) (fn : collection.Bucket -> A -> collection.Bucket * A),
        read_only fn ->
        forall acc now rw,
          snd (collection.RollingWindow_Reduce fn acc now rw) = rw
          /\ forall n,
               Reduce_times n fn acc now rw
               = (repeat (fst (collection.RollingWindow_Reduce fn acc now rw)) n,
                  rw))
  /\ (forall req fallback acceptable ta draw t1 t2 t3 t4 w e,
        fst (googleBreaker_accept ta draw (brk w)) = Ok (Some e) ->
        brk (snd (googleBreaker_doReq req fallback acceptable
                    ta draw t1 t2 t3 t4 w))
        = brk w).
Proof.
  split; [exact accept_unchanged|]. split; [exact history_unchanged|]. split.
  - intros A fn Hro acc now rw. split.
    + apply Reduce_unchanged, Hro.
    + intros n. apply Reduce_times_unchanged, Hro.
  - intros req fallback acceptable ta draw t1 t2 t3 t4 w e H.
    rewrite (doReq_rejected _ _ _ _ _ _ _ _ _ _ e H).
    destruct fallback; reflexivity.
Qed.

Lemma reads_leave_window_unchanged_witness :
  let rw := {| collection.size := 2;
               collection.win :=
                 collection.mkWindow
                   [collection.mkBucket 3 10; collection.mkBucket 4 10] 2;
               collection.interval := 10; collection.offset := 1;
               collection.ignoreCurrent := false;
               collection.lastTime := 100 |} in
  let w := {| brk := {| gb_k := k; stat := rw |}; calls := [] |} in
  Reduce_times 3 history_fn (0, 0) 101 rw
  = ([Ok (7, 20); Ok (7, 20); Ok (7, 20)], rw)
  /\ brk (snd (googleBreaker_doReq (Ok None) None (fun _ => Ok true)
                 101 (1 # 10) 102 103 104 105 w))
     = brk w.
Proof.
  intros rw w.
  destruct reads_leave_window_unchanged as (_ & _ & HR & HD). split.
  - destruct (HR _ history_fn history_fn_read_only (0, 0) 101 rw) as [_ H].
    exact (H 3%nat).
  - apply (HD _ _ _ _ _ _ _ _ _ _ ErrServiceUnavailable). reflexivity.
Defined.

End Frame.

(** ** C2: no recorded attempt, no rejection *)

Section NoTraffic.

Import breaker.

Local Open Scope Q_scope.

Lemma dropRatio_no_traffic accepts :
  (0 <= accepts)%Z -> dropRatio k accepts 0 == 0.
Proof.
  intros Ha. unfold dropRatio, float64_of_int.
  change (sub64 0 protection) with (-5)%Z. change (add64 0 1) with 1%Z.
  apply Q.max_l.
  assert (H0 : 0 <= inject_Z accepts)
    by (change 0 with (inject_Z 0); rewrite <- Zle_Qle; assumption).
  unfold Qdiv. change (/ inject_Z 1) with 1. rewrite Qmult_1_r.
  change (inject_Z (-5)) with (-5 # 1). unfold k. lra.
Qed.

(** C2. In every state a breaker can reach (by fewer recorded outcomes
    than make 40 buckets overflow an int64), when [history] returns a
    total of 0 the drop ratio is 0 and [accept] returns nil whatever the
    random draw: the rejection branch is not taken. *)
Theorem no_traffic_admits n b now accepts :
  reachable n b ->
  (Z.of_nat n * buckets <= int64_max)%Z ->
  fst (googleBreaker_history now b) = Ok (accepts, 0%Z) ->
  dropRatio k accepts 0 == 0
  /\ forall draw, googleBreaker_accept now draw b = (Ok None, b).
Proof.
  intros Hreach Hn Hh. pose proof (reachable_ok n b Hreach) as Hok.
  assert (Ha : (0 <= accepts)%Z).
  { rewrite (history_run _ now b Hok) in Hh. simpl in Hh.
    pose proof (visited_length (stat b) now (bk_rw _ _ Hok)) as Hlen.
    rewrite (bk_size _ _ Hok) in Hlen.
    pose proof (history_accepts_bounds (Z.of_nat n)
                  (collection.buckets (collection.win (stat b)))
                  (visited (stat b) now) ltac:(lia) (bk_sums _ _ Hok)
                  0%Z 0%Z ltac:(lia)) as Hb.
    inversion Hh as [Hacc]. rewrite Hacc in Hb. simpl in Hb.
    apply Hb. unfold buckets in *. nia. }
  pose proof (dropRatio_no_traffic accepts Ha) as Hd.
  split; [exact Hd|]. intros draw.
  rewrite (accept_run now draw b accepts 0%Z Hh), (bk_k _ _ Hok).
  assert (Hle : Qle_bool (dropRatio k accepts 0) 0 = true)
    by (apply Qle_bool_iff; rewrite Hd; apply Qle_refl).
  rewrite Hle. reflexivity.
Qed.

Lemma no_traffic_admits_witness :
  let b := {| gb_k := k;
              stat := {| collection.size := 40;
                         collection.win := collection.newWindow 40;
                         collection.interval := 250000000;
                         collection.offset := 0;
                         collection.ignoreCurrent := false;
                         collection.lastTime := 1000 |} |} in
  dropRatio k 0 0 == 0
  /\ googleBreaker_accept 2000 (0 # 1) b = (Ok None, b).
Proof.
  intros b.
  destruct (no_traffic_admits 0 b 2000 0%Z) as [H1 H2].
  - apply (reach_new 1000). reflexivity.
  - unfold int64_max, buckets. simpl. lia.
  - reflexivity.
  - split; [exact H1|apply H2].
Defined.

End NoTraffic.

(** ** C7 and C8: the accounting of [doReq] *)

Section DoReq.

Import breaker.

(** [history] after one more outcome in the current bucket. *)
Lemma history_after_mark n c t1 t2 b :
  brk_ok n b -> 0 <= n -> 0 <= c <= 1 ->
  in_current_bucket (stat b) t1 ->
  forall t t' accepts total,
    in_current_bucket (stat b) t -> in_current_bucket (stat b) t' ->
    fst (googleBreaker_history t b) = Ok (accepts, total) ->
    fst (googleBreaker_history t'
           (snd (on_stat (collection.RollingWindow_Add (inject_Z c) t1 t2) b)))
    = Ok (if c =? 0 then accepts else add64 accepts 1, add64 total 1).
Proof.
  intros Hok Hn Hc Ht1 t t' accepts total Ht Ht' Hh.
  pose proof Hok as [Hk Hrw Hsz Hiv Hig Hsums].
  pose proof Hrw as [Hsize Hwsize Hlen Hoff].
  assert (Hspan : span_val (stat b) t1 = 0)
    by (apply in_current_span; [lia|assumption]).
  destruct (mark_ok n c t1 t2 b Hn Hc Hok)
    as (bs & bk & _ & Hsame & Hbk & Hrun & Hok').
  specialize (Hsame ltac:(lia)). subst bs.
  unfold next_offset, next_lastTime in *. rewrite Hspan in *.
  change (0 <=? 0) with true in *. cbv iota in *.
  rewrite Hrun in *. cbn [snd] in *.
  rewrite (history_run _ t b Hok) in Hh. cbn [fst] in Hh.
  rewrite (history_run _ t' _ Hok'). cbn [fst stat collection.win collection.buckets].
  rewrite visited_current in Hh by assumption.
  rewrite visited_current
    by (first [exact (bk_rw _ _ Hok') | assumption]).
  cbn [collection.offset collection.size].
  rewrite Forall_lookup in Hsums. destruct (Hsums _ _ Hbk) as (m & Hm & Hr).
  destruct (history_fold_after_add
              (collection.buckets (collection.win (stat b)))
              (collection.offset (stat b)) (collection.size (stat b))
              bk m c Hoff Hlen Hbk Hm) as (a & tt0 & Hbefore & Hafter).
  rewrite Hafter. rewrite Hbefore in Hh. inversion Hh; subst accepts total.
  f_equal. f_equal.
  - destruct (c =? 0) eqn:E; zbool.
    + subst c. rewrite Z.add_0_r. reflexivity.
    + assert (c = 1) by lia. subst c. unfold add64.
      rewrite wrap64_add_r, wrap64_add_l.
      replace (a + wrap64 m + 1) with ((a + 1) + wrap64 m) by lia.
      rewrite wrap64_add_r. f_equal. lia.
  - apply add64_shift.
Qed.

Lemma doReq_returned req_err (ok : bool) fallback acceptable ta draw
    t1 t2 t3 t4 w b' :
  fst (googleBreaker_accept ta draw (brk w)) = Ok None ->
  acceptable req_err = Ok ok ->
  (if ok then googleBreaker_markSuccess t1 t2 else googleBreaker_markFailure t1 t2)
    (brk w) = (Ok tt, b') ->
  googleBreaker_doReq (Ok req_err) fallback acceptable ta draw t1 t2 t3 t4 w
  = (Ok req_err,
     {| brk := b'; calls := calls w ++ [CallReq; CallAcceptable req_err] |}).
Proof.
  intros Hacc Hok Hmark. unfold googleBreaker_doReq.
  erewrite bind_run_ok by (rewrite on_brk_accept, Hacc; reflexivity).
  unfold defer_recover, bind, invoke. cbn [brk calls]. rewrite Hok.
  destruct ok; unfold on_brk, zoom; cbn [brk]; rewrite Hmark;
    unfold ret, set_brk; cbn [calls]; rewrite <- app_assoc; reflexivity.
Qed.

Lemma doReq_panicked f fallback acceptable ta draw t1 t2 t3 t4 w b' :
  fst (googleBreaker_accept ta draw (brk w)) = Ok None ->
  googleBreaker_markFailure t3 t4 (brk w) = (Ok tt, b') ->
  googleBreaker_doReq (Panic f) fallback acceptable ta draw t1 t2 t3 t4 w
  = (Panic f, {| brk := b'; calls := calls w ++ [CallReq] |}).
Proof.
  intros Hacc Hmark. unfold googleBreaker_doReq.
  erewrite bind_run_ok by (rewrite on_brk_accept, Hacc; reflexivity).
  unfold defer_recover, bind, invoke. cbn [brk calls].
  unfold on_brk, zoom. cbn [brk]. rewrite Hmark. reflexivity.
Qed.

(** After admission the only callbacks [doReq] invokes are the request
    and [acceptable], whatever they do. *)
Lemma doReq_admitted_calls req fallback acceptable ta draw t1 t2 t3 t4 w :
  fst (googleBreaker_accept ta draw (brk w)) = Ok None ->
  exists l,
    calls (snd (googleBreaker_doReq req fallback acceptable
                  ta draw t1 t2 t3 t4 w))
    = calls w ++ l
    /\ Forall (fun c => forall e, c <> CallFallback e) l.
Proof.
  intros Hacc. unfold googleBreaker_doReq.
  erewrite bind_run_ok by (rewrite on_brk_accept, Hacc; reflexivity).
  unfold defer_recover, bind, invoke, on_brk, zoom, panic, ret.
  destruct req as [e|f]; [destruct (acceptable e) as [[|]|f']|];
    repeat (cbn [brk calls set_brk fst snd];
            match goal with
            | |- context [googleBreaker_markSuccess ?a ?b ?x] =>
                destruct (googleBreaker_markSuccess a b x) as [[[]|?] ?]
            | |- context [googleBreaker_markFailure ?a ?b ?x] =>
                destruct (googleBreaker_markFailure a b x) as [[[]|?] ?]
            end);
    cbn [brk calls set_brk fst snd]; rewrite <- ?app_assoc;
    eexists; (split; [reflexivity|]); repeat constructor; discriminate.
Qed.

(** C7. When the request panics after admission, [doReq] calls neither
    [acceptable] nor the fallback, records one failure (one [Add(0)]:
    while the clock stays in the current bucket, [history] shows the same
    accepts and one more total) and panics with the same value. *)
Theorem doReq_panic_marks_failure n w f fallback acceptable
    ta draw t1 t2 t3 t4 :
  reachable n (brk w) ->
  fst (googleBreaker_accept ta draw (brk w)) = Ok None ->
  let out :=
    googleBreaker_doReq (Panic f) fallback acceptable ta draw t1 t2 t3 t4 w in
  fst out = Panic f
  /\ calls (snd out) = calls w ++ [CallReq]
  /\ googleBreaker_markFailure t3 t4 (brk w) = (Ok tt, brk (snd out))
  /\ (in_current_bucket (stat (brk w)) t3 ->
      forall t t' accepts total,
        in_current_bucket (stat (brk w)) t ->
        in_current_bucket (stat (brk w)) t' ->
        fst (googleBreaker_history t (brk w)) = Ok (accepts, total) ->
        fst (googleBreaker_history t' (brk (snd out)))
        = Ok (accepts, add64 total 1)).
Proof.
  intros Hreach Hacc out. pose proof (reachable_ok _ _ Hreach) as Hok.
  destruct (mark_ok (Z.of_nat n) 0 t3 t4 (brk w) ltac:(lia) ltac:(lia) Hok)
    as (bs & bk & _ & _ & _ & Hrun & _).
  assert (Hmark : googleBreaker_markFailure t3 t4 (brk w)
                  = (Ok tt, snd (googleBreaker_markFailure t3 t4 (brk w)))).
  { unfold googleBreaker_markFailure. change (0%Q) with (inject_Z 0).
    rewrite Hrun. reflexivity. }
  subst out. rewrite (doReq_panicked f _ _ _ _ _ _ _ _ _ _ Hacc Hmark).
  cbn [fst snd brk calls].
  split; [reflexivity|]. split; [reflexivity|]. split; [exact Hmark|].
  intros Ht3 t t' accepts total Ht Ht' Hh.
  apply (history_after_mark (Z.of_nat n) 0 t3 t4 (brk w) Hok ltac:(lia)
           ltac:(lia) Ht3 t t' accepts total Ht Ht' Hh).
Qed.

Lemma doReq_panic_marks_failure_witness :
  let w := {| brk := {| gb_k := k;
                        stat := {| collection.size := 40;
                                   collection.win := collection.newWindow 40;
                                   collection.interval := 250000000;
                                   collection.offset := 0;
                                   collection.ignoreCurrent := false;
                                   collection.lastTime := 1000 |} |};
              calls := [] |} in
  fst (googleBreaker_doReq (Panic (PanicValue "boom")) None (fun _ => Ok true)
         1001 (1 # 2) 1002 1003 1004 1005 w)
  = Panic (PanicValue "boom")
  /\ calls (snd (googleBreaker_doReq (Panic (PanicValue "boom")) None
                   (fun _ => Ok true) 1001 (1 # 2) 1002 1003 1004 1005 w))
     = calls w ++ [CallReq]
  /\ fst (googleBreaker_history 1006
            (brk (snd (googleBreaker_doReq (Panic (PanicValue "boom")) None
                         (fun _ => Ok true)
                         1001 (1 # 2) 1002 1003 1004 1005 w))))
     = Ok (0, add64 0 1).
Proof.
  intros w.
  assert (Hreach : reachable 0 (brk w)) by (apply (reach_new 1000); reflexivity).
  assert (Hacc : fst (googleBreaker_accept 1001 (1 # 2) (brk w)) = Ok None)
    by reflexivity.
  assert (C4 : in_current_bucket (stat (brk w)) 1004)
    by (split; [apply Z.leb_le|apply Z.ltb_lt]; reflexivity).
  assert (C1 : in_current_bucket (stat (brk w)) 1001)
    by (split; [apply Z.leb_le|apply Z.ltb_lt]; reflexivity).
  assert (C6 : in_current_bucket (stat (brk w)) 1006)
    by (split; [apply Z.leb_le|apply Z.ltb_lt]; reflexivity).
  assert (Hh : fst (googleBreaker_history 1001 (brk w)) = Ok (0, 0))
    by reflexivity.
  destruct (doReq_panic_marks_failure 0 w (PanicValue "boom") None
              (fun _ => Ok true) 1001 (1 # 2) 1002 1003 1004 1005
              Hreach Hacc) as (H1 & H2 & _ & H4).
  split; [exact H1|]. split; [exact H2|].
  exact (H4 C4 1001 1006 0 0 C1 C6 Hh).
Defined.

(** C8. When the request returns [e] after admission, [doReq] asks
    [acceptable], never the fallback, records one success ([Add(1)])
    if [e] is acceptable and one failure ([Add(0)]) if not, and returns
    [e]; while the clock stays in the current bucket, [history] then
    shows one more total, and one more accept for a success.  After
    admission no request and no [acceptable] makes [doReq] call the
    fallback: it is called on rejection only. *)
Theorem doReq_marks_and_returns n w e (ok : bool) fallback acceptable
    ta draw t1 t2 t3 t4 :
  reachable n (brk w) ->
  fst (googleBreaker_accept ta draw (brk w)) = Ok None ->
  acceptable e = Ok ok ->
  let out :=
    googleBreaker_doReq (Ok e) fallback acceptable ta draw t1 t2 t3 t4 w in
  fst out = Ok e
  /\ calls (snd out) = calls w ++ [CallReq; CallAcceptable e]
  /\ (if ok then googleBreaker_markSuccess t1 t2
      else googleBreaker_markFailure t1 t2) (brk w)
     = (Ok tt, brk (snd out))
  /\ (in_current_bucket (stat (brk w)) t1 ->
      forall t t' accepts total,
        in_current_bucket (stat (brk w)) t ->
        in_current_bucket (stat (brk w)) t' ->
        fst (googleBreaker_history t (brk w)) = Ok (accepts, total) ->
        fst (googleBreaker_history t' (brk (snd out)))
        = Ok (if ok then add64 accepts 1 else accepts, add64 total 1))
  /\ (forall req' fallback' acceptable',
        exists l,
          calls (snd (googleBreaker_doReq req' fallback' acceptable'
                        ta draw t1 t2 t3 t4 w))
          = calls w ++ l
          /\ Forall (fun c => forall e', c <> CallFallback e') l).
Proof.
  intros Hreach Hacc Hok out. pose proof (reachable_ok _ _ Hreach) as Hinv.
  set (c := if ok then 1 else 0).
  assert (Hc : 0 <= c <= 1) by (subst c; destruct ok; lia).
  destruct (mark_ok (Z.of_nat n) c t1 t2 (brk w) ltac:(lia) Hc Hinv)
    as (bs & bk & _ & _ & _ & Hrun & _).
  assert (Hmark : (if ok then googleBreaker_markSuccess t1 t2
                   else googleBreaker_markFailure t1 t2) (brk w)
                  = (Ok tt,
                     snd (on_stat (collection.RollingWindow_Add (inject_Z c)
                                     t1 t2) (brk w))))
    by (rewrite Hrun; subst c; destruct ok; exact Hrun).
  assert (Hcalls : forall req' fallback' acceptable',
             exists l,
               calls (snd (googleBreaker_doReq req' fallback' acceptable'
                             ta draw t1 t2 t3 t4 w))
               = calls w ++ l
               /\ Forall (fun c => forall e', c <> CallFallback e') l)
    by (intros; apply doReq_admitted_calls, Hacc).
  subst out. rewrite (doReq_returned e ok _ _ _ _ _ _ _ _ _ _ Hacc Hok Hmark).
  cbn [fst snd brk calls].
  split; [reflexivity|]. split; [reflexivity|]. split; [exact Hmark|].
  split; [|exact Hcalls].
  intros Ht1 t t' accepts total Ht Ht' Hh.
  rewrite (history_after_mark (Z.of_nat n) c t1 t2 (brk w) Hinv ltac:(lia)
             Hc Ht1 t t' accepts total Ht Ht' Hh).
  subst c. destruct ok; reflexivity.
Qed.

Lemma doReq_marks_and_returns_witness :
  let w := {| brk := {| gb_k := k;
                        stat := {| collection.size := 40;
                                   collection.win := collection.newWindow 40;
                                   collection.interval := 250000000;
                                   collection.offset := 0;
                                   collection.ignoreCurrent := false;
                                   collection.lastTime := 1000 |} |};
              calls := [] |} in
  fst (googleBreaker_doReq (Ok None) None (fun _ => Ok true)
         1001 (1 # 2) 1002 1003 1004 1005 w)
  = Ok None
  /\ calls (snd (googleBreaker_doReq (Ok None) None (fun _ => Ok true)
                   1001 (1 # 2) 1002 1003 1004 1005 w))
     = calls w ++ [CallReq; CallAcceptable None]
  /\ fst (googleBreaker_history 1006
            (brk (snd (googleBreaker_doReq (Ok None) None (fun _ => Ok true)
                         1001 (1 # 2) 1002 1003 1004 1005 w))))
     = Ok (add64 0 1, add64 0 1).
Proof.
  intros w.
  assert (Hreach : reachable 0 (brk w)) by (apply (reach_new 1000); reflexivity).
  assert (Hacc : fst (googleBreaker_accept 1001 (1 # 2) (brk w)) = Ok None)
    by reflexivity.
  assert (C2 : in_current_bucket (stat (brk w)) 1002)
    by (split; [apply Z.leb_le|apply Z.ltb_lt]; reflexivity).
  assert (C1 : in_current_bucket (stat (brk w)) 1001)
    by (split; [apply Z.leb_le|apply Z.ltb_lt]; reflexivity).
  assert (C6 : in_current_bucket (stat (brk w)) 1006)
    by (split; [apply Z.leb_le|apply Z.ltb_lt]; reflexivity).
  assert (Hh : fst (googleBreaker_history 1001 (brk w)) = Ok (0, 0))
    by reflexivity.
  destruct (doReq_marks_and_returns 0 w None true None
              (fun _ => Ok true) 1001 (1 # 2) 1002 1003 1004 1005
              Hreach Hacc eq_refl) as (H1 & H2 & _ & H4 & _).
  split; [exact H1|]. split; [exact H2|].
  exact (H4 C2 1001 1006 0 0 C1 C6 Hh).
Defined.

End DoReq.

(** ** C10: the offsets of the bloom filter *)

Section Bloom.

Import bloom.

Variable Hash : list Byte.byte -> Z.
Variable Eval : script -> list string -> list string -> option Z * error.

Lemma getLocations_run f data :
  bits f <> 0 ->
  Filter_getLocations Hash f data = Ok (locations_of Hash (bits f) data).
Proof.
  intros Hb. unfold Filter_getLocations.
  destruct (bits f =? 0) eqn:E; [zbool; lia|].
  reflexivity.
Qed.

Lemma locations_in_range bits data :
  0 < bits ->
  length (locations_of Hash bits data) = 14%nat
  /\ Forall (fun o => 0 <= o < bits) (locations_of Hash bits data).
Proof.
  intros Hb. unfold locations_of. split; [reflexivity|].
  apply Forall_map, Forall_forall. intros i _. simpl.
  apply Z.mod_pos_bound, Hb.
Qed.

Lemma buildOffsetArgs_loop_ok r offsets args :
  Forall (fun o => o < rbits r) offsets ->
  buildOffsetArgs_loop r offsets args
  = (args ++ map FormatUint offsets, None).
Proof.
  intros H. revert args.
  induction H as [|o offsets Ho _ IH]; intros args; simpl.
  - rewrite app_nil_r. reflexivity.
  - destruct (rbits r <=? o) eqn:E; [zbool; lia|].
    rewrite IH, <- app_assoc. reflexivity.
Qed.

(** C10. For a filter made by [New] with [bits > 0], [getLocations]
    returns 14 offsets, each a hash value modulo [bits] and so below
    [bits]; [buildOffsetArgs] accepts them, and [Add] and [Exists]
    return what the store's [Eval] answers, never through the
    [ErrTooLargeOffset] branch. *)
Theorem bloom_offsets_in_range key nbits data :
  0 < nbits ->
  let f := New key nbits in
  let locations := locations_of Hash nbits data in
  Filter_getLocations Hash f data = Ok locations
  /\ length locations = Z.to_nat maps
  /\ Forall (fun o => 0 <= o < nbits) locations
  /\ redisBitSet_buildOffsetArgs (bitSet f) locations
     = (map FormatUint locations, None)
  /\ Filter_Add Hash Eval f data
     = Ok (match snd (Eval setScript [key] (map FormatUint locations)) with
           | Some redis_Nil => None
           | e => e
           end)
  /\ Filter_Exists Hash Eval f data
     = Ok (match Eval testScript [key] (map FormatUint locations) with
           | (_, Some redis_Nil) => (false, None)
           | (_, Some e) => (false, Some e)
           | (Some exists_, None) => (exists_ =? 1, None)
           | (None, None) => (false, None)
           end).
Proof.
  intros Hb f locations.
  assert (Hrun : Filter_getLocations Hash f data = Ok locations)
    by (apply getLocations_run; simpl; lia).
  destruct (locations_in_range nbits data Hb) as [Hlen Hall].
  assert (Hargs : redisBitSet_buildOffsetArgs (bitSet f) locations
                  = (map FormatUint locations, None)).
  { unfold redisBitSet_buildOffsetArgs.
    rewrite buildOffsetArgs_loop_ok; [reflexivity|].
    eapply Forall_impl; [exact Hall|]. simpl. intros; lia. }
  repeat split; try assumption.
  - unfold Filter_Add. rewrite Hrun. unfold redisBitSet_set. rewrite Hargs.
    simpl. destruct (Eval setScript _ _) as [resp [[| |]|]]; reflexivity.
  - unfold Filter_Exists. rewrite Hrun. unfold redisBitSet_check.
    rewrite Hargs. simpl.
    destruct (Eval testScript _ _) as [[x|] [[| |]|]]; reflexivity.
Qed.

End Bloom.

Lemma bloom_offsets_in_range_witness :
  let Hash := fun l : list Byte.byte => 7 + 1000 * Z.of_nat (length l) in
  let Eval := fun (_ : bloom.script) (_ _ : list string) =>
                (Some 1, @None bloom.err) in
  bloom.Filter_getLocations Hash (bloom.New "k" 100) [Byte.x61]
  = Ok (locations_of Hash 100 [Byte.x61])
  /\ bloom.Filter_Add Hash Eval (bloom.New "k" 100) [Byte.x61] = Ok None.
Proof.
  intros Hash Eval.
  destruct (bloom_offsets_in_range Hash Eval "k" 100 [Byte.x61])
    as (H1 & _ & _ & _ & H2 & _); [lia|].
  split; [exact H1|exact H2].
Defined.

(** * Further properties of the code *)

(** ** Loops with an invariant that follows the counter *)

Section IndexedLoops.

Context {S A : Type}.

Lemma for_loop_indexed (P : Z -> S -> Prop) (body : Z -> A -> M S A) :
  forall n i a s,
    (forall j a' s', i <= j < i + Z.of_nat n -> P j s' ->
       exists a'' s'', body j a' s' = (Ok a'', s'') /\ P (j + 1) s'') ->
    P i s ->
    exists a' s',
      for_loop n i body a s = (Ok a', s') /\ P (i + Z.of_nat n) s'.
Proof.
  induction n as [|n IH]; intros i a s Hstep Hs.
  - exists a, s. split; [reflexivity|]. replace (i + Z.of_nat 0) with i by lia.
    assumption.
  - destruct (Hstep i a s ltac:(lia) Hs) as (a1 & s1 & E1 & H1).
    destruct (IH (i + 1) a1 s1) as (a2 & s2 & E2 & H2).
    + intros j a' s' Hj. apply Hstep. lia.
    + assumption.
    + exists a2, s2. split.
      * simpl. rewrite (bind_run_ok _ _ _ _ _ E1). exact E2.
      * replace (i + Z.of_nat (Datatypes.S n)) with (i + 1 + Z.of_nat n) by lia.
        assumption.
Qed.

End IndexedLoops.

(** ** The rolling window: what [Add] does to the buckets *)

Section WindowBuckets.

Import collection.

Lemma bucket_at_lookup bs j b :
  bs !! Z.to_nat j = Some b -> bucket_at bs j = b.
Proof. intros H. unfold bucket_at. rewrite H. reflexivity. Qed.

Lemma bucket_at_insert_eq bs j b :
  0 <= j < Z.of_nat (length bs) ->
  bucket_at (<[Z.to_nat j := b]> bs) j = b.
Proof.
  intros Hj. apply bucket_at_lookup. apply list_lookup_insert_eq. lia.
Qed.

Lemma bucket_at_insert_ne bs i j b :
  0 <= i -> 0 <= j -> i <> j ->
  bucket_at (<[Z.to_nat i := b]> bs) j = bucket_at bs j.
Proof.
  intros Hi Hj Hne. unfold bucket_at.
  rewrite list_lookup_insert_ne by lia. reflexivity.
Qed.

Lemma bucket_at_is_lookup bs j :
  0 <= j < Z.of_nat (length bs) ->
  bs !! Z.to_nat j = Some (bucket_at bs j).
Proof.
  intros Hj. destruct (lookup_lt_is_Some_2 bs (Z.to_nat j)) as [b Hb]; [lia|].
  rewrite (bucket_at_lookup _ _ _ Hb). assumption.
Qed.

(** An [Add] while the clock is in the current bucket. *)
Lemma Add_in_current v t1 t2 rw :
  rw_ok rw -> in_current_bucket rw t1 ->
  RollingWindow_Add v t1 t2 rw
  = (Ok tt,
     set_win
       (mkWindow
          (<[Z.to_nat (offset rw)
             := Bucket_add v (bucket_at (buckets (win rw)) (offset rw))]>
             (buckets (win rw)))
          (size rw))
       rw).
Proof.
  intros Hok Hin. pose proof Hok as [Hsize Hwsize Hlen Hoff].
  assert (Hi : interval rw <> 0) by (unfold in_current_bucket in Hin; lia).
  pose proof (in_current_span rw t1 ltac:(lia) Hin) as Hsp.
  destruct (Add_spec v t1 t2 rw Hok Hi) as (bs & b & _ & Hbs & Hb & ->).
  rewrite (Hbs ltac:(lia)) in *.
  unfold next_offset, next_lastTime in *. rewrite Hsp in *. simpl in *.
  rewrite (bucket_at_lookup _ _ _ Hb). reflexivity.
Qed.

Lemma run_adds_cons v t1 t2 adds rw :
  run_adds ((v, t1, t2) :: adds) rw
  = run_adds adds (snd (RollingWindow_Add v t1 t2 rw)).
Proof. reflexivity. Qed.

Lemma adds_in_current adds :
  forall rw,
    rw_ok rw ->
    Forall (fun a : Q * Z * Z => in_current_bucket rw (snd (fst a))) adds ->
    exists b',
      run_adds adds rw
      = set_win
          (mkWindow (<[Z.to_nat (offset rw) := b']> (buckets (win rw)))
                    (size rw))
          rw
      /\ (Sum b' == Sum (bucket_at (buckets (win rw)) (offset rw))
                    + sum_values adds)%Q
      /\ wrap64 (Count b')
         = wrap64 (Count (bucket_at (buckets (win rw)) (offset rw))
                   + Z.of_nat (length adds))
      /\ (int64_min <= Count (bucket_at (buckets (win rw)) (offset rw))
          <= int64_max ->
          int64_min <= Count b' <= int64_max).
Proof.
  induction adds as [|[[v t1] t2] adds IH]; intros rw Hok Hall;
    pose proof Hok as [Hsize Hwsize Hlen Hoff].
  - exists (bucket_at (buckets (win rw)) (offset rw)).
    split; [|split; [|split]].
    + unfold run_adds. simpl.
      rewrite list_insert_id by (apply bucket_at_is_lookup; lia).
      destruct rw as [sz [bs n] iv off ign lt]. simpl in *. subst n.
      reflexivity.
    + simpl. ring.
    + simpl. rewrite Z.add_0_r. reflexivity.
    + tauto.
  - inversion Hall as [|a l Hin Hrest]; subst. simpl in Hin.
    rewrite run_adds_cons, (Add_in_current v t1 t2 rw Hok Hin). simpl.
    set (b0 := bucket_at (buckets (win rw)) (offset rw)).
    set (rw1 := set_win _ rw).
    assert (Hok1 : rw_ok rw1).
    { constructor; simpl; try assumption; try reflexivity.
      rewrite length_insert. assumption. }
    destruct (IH rw1 Hok1) as (b' & E & Hsum & Hcnt & Hrng).
    { eapply Forall_impl; [exact Hrest|]. intros a Ha. exact Ha. }
    exists b'. simpl in E, Hsum, Hcnt, Hrng.
    rewrite bucket_at_insert_eq in Hsum, Hcnt, Hrng by lia.
    split; [|split; [|split]].
    + rewrite E. unfold rw1, set_win. simpl.
      rewrite list_insert_insert_eq. reflexivity.
    + rewrite Hsum. simpl. rewrite Qred_correct. ring.
    + rewrite Hcnt. simpl. unfold add64. rewrite wrap64_add_l.
      f_equal. lia.
    + intros _. apply Hrng. simpl. apply wrap64_range.
Qed.


Lemma expired_zero rw j : expired rw 0 j = false.
Proof. reflexivity. Qed.

Lemma expired_snoc rw n j :
  0 <= n ->
  expired rw (n + 1) j
  = expired rw n j || (Z.rem (offset rw + n + 1) (size rw) =? j).
Proof.
  intros Hn. unfold expired. rewrite seqZ_app by lia. rewrite existsb_app.
  f_equal. simpl. rewrite orb_false_r. reflexivity.
Qed.

Lemma expired_iff rw n j :
  expired rw n j = true
  <-> exists i, 0 <= i < n /\ Z.rem (offset rw + i + 1) (size rw) = j.
Proof.
  unfold expired. rewrite existsb_exists. split.
  - intros (i & Hi & E). apply list_elem_of_In, elem_of_seqZ in Hi.
    exists i. split; [lia|]. apply Z.eqb_eq. assumption.
  - intros (i & Hi & E). exists i. split.
    + apply list_elem_of_In, elem_of_seqZ. lia.
    + apply Z.eqb_eq. assumption.
Qed.

Lemma set_win_self rw :
  w_size (win rw) = size rw ->
  set_win (mkWindow (buckets (win rw)) (size rw)) rw = rw.
Proof.
  destruct rw as [sz [bs n] iv off ign lt]. simpl. intros ->. reflexivity.
Qed.

(** The reset loop of [updateOffset], run for [n] rounds. *)
Lemma reset_loop_run rw n :
  rw_ok rw -> 0 <= n <= size rw ->
  exists bs,
    for_loop (Z.to_nat n) 0
      (fun i (_ : unit) =>
         j <- rem64 (add64 (add64 (offset rw) i) 1) (size rw) ;;
         on_win (window_resetBucket j))
      tt rw
    = (Ok tt, set_win (mkWindow bs (size rw)) rw)
    /\ length bs = length (buckets (win rw))
    /\ forall j, 0 <= j < size rw ->
         bucket_at bs j
         = if expired rw n j then mkBucket 0 0
           else bucket_at (buckets (win rw)) j.
Proof.
  intros Hok Hn. pose proof Hok as [Hsize Hwsize Hlen Hoff].
  destruct (for_loop_indexed
              (fun i s =>
                 exists bs,
                   s = set_win (mkWindow bs (size rw)) rw
                   /\ length bs = length (buckets (win rw))
                   /\ forall j, 0 <= j < size rw ->
                        bucket_at bs j
                        = if expired rw i j then mkBucket 0 0
                          else bucket_at (buckets (win rw)) j)
              (fun i (_ : unit) =>
                 j <- rem64 (add64 (add64 (offset rw) i) 1) (size rw) ;;
                 on_win (window_resetBucket j))
              (Z.to_nat n) 0 tt rw)
    as ([] & s & Eloop & bs & -> & Hl & Hbs).
  - intros i [] s' Hi (bs & -> & Hl & Hbs).
    unfold bind, rem64.
    destruct (size rw =? 0) eqn:E; [zbool; lia|]. unfold ret, on_win, zoom.
    unfold add64.
    rewrite (wrap64_small (offset rw + i)) by (unfold int64_min, int64_max; lia).
    rewrite wrap64_small by (unfold int64_min, int64_max; lia).
    set (idx := Z.rem (offset rw + i + 1) (size rw)).
    assert (Hidx : 0 <= idx < size rw) by (apply rem_index_range; lia).
    rewrite window_resetBucket_modify.
    assert (Hr : Z.rem idx (size rw) = idx) by (apply Z.rem_small; lia).
    destruct (lookup_lt_is_Some_2 bs (Z.to_nat idx)) as [b Hb]; [lia|].
    erewrite window_modify_ok;
      [| simpl; lia | simpl; lia | simpl; rewrite Hr; eassumption].
    simpl. rewrite Hr.
    exists tt. eexists. split; [reflexivity|].
    exists (<[Z.to_nat idx := Bucket_reset b]> bs).
    split; [reflexivity|]. split; [rewrite length_insert; assumption|].
    intros j Hj. rewrite expired_snoc by lia. fold idx.
    destruct (Z.eq_dec idx j) as [->|Hne].
    + rewrite bucket_at_insert_eq by lia. rewrite Z.eqb_refl, orb_true_r.
      reflexivity.
    + rewrite bucket_at_insert_ne by lia.
      apply Z.eqb_neq in Hne. rewrite Hne, orb_false_r. apply Hbs. assumption.
  - exists (buckets (win rw)). split; [symmetry; apply set_win_self; assumption|].
    split; [reflexivity|]. intros j Hj. reflexivity.
  - exists bs. rewrite Z.add_0_l, Z2Nat.id in Hbs by lia.
    split; [assumption|]. split; assumption.
Qed.

(** A rotation, bucket by bucket. *)
Lemma updateOffset_rotate_exact t1 t2 rw :
  rw_ok rw -> interval rw <> 0 -> 0 < span_val rw t1 ->
  exists bs,
    length bs = length (buckets (win rw))
    /\ (forall j, 0 <= j < size rw ->
          bucket_at bs j
          = if expired rw (span_val rw t1) j then mkBucket 0 0
            else bucket_at (buckets (win rw)) j)
    /\ RollingWindow_updateOffset t1 t2 rw
       = (Ok tt,
          {| size := size rw;
             win := mkWindow bs (size rw);
             interval := interval rw;
             offset := Z.rem (offset rw + span_val rw t1) (size rw);
             ignoreCurrent := ignoreCurrent rw;
             lastTime :=
               sub64 t2 (Z.rem (sub64 t2 (lastTime rw)) (interval rw)) |}).
Proof.
  intros Hok Hi Hs. pose proof Hok as [Hsize Hwsize Hlen Hoff].
  pose proof (span_val_range rw t1 ltac:(lia)) as Hsp.
  destruct (reset_loop_run rw (span_val rw t1) Hok ltac:(lia))
    as (bs & Eloop & Hl & Hbs).
  exists bs. split; [assumption|]. split; [assumption|].
  unfold RollingWindow_updateOffset.
  rewrite (bind_run_ok _ _ _ _ _ (span_run t1 rw Hi)).
  destruct (span_val rw t1 <=? 0) eqn:E; [zbool; lia|]. clear E.
  rewrite (bind_run_ok get _ rw rw rw eq_refl).
  rewrite (bind_run_ok _ _ _ _ _ Eloop).
  unfold bind, rem64.
  destruct (size rw =? 0) eqn:E; [zbool; lia|]. unfold ret, get, put. simpl.
  destruct (interval rw =? 0) eqn:E2; [zbool; lia|]. simpl.
  unfold add64. rewrite wrap64_small by (unfold int64_min, int64_max; lia).
  reflexivity.
Qed.

Lemma Add_rotate_exact v t1 t2 rw :
  rw_ok rw -> interval rw <> 0 -> 0 < span_val rw t1 ->
  exists bs,
    RollingWindow_Add v t1 t2 rw
    = (Ok tt,
       {| size := size rw;
          win := mkWindow bs (size rw);
          interval := interval rw;
          offset := Z.rem (offset rw + span_val rw t1) (size rw);
          ignoreCurrent := ignoreCurrent rw;
          lastTime :=
            sub64 t2 (Z.rem (sub64 t2 (lastTime rw)) (interval rw)) |})
    /\ length bs = length (buckets (win rw))
    /\ forall j, 0 <= j < size rw ->
         bucket_at bs j
         = if j =? Z.rem (offset rw + span_val rw t1) (size rw)
           then Bucket_add v (mkBucket 0 0)
           else if expired rw (span_val rw t1) j then mkBucket 0 0
                else bucket_at (buckets (win rw)) j.
Proof.
  intros Hok Hi Hs. pose proof Hok as [Hsize Hwsize Hlen Hoff].
  pose proof (span_val_range rw t1 ltac:(lia)) as Hsp.
  destruct (updateOffset_rotate_exact t1 t2 rw Hok Hi Hs)
    as (bs & Hl & Hbs & E).
  set (o := Z.rem (offset rw + span_val rw t1) (size rw)) in *.
  assert (Ho : 0 <= o < size rw) by (apply rem_index_range; lia).
  assert (Hexp : expired rw (span_val rw t1) o = true).
  { apply expired_iff. exists (span_val rw t1 - 1). split; [lia|].
    unfold o. f_equal. lia. }
  unfold RollingWindow_Add.
  rewrite (bind_run_ok _ _ _ _ _ E).
  unfold bind, get, on_win, zoom. cbn [win offset].
  rewrite window_add_modify.
  assert (Hr : Z.rem o (size rw) = o) by (apply Z.rem_small; lia).
  erewrite window_modify_ok;
    [| simpl; lia | simpl; lia
     | simpl; rewrite Hr; apply bucket_at_is_lookup; lia].
  simpl. rewrite Hr. rewrite (Hbs o Ho), Hexp.
  eexists. split; [reflexivity|]. split; [rewrite length_insert; assumption|].
  intros j Hj. destruct (Z.eq_dec j o) as [->|Hne].
  - rewrite Z.eqb_refl. apply bucket_at_insert_eq. lia.
  - rewrite bucket_at_insert_ne by lia.
    apply Z.eqb_neq in Hne. rewrite Hne. apply Hbs. assumption.
Qed.

End WindowBuckets.

(** ** The rolling window: accumulation, rotation and ageing *)

Section WindowProperties.

Import collection.

Lemma span_result now rw span :
  fst (RollingWindow_span now rw) = Ok span ->
  interval rw <> 0 /\ span = span_val rw now.
Proof.
  intros H. destruct (Z.eq_dec (interval rw) 0) as [Hz|Hnz].
  - rewrite span_panic in H by assumption. discriminate H.
  - rewrite span_run in H by assumption. simpl in H.
    split; [assumption|congruence].
Qed.

Lemma span_val_stale rw now :
  1 <= size rw -> 0 < interval rw ->
  size rw * interval rw <= timex.Since now (lastTime rw) ->
  span_val rw now = size rw.
Proof.
  intros Hsz Hiv He. rewrite span_val_elapsed by nia. cbv zeta.
  assert (Hq : size rw <= timex.Since now (lastTime rw) / interval rw)
    by (apply Z.div_le_lower_bound; lia).
  destruct (_ <? size rw) eqn:E; [zbool; lia|reflexivity].
Qed.

Lemma expired_all rw j :
  rw_ok rw -> 0 <= j < size rw -> expired rw (size rw) j = true.
Proof.
  intros [Hsize _ _ Hoff] Hj. apply expired_iff.
  exists ((j - offset rw - 1) mod size rw).
  pose proof (Z.mod_pos_bound (j - offset rw - 1) (size rw) ltac:(lia)) as Hm.
  split; [lia|].
  rewrite Z.rem_mod_nonneg by lia.
  rewrite (Z.mod_eq (j - offset rw - 1)) by lia.
  replace (offset rw + (j - offset rw - 1
                        - size rw * ((j - offset rw - 1) / size rw)) + 1)
    with (j + (- ((j - offset rw - 1) / size rw)) * size rw) by ring.
  rewrite Z_mod_plus_full. apply Z.mod_small. lia.
Qed.

Lemma rem_full_turn o s : 0 <= o < s -> Z.rem (o + s) s = o.
Proof.
  intros H. rewrite Z.rem_mod_nonneg by lia.
  replace (o + s) with (o + 1 * s) by ring.
  rewrite Z_mod_plus_full. apply Z.mod_small. lia.
Qed.

(** X1. Any number of [Add] calls made while the clock stays in the
    current bucket change that bucket only: its [Sum] grows by the sum
    of the values and its [Count] by the number of calls (as long as the
    count stays within int64); offset, lastTime and the other buckets
    are as before. *)
Theorem adds_accumulate_in_current_bucket adds rw :
  rw_ok rw ->
  Forall (fun a : Q * Z * Z => in_current_bucket rw (snd (fst a))) adds ->
  int64_min <= Count (bucket_at (buckets (win rw)) (offset rw)) ->
  Count (bucket_at (buckets (win rw)) (offset rw)) + Z.of_nat (length adds)
  <= int64_max ->
  exists b',
    run_adds adds rw
    = set_win
        (mkWindow (<[Z.to_nat (offset rw) := b']> (buckets (win rw)))
                  (size rw))
        rw
    /\ (Sum b' == Sum (bucket_at (buckets (win rw)) (offset rw))
                  + sum_values adds)%Q
    /\ Count b'
       = Count (bucket_at (buckets (win rw)) (offset rw))
         + Z.of_nat (length adds).
Proof.
  intros Hok Hall Hlo Hhi.
  destruct (adds_in_current adds rw Hok Hall) as (b' & E & Hsum & Hcnt & Hrng).
  exists b'. split; [assumption|]. split; [assumption|].
  rewrite <- (wrap64_small (Count b')) by (apply Hrng; lia).
  rewrite Hcnt. apply wrap64_small. lia.
Qed.

Lemma adds_accumulate_in_current_bucket_witness :
  let rw := {| size := 3; win := newWindow 3; interval := 10; offset := 0;
               ignoreCurrent := false; lastTime := 100 |} in
  let adds := [(1%Q, 103, 103); (2%Q, 105, 106); (1 # 2, 109, 109)] in
  exists b',
    run_adds adds rw
    = set_win
        (mkWindow (<[Z.to_nat (offset rw) := b']> (buckets (win rw)))
                  (size rw))
        rw
    /\ (Sum b' == Sum (bucket_at (buckets (win rw)) (offset rw))
                  + sum_values adds)%Q
    /\ Count b'
       = Count (bucket_at (buckets (win rw)) (offset rw))
         + Z.of_nat (length adds).
Proof.
  intros rw adds. apply (adds_accumulate_in_current_bucket adds rw).
  - constructor; simpl; lia.
  - repeat constructor; (apply Z.leb_le || apply Z.ltb_lt); reflexivity.
  - apply Z.leb_le. reflexivity.
  - apply Z.leb_le. reflexivity.
Defined.

(** X2. An [Add] that finds the clock [span > 0] buckets ahead resets
    the buckets at [(offset + i + 1) % size] for [i] below [span], moves
    [offset] to [(offset + span) % size] and then adds to the bucket
    there, which was among those reset: the new current bucket holds
    the added value alone, and every bucket that was not reset is as
    before. *)
Theorem rotation_resets_expired_buckets v t1 t2 rw span :
  rw_ok rw ->
  fst (RollingWindow_span t1 rw) = Ok span ->
  0 < span ->
  let rw' := snd (RollingWindow_Add v t1 t2 rw) in
  fst (RollingWindow_Add v t1 t2 rw) = Ok tt
  /\ offset rw' = Z.rem (offset rw + span) (size rw)
  /\ expired rw span (offset rw') = true
  /\ length (buckets (win rw')) = length (buckets (win rw))
  /\ forall j, 0 <= j < size rw ->
       bucket_at (buckets (win rw')) j
       = if j =? offset rw' then Bucket_add v (mkBucket 0 0)
         else if expired rw span j then mkBucket 0 0
              else bucket_at (buckets (win rw)) j.
Proof.
  intros Hok Hspan Hpos. destruct (span_result _ _ _ Hspan) as [Hi ->].
  destruct (Add_rotate_exact v t1 t2 rw Hok Hi Hpos) as (bs & E & Hl & Hbs).
  cbv zeta. rewrite E. simpl.
  split; [reflexivity|]. split; [reflexivity|]. split.
  - apply expired_iff. exists (span_val rw t1 - 1). split; [lia|].
    f_equal. lia.
  - split; assumption.
Qed.

Lemma rotation_resets_expired_buckets_witness :
  let rw := {| size := 4;
               win := mkWindow [mkBucket 4 5; mkBucket 1 2; mkBucket 0 1;
                                mkBucket 7 9] 4;
               interval := 10; offset := 3; ignoreCurrent := false;
               lastTime := 100 |} in
  let rw' := snd (RollingWindow_Add 1 125 126 rw) in
  offset rw' = 1
  /\ buckets (win rw')
     = [mkBucket 0 0; mkBucket 1 1; mkBucket 0 1; mkBucket 7 9].
Proof.
  intros rw rw'.
  destruct (rotation_resets_expired_buckets 1 125 126 rw 2) as (_ & H & _).
  - constructor; simpl; lia.
  - reflexivity.
  - lia.
  - split; [exact H|reflexivity].
Defined.

(** X3. Once [size * interval] has elapsed since [lastTime], an [Add]
    resets every bucket and keeps [offset]: afterwards the window holds
    the added value alone, in the current bucket. *)
Theorem add_after_idle_window_restarts v t1 t2 rw :
  rw_ok rw -> 0 < interval rw ->
  size rw * interval rw <= timex.Since t1 (lastTime rw) ->
  let rw' := snd (RollingWindow_Add v t1 t2 rw) in
  fst (RollingWindow_Add v t1 t2 rw) = Ok tt
  /\ offset rw' = offset rw
  /\ length (buckets (win rw')) = length (buckets (win rw))
  /\ forall j, 0 <= j < size rw ->
       bucket_at (buckets (win rw')) j
       = if j =? offset rw then Bucket_add v (mkBucket 0 0)
         else mkBucket 0 0.
Proof.
  intros Hok Hiv He. pose proof Hok as [Hsize Hwsize Hlen Hoff].
  pose proof (span_val_stale rw t1 ltac:(lia) Hiv He) as Hsp.
  destruct (Add_rotate_exact v t1 t2 rw Hok ltac:(lia) ltac:(lia))
    as (bs & E & Hl & Hbs).
  cbv zeta. rewrite E. simpl. rewrite Hsp in *.
  rewrite rem_full_turn in * by lia.
  split; [reflexivity|]. split; [reflexivity|]. split; [assumption|].
  intros j Hj. rewrite (Hbs j Hj), (expired_all rw j Hok Hj). reflexivity.
Qed.

Lemma add_after_idle_window_restarts_witness :
  let rw := {| size := 3;
               win := mkWindow [mkBucket 4 5; mkBucket 1 2; mkBucket 0 1] 3;
               interval := 10; offset := 1; ignoreCurrent := false;
               lastTime := 100 |} in
  buckets (win (snd (RollingWindow_Add 1 131 132 rw)))
  = [mkBucket 0 0; mkBucket 1 1; mkBucket 0 0]
  /\ offset (snd (RollingWindow_Add 1 131 132 rw)) = offset rw.
Proof.
  intros rw.
  destruct (add_after_idle_window_restarts 1 131 132 rw) as (_ & H & _).
  - constructor; simpl; lia.
  - simpl. lia.
  - apply Z.leb_le. reflexivity.
  - split; [reflexivity|exact H].
Defined.

Lemma visited_ignoring rw t :
  rw_ok rw -> ignoreCurrent rw = true -> in_current_bucket rw t ->
  Forall (fun j => 0 <= j /\ j <> offset rw) (visited rw t).
Proof.
  intros Hok Hig Hin. pose proof Hok as [Hsize Hwsize Hlen Hoff].
  unfold visited. rewrite (in_current_span rw t ltac:(lia) Hin), Hig. simpl.
  apply Forall_forall. intros j Hj.
  apply list_elem_of_In, in_map_iff in Hj. destruct Hj as (i & <- & Hi).
  apply list_elem_of_In, elem_of_seqZ in Hi.
  destruct (visit_index (offset rw) (size rw) i Hoff ltac:(lia)) as [H1 H2].
  split; [lia|]. intros E. apply H2 in E. lia.
Qed.

(** X4. With the option [IgnoreCurrentBucket], a value added to the
    current bucket is not seen by [Reduce] while the clock stays in
    that bucket: the aggregate is the one from before the [Add]. *)
Theorem ignore_current_hides_partial_bucket {A : Type}
    (fn : Bucket -> A -> Bucket * A) acc v t1 t2 t rw :
  read_only fn ->
  rw_ok rw -> ignoreCurrent rw = true ->
  in_current_bucket rw t1 -> in_current_bucket rw t ->
  fst (RollingWindow_Reduce fn acc t (snd (RollingWindow_Add v t1 t2 rw)))
  = fst (RollingWindow_Reduce fn acc t rw).
Proof.
  intros Hro Hok Hig Hin1 Hin. pose proof Hok as [Hsize Hwsize Hlen Hoff].
  assert (Hi : interval rw <> 0) by (unfold in_current_bucket in Hin; lia).
  pose proof (Add_ok v t1 t2 rw Hok) as Hok'.
  rewrite (Add_in_current v t1 t2 rw Hok Hin1) in *. simpl in Hok'.
  simpl snd.
  rewrite (Reduce_ro_run fn Hro acc t _ Hok' Hi).
  rewrite (Reduce_ro_run fn Hro acc t rw Hok Hi). simpl.
  f_equal.
  change (visited (set_win _ rw) t) with (visited rw t).
  apply fold_left_ext_in. intros a j Hj.
  pose proof (visited_ignoring rw t Hok Hig Hin) as Hv.
  rewrite Forall_forall in Hv. apply list_elem_of_In, Hv in Hj.
  rewrite bucket_at_insert_ne by lia. reflexivity.
Qed.

Lemma ignore_current_hides_partial_bucket_witness :
  let rw := {| size := 3;
               win := mkWindow [mkBucket 4 5; mkBucket 1 2; mkBucket 0 1] 3;
               interval := 10; offset := 1; ignoreCurrent := true;
               lastTime := 100 |} in
  fst (RollingWindow_Reduce breaker.history_fn (0, 0) 108
         (snd (RollingWindow_Add 1 105 106 rw)))
  = Ok (4, 6).
Proof.
  intros rw.
  rewrite (ignore_current_hides_partial_bucket
             breaker.history_fn (0, 0) 1 105 106 108 rw).
  - reflexivity.
  - exact history_fn_read_only.
  - constructor; simpl; lia.
  - reflexivity.
  - split; [apply Z.leb_le|apply Z.ltb_lt]; reflexivity.
  - split; [apply Z.leb_le|apply Z.ltb_lt]; reflexivity.
Defined.

(** X5. With a monotonic clock, [Add] keeps [lastTime] the start of the
    current bucket: it never moves [lastTime] back or past the clock,
    and afterwards the reading it acted on lies within one interval of
    [lastTime] (the reading of [span] when the window did not rotate,
    the later one of [updateOffset] when it did). *)
Theorem Add_aligns_lastTime v t1 t2 rw span :
  rw_ok rw -> 0 < interval rw ->
  valid_time (lastTime rw) -> valid_time t1 -> valid_time t2 ->
  lastTime rw <= t1 <= t2 ->
  fst (RollingWindow_span t1 rw) = Ok span ->
  let rw' := snd (RollingWindow_Add v t1 t2 rw) in
  lastTime rw <= lastTime rw' <= t2
  /\ in_current_bucket rw' (if span =? 0 then t1 else t2).
Proof.
  intros Hok Hiv Hlt Ht1 Ht2 Hmono Hspan.
  pose proof Hok as [Hsize Hwsize Hlen Hoff].
  destruct (span_result _ _ _ Hspan) as [Hi ->].
  pose proof (span_val_range rw t1 ltac:(lia)) as Hrange.
  destruct (Add_spec v t1 t2 rw Hok Hi) as (bs & b & _ & _ & _ & E).
  cbv zeta. rewrite E. unfold in_current_bucket, next_lastTime. simpl.
  destruct (span_val rw t1 <=? 0) eqn:Es; zbool.
  - assert (Hz : span_val rw t1 = 0) by lia. rewrite Hz. simpl.
    split; [lia|].
    assert (He : timex.Since t1 (lastTime rw) = t1 - lastTime rw)
      by (apply sub64_valid; assumption).
    rewrite span_val_elapsed in Hz by lia. cbv zeta in Hz.
    rewrite He in *.
    destruct (_ <? size rw) eqn:Eq in Hz; [|lia].
    apply Z.div_small_iff in Hz; lia.
  - destruct (span_val rw t1 =? 0) eqn:Ez; [zbool; lia|]. clear Ez.
    destruct (realign_facts (lastTime rw) t2 (interval rw) Hlt Ht2 Hi)
      as (Hl' & Hv' & _).
    cbv zeta in Hl', Hv'.
    pose proof (Z.rem_bound_pos (t2 - lastTime rw) (interval rw)
                  ltac:(lia) Hiv) as Hr.
    destruct (rem_between (t2 - lastTime rw) (interval rw) Hi) as [Hb _].
    specialize (Hb ltac:(lia)).
    unfold timex.Since. rewrite (sub64_valid t2 _ Ht2 Hv').
    rewrite Hl'. lia.
Qed.

Lemma Add_aligns_lastTime_witness :
  let rw := {| size := 3; win := newWindow 3; interval := 10; offset := 0;
               ignoreCurrent := false; lastTime := 100 |} in
  let rw' := snd (RollingWindow_Add 1 125 127 rw) in
  lastTime rw <= lastTime rw' <= 127 /\ in_current_bucket rw' 127.
Proof.
  intros rw rw'.
  apply (Add_aligns_lastTime 1 125 127 rw 2).
  - constructor; simpl; lia.
  - simpl. lia.
  - split; [apply Z.leb_le|apply Z.ltb_lt]; reflexivity.
  - split; [apply Z.leb_le|apply Z.ltb_lt]; reflexivity.
  - split; [apply Z.leb_le|apply Z.ltb_lt]; reflexivity.
  - simpl. lia.
  - reflexivity.
Defined.

Lemma visit_injective c s i i' :
  0 <= c < s -> 0 <= i < s -> 0 <= i' < s ->
  Z.rem (c + i) s = Z.rem (c + i') s -> i = i'.
Proof.
  intros Hc Hi Hi' E. rewrite !Z.rem_mod_nonneg in E by lia.
  pose proof (Z.div_mod (c + i) s ltac:(lia)) as H1.
  pose proof (Z.div_mod (c + i') s ltac:(lia)) as H2.
  rewrite E in H1.
  set (q1 := (c + i) / s) in *. set (q2 := (c + i') / s) in *.
  set (r := (c + i') mod s) in *.
  assert (Hq : q1 = q2) by nia.
  subst q1. lia.
Qed.

Lemma visited_NoDup rw now :
  rw_ok rw -> NoDup (visited rw now).
Proof.
  intros Hok. pose proof Hok as [Hsize Hwsize Hlen Hoff].
  pose proof (span_val_range rw now ltac:(lia)) as Hsp.
  unfold visited.
  set (c := Z.rem (offset rw + span_val rw now + 1) (size rw)).
  assert (Hc : 0 <= c < size rw) by (apply rem_index_range; lia).
  set (diff := if (span_val rw now =? 0) && ignoreCurrent rw
               then size rw - 1 else size rw - span_val rw now).
  assert (Hd : diff <= size rw)
    by (unfold diff; destruct (_ && _); lia).
  change (map ?f ?l) with (f <$> l).
  apply NoDup_fmap_2_strong; [|apply NoDup_seqZ].
  intros i i' Hi Hi' E. apply elem_of_seqZ in Hi, Hi'.
  apply (visit_injective c (size rw)); solve [lia | assumption].
Qed.

Lemma visited_in_range rw now :
  rw_ok rw -> Forall (fun j => 0 <= j < size rw) (visited rw now).
Proof.
  intros Hok. pose proof Hok as [Hsize Hwsize Hlen Hoff].
  pose proof (span_val_range rw now ltac:(lia)) as Hsp.
  unfold visited. apply Forall_forall. intros j Hj.
  apply list_elem_of_In, in_map_iff in Hj. destruct Hj as (i & <- & Hi).
  apply list_elem_of_In, elem_of_seqZ in Hi.
  apply rem_index_range; [|lia].
  pose proof (rem_index_range (offset rw + span_val rw now + 1) (size rw)
                ltac:(lia) ltac:(lia)). lia.
Qed.

(** X6. [Reduce] calls [fn] on [size - span] buckets ([size - 1] when
    the current bucket is ignored), at pairwise distinct indices inside
    the slice: no bucket is counted twice. *)
Theorem Reduce_visits_distinct_buckets {A : Type}
    (fn : Bucket -> A -> Bucket * A) acc now rw span :
  read_only fn -> rw_ok rw ->
  fst (RollingWindow_span now rw) = Ok span ->
  exists js,
    RollingWindow_Reduce fn acc now rw
    = (Ok (fold_left (fun a j => snd (fn (bucket_at (buckets (win rw)) j) a))
             js acc),
       rw)
    /\ NoDup js
    /\ Forall (fun j => 0 <= j < size rw) js
    /\ Z.of_nat (length js)
       = if (span =? 0) && ignoreCurrent rw then size rw - 1
         else size rw - span.
Proof.
  intros Hro Hok Hspan. pose proof Hok as [Hsize Hwsize Hlen Hoff].
  destruct (span_result _ _ _ Hspan) as [Hi ->].
  pose proof (span_val_range rw now ltac:(lia)) as Hsp.
  exists (visited rw now).
  split; [apply Reduce_ro_run; assumption|].
  split; [apply visited_NoDup; assumption|].
  split; [apply visited_in_range; assumption|].
  unfold visited. rewrite length_map, length_seqZ.
  destruct (_ && _); lia.
Qed.

Lemma Reduce_visits_distinct_buckets_witness :
  let rw := {| size := 3;
               win := mkWindow [mkBucket 4 5; mkBucket 1 2; mkBucket 0 1] 3;
               interval := 10; offset := 1; ignoreCurrent := false;
               lastTime := 100 |} in
  exists js,
    RollingWindow_Reduce breaker.history_fn (0, 0) 112 rw
    = (Ok (fold_left
             (fun a j =>
                snd (breaker.history_fn (bucket_at (buckets (win rw)) j) a))
             js (0, 0)),
       rw)
    /\ NoDup js
    /\ Forall (fun j => 0 <= j < size rw) js
    /\ Z.of_nat (length js) = 2.
Proof.
  intros rw.
  apply (Reduce_visits_distinct_buckets breaker.history_fn (0, 0) 112 rw 1).
  - exact history_fn_read_only.
  - constructor; simpl; lia.
  - reflexivity.
Defined.

Lemma options_keep_interval opts rw0 :
  Forall (fun o => o = IgnoreCurrentBucket) opts ->
  interval (fold_left (fun w (opt : RollingWindowOption) => opt w) opts rw0)
  = interval rw0.
Proof.
  intros Hopts.
  apply (options_keep (fun rw => interval rw = interval rw0)); try assumption.
  - intros rw H. exact H.
  - reflexivity.
Qed.

Lemma Reduce_panic {A : Type} (fn : Bucket -> A -> Bucket * A) acc now rw :
  interval rw = 0 ->
  RollingWindow_Reduce fn acc now rw = (Panic DivideByZero, rw).
Proof.
  intros Hi. unfold RollingWindow_Reduce.
  apply bind_run_panic. apply span_panic. assumption.
Qed.

(** X7. [NewRollingWindow] checks the size but not the interval: with
    interval 0 it returns a window on which every [Add] and every
    [Reduce] panics with an integer division by zero, before touching
    the window. *)
Theorem zero_interval_window_panics sz opts now :
  Forall (fun o => o = IgnoreCurrentBucket) opts ->
  1 <= sz ->
  exists rw,
    NewRollingWindow sz 0 opts now = Ok rw
    /\ (forall v t1 t2,
          RollingWindow_Add v t1 t2 rw = (Panic DivideByZero, rw))
    /\ (forall (A : Type) (fn : Bucket -> A -> Bucket * A) acc t,
          RollingWindow_Reduce fn acc t rw = (Panic DivideByZero, rw)).
Proof.
  intros Hopts Hsz. unfold NewRollingWindow.
  destruct (sz <? 1) eqn:E; [zbool; lia|]. clear E.
  eexists. split; [reflexivity|].
  pose proof (options_keep_interval opts
                {| size := sz; win := newWindow sz; interval := 0;
                   offset := 0; ignoreCurrent := false; lastTime := now |}
                Hopts) as Hi.
  simpl in Hi. split.
  - intros v t1 t2. apply Add_panic. assumption.
  - intros A fn acc t. apply Reduce_panic. assumption.
Qed.

Lemma zero_interval_window_panics_witness :
  exists rw,
    NewRollingWindow 3 0 [IgnoreCurrentBucket] 100 = Ok rw
    /\ (forall v t1 t2,
          RollingWindow_Add v t1 t2 rw = (Panic DivideByZero, rw))
    /\ (forall (A : Type) (fn : Bucket -> A -> Bucket * A) acc t,
          RollingWindow_Reduce fn acc t rw = (Panic DivideByZero, rw)).
Proof.
  apply (zero_interval_window_panics 3 [IgnoreCurrentBucket] 100).
  - repeat constructor.
  - lia.
Defined.

End WindowProperties.

(** ** The breaker: when [accept] rejects *)

Section AcceptDecision.

Import breaker.

Local Open Scope Q_scope.

(** The numerator of the drop ratio, compared with 0 over the integers. *)
Lemma numerator_sign accepts total :
  (inject_Z (total - 5) - k * inject_Z accepts) * 2
  == inject_Z (2 * total - 10 - 3 * accepts).
Proof.
  unfold Z.sub. rewrite !inject_Z_plus, !inject_Z_opp, !inject_Z_mult.
  change (inject_Z 2) with 2. change (inject_Z 3) with 3.
  change (inject_Z 5) with 5. change (inject_Z 10) with 10. unfold k.
  field.
Qed.

Lemma quotient_sign x d : 0 < d -> (0 < x / d <-> 0 < x).
Proof.
  intros Hd. split; intros H.
  - assert (E : x == (x / d) * d)
      by (field; intros E; rewrite E in Hd; discriminate).
    rewrite E. apply Qmult_lt_0_compat; assumption.
  - apply Qlt_shift_div_l; [assumption|]. lra.
Qed.

Lemma dropRatio_positive_iff accepts total :
  (0 <= total < int64_max)%Z ->
  (0 < dropRatio k accepts total <-> (3 * accepts + 10 < 2 * total)%Z).
Proof.
  intros Ht. rewrite dropRatio_unfold by assumption.
  pose proof (inject_Z_pos total ltac:(lia)) as Hd.
  pose proof (numerator_sign accepts total) as Hn.
  set (x := inject_Z (total - 5) - k * inject_Z accepts) in *.
  split.
  - intros H. apply Q.max_lt_iff in H. destruct H as [H|H]; [lra|].
    apply quotient_sign in H; [|assumption].
    assert (H2 : 0 < inject_Z (2 * total - 10 - 3 * accepts))
      by (rewrite <- Hn; lra).
    change 0 with (inject_Z 0) in H2. rewrite <- Zlt_Qlt in H2. lia.
  - intros H. apply Q.max_lt_iff. right. apply quotient_sign; [assumption|].
    assert (H2 : 0 < inject_Z (2 * total - 10 - 3 * accepts))
      by (change 0 with (inject_Z 0); rewrite <- Zlt_Qlt; lia).
    rewrite <- Hn in H2. lra.
Qed.

(** X8. The drop ratio is a probability below 1: for non-negative
    accepts it lies in [0, 1), so [accept] never rejects with certainty,
    and a draw of the probability gate that is not below the ratio is
    admitted. *)
Theorem dropRatio_below_one accepts total :
  (0 <= accepts)%Z -> (0 <= total < int64_max)%Z ->
  0 <= dropRatio k accepts total < 1
  /\ forall b now draw,
       gb_k b = k ->
       fst (googleBreaker_history now b) = Ok (accepts, total) ->
       dropRatio k accepts total <= draw ->
       googleBreaker_accept now draw b = (Ok None, b).
Proof.
  intros Ha Ht. split.
  - rewrite dropRatio_unfold by assumption.
    pose proof (inject_Z_pos total ltac:(lia)) as Hd.
    split; [apply Q.le_max_l|].
    apply Q.max_lub_lt; [reflexivity|].
    apply Qlt_shift_div_r; [assumption|].
    assert (H0 : 0 <= inject_Z accepts)
      by (change 0 with (inject_Z 0); rewrite <- Zle_Qle; assumption).
    unfold Z.sub. rewrite !inject_Z_plus, inject_Z_opp.
    change (inject_Z 5) with 5. change (inject_Z 1) with 1. unfold k. lra.
  - intros b now draw Hk Hh Hdraw.
    rewrite (accept_run now draw b accepts total Hh), Hk.
    destruct (Qle_bool (dropRatio k accepts total) 0); [reflexivity|].
    unfold TrueOnProba.
    apply Qle_bool_iff in Hdraw. rewrite Hdraw. reflexivity.
Qed.

Lemma dropRatio_below_one_witness :
  0 <= dropRatio k 50 100 < 1.
Proof.
  apply (dropRatio_below_one 50 100).
  - apply Z.leb_le. reflexivity.
  - split; [apply Z.leb_le|apply Z.ltb_lt]; reflexivity.
Defined.

(** X9. [accept] rejects exactly when the recorded total exceeds
    [1.5 * accepts + 5] (that is, [3 * accepts + 10 < 2 * total]) and
    the draw of the probability gate is below the drop ratio; the only
    error it returns is [ErrServiceUnavailable].  In particular it
    admits while at most five outcomes are recorded and while every
    recorded outcome is a success. *)
Theorem accept_rejects_iff b now draw accepts total :
  gb_k b = k ->
  fst (googleBreaker_history now b) = Ok (accepts, total) ->
  (0 <= total < int64_max)%Z ->
  googleBreaker_accept now draw b
  = (Ok (if (3 * accepts + 10 <? 2 * total)%Z
            && negb (Qle_bool (dropRatio k accepts total) draw)
         then Some ErrServiceUnavailable
         else None),
     b).
Proof.
  intros Hk Hh Ht.
  rewrite (accept_run now draw b accepts total Hh), Hk.
  pose proof (dropRatio_positive_iff accepts total Ht) as Hpos.
  destruct (Qle_bool (dropRatio k accepts total) 0) eqn:E.
  - apply Qle_bool_iff in E.
    destruct (3 * accepts + 10 <? 2 * total)%Z eqn:E2; [|reflexivity].
    apply Z.ltb_lt, Hpos in E2. lra.
  - assert (E2 : (3 * accepts + 10 <? 2 * total)%Z = true).
    { apply Z.ltb_lt, Hpos. apply Qnot_le_lt. intros H.
      apply Qle_bool_iff in H. congruence. }
    rewrite E2. reflexivity.
Qed.

Lemma accept_rejects_iff_witness :
  let b :=
    {| gb_k := k;
       stat := {| collection.size := 2;
                  collection.win :=
                    collection.mkWindow
                      [collection.mkBucket 3 10; collection.mkBucket 4 10] 2;
                  collection.interval := 10; collection.offset := 1;
                  collection.ignoreCurrent := false;
                  collection.lastTime := 100 |} |} in
  googleBreaker_accept 101 (1 # 10) b = (Ok (Some ErrServiceUnavailable), b)
  /\ googleBreaker_accept 101 (1 # 2) b = (Ok None, b).
Proof.
  intros b. split.
  - rewrite (accept_rejects_iff b 101 (1 # 10) 7 20).
    + reflexivity.
    + reflexivity.
    + reflexivity.
    + split; [apply Z.leb_le|apply Z.ltb_lt]; reflexivity.
  - reflexivity.
Defined.

End AcceptDecision.

(** ** The breaker: [doReq], [allow] and the promise *)

Section BreakerCalls.

Import breaker.

Lemma Reduce_stale {A : Type}
    (fn : collection.Bucket -> A -> collection.Bucket * A) acc now rw :
  collection.interval rw <> 0 ->
  span_val rw now = collection.size rw ->
  collection.RollingWindow_Reduce fn acc now rw = (Ok acc, rw).
Proof.
  intros Hi Hsp. unfold collection.RollingWindow_Reduce.
  rewrite (bind_run_ok _ _ _ _ _ (span_run now rw Hi)).
  rewrite (bind_run_ok get _ rw rw rw eq_refl). rewrite Hsp.
  unfold sub64. rewrite Z.sub_diag.
  destruct ((collection.size rw =? 0) && collection.ignoreCurrent rw) eqn:E.
  - apply andb_true_iff in E. destruct E as [E _]. apply Z.eqb_eq in E.
    rewrite E. reflexivity.
  - reflexivity.
Qed.

(** X10. A breaker forgets: once the whole window of 10 s has elapsed
    since the start of its current bucket, [history] returns (0, 0)
    and [accept] admits whatever the draw, however many failures were
    recorded before. *)
Theorem breaker_forgets_after_window n b now :
  reachable n b ->
  window <= timex.Since now (collection.lastTime (stat b)) ->
  googleBreaker_history now b = (Ok (0, 0), b)
  /\ forall draw, googleBreaker_accept now draw b = (Ok None, b).
Proof.
  intros Hreach He. pose proof (reachable_ok _ _ Hreach) as Hok.
  pose proof Hok as [Hk Hrw Hsz Hiv Hig Hsums].
  assert (Hsp : span_val (stat b) now = collection.size (stat b)).
  { apply span_val_stale; rewrite ?Hsz, ?Hiv; unfold buckets; try lia.
    exact He. }
  assert (Hh : googleBreaker_history now b = (Ok (0, 0), b)).
  { unfold googleBreaker_history, on_stat, zoom.
    rewrite Reduce_stale by (rewrite ?Hiv; lia || assumption).
    rewrite set_stat_id. reflexivity. }
  split; [exact Hh|]. intros draw.
  rewrite (accept_run now draw b 0 0) by (rewrite Hh; reflexivity).
  rewrite Hk. reflexivity.
Qed.

Lemma breaker_forgets_after_window_witness :
  let b := snd (googleBreaker_markFailure 1200 1201
             (snd (googleBreaker_markFailure 1100 1101
                {| gb_k := k;
                   stat := {| collection.size := 40;
                              collection.win := collection.newWindow 40;
                              collection.interval := 250000000;
                              collection.offset := 0;
                              collection.ignoreCurrent := false;
                              collection.lastTime := 1000 |} |}))) in
  googleBreaker_history 10000001000 b = (Ok (0, 0), b)
  /\ forall draw, googleBreaker_accept 10000001000 draw b = (Ok None, b).
Proof.
  intros b.
  apply (breaker_forgets_after_window 2 b 10000001000).
  - apply reach_failure, reach_failure. apply (reach_new 1000). reflexivity.
  - apply Z.leb_le. reflexivity.
Defined.

Lemma accept_error now draw b e :
  fst (googleBreaker_accept now draw b) = Ok (Some e) ->
  e = ErrServiceUnavailable.
Proof.
  intros H. destruct (fst (googleBreaker_history now b)) as [[a t]|f] eqn:Eh.
  - rewrite (accept_run now draw b a t Eh) in H. simpl in H.
    destruct (Qle_bool _ 0); [discriminate H|].
    destruct (TrueOnProba _ _); [|discriminate H].
    inversion H. reflexivity.
  - unfold googleBreaker_accept, bind in H.
    destruct (googleBreaker_history now b) as [[h|f'] s]; simpl in Eh;
      [discriminate Eh|]. discriminate H.
Qed.

(** X11. A rejected call never reaches the request: [doReq] invokes
    neither [req] nor [acceptable], records nothing, and returns
    [ErrServiceUnavailable], or what the fallback makes of it when a
    fallback is given (a panic of the fallback included). *)
Theorem doReq_rejected_skips_request req fallback acceptable
    ta draw t1 t2 t3 t4 w e :
  fst (googleBreaker_accept ta draw (brk w)) = Ok (Some e) ->
  e = ErrServiceUnavailable
  /\ googleBreaker_doReq req fallback acceptable ta draw t1 t2 t3 t4 w
     = match fallback with
       | Some fb =>
           (fb (Some ErrServiceUnavailable),
            {| brk := brk w;
               calls := calls w
                        ++ [CallFallback (Some ErrServiceUnavailable)] |})
       | None => (Ok (Some ErrServiceUnavailable), w)
       end.
Proof.
  intros H. pose proof (accept_error _ _ _ _ H) as ->.
  split; [reflexivity|]. apply doReq_rejected. assumption.
Qed.

Lemma doReq_rejected_skips_request_witness :
  let w :=
    {| brk :=
         {| gb_k := k;
            stat := {| collection.size := 2;
                       collection.win :=
                         collection.mkWindow
                           [collection.mkBucket 3 10; collection.mkBucket 4 10]
                           2;
                       collection.interval := 10; collection.offset := 1;
                       collection.ignoreCurrent := false;
                       collection.lastTime := 100 |} |};
       calls := [] |} in
  googleBreaker_doReq (Ok None) (Some (fun _ => Ok (Some (ErrOther "degraded"))))
    (fun _ => Ok true) 101 (1 # 10) 102 103 104 105 w
  = (Ok (Some (ErrOther "degraded")),
     {| brk := brk w;
        calls := [CallFallback (Some ErrServiceUnavailable)] |}).
Proof.
  intros w.
  destruct (doReq_rejected_skips_request (Ok None)
              (Some (fun _ => Ok (Some (ErrOther "degraded"))))
              (fun _ => Ok true) 101 (1 # 10) 102 103 104 105 w
              ErrServiceUnavailable) as [_ H].
  - reflexivity.
  - exact H.
Defined.

Lemma markFailure_runs n t1 t2 b :
  reachable n b ->
  googleBreaker_markFailure t1 t2 b
  = (Ok tt, snd (googleBreaker_markFailure t1 t2 b)).
Proof.
  intros Hreach. pose proof (reachable_ok _ _ Hreach) as Hok.
  destruct (mark_ok (Z.of_nat n) 0 t1 t2 b ltac:(lia) ltac:(lia) Hok)
    as (bs & bk & _ & _ & _ & Hrun & _).
  unfold googleBreaker_markFailure. change (0%Q) with (inject_Z 0).
  rewrite Hrun. reflexivity.
Qed.

Lemma markSuccess_runs n t1 t2 b :
  reachable n b ->
  googleBreaker_markSuccess t1 t2 b
  = (Ok tt, snd (googleBreaker_markSuccess t1 t2 b)).
Proof.
  intros Hreach. pose proof (reachable_ok _ _ Hreach) as Hok.
  destruct (mark_ok (Z.of_nat n) 1 t1 t2 b ltac:(lia) ltac:(lia) Hok)
    as (bs & bk & _ & _ & _ & Hrun & _).
  unfold googleBreaker_markSuccess. change (1%Q) with (inject_Z 1).
  rewrite Hrun. reflexivity.
Qed.

(** X12. The deferred recovery of [doReq] also covers [acceptable]:
    when the request returns and [acceptable] panics, [doReq] records
    one failure and panics with the same value, without calling the
    fallback. *)
Theorem doReq_acceptable_panic_marks_failure n w e f fallback acceptable
    ta draw t1 t2 t3 t4 :
  reachable n (brk w) ->
  fst (googleBreaker_accept ta draw (brk w)) = Ok None ->
  acceptable e = Panic f ->
  googleBreaker_doReq (Ok e) fallback acceptable ta draw t1 t2 t3 t4 w
  = (Panic f,
     {| brk := snd (googleBreaker_markFailure t3 t4 (brk w));
        calls := calls w ++ [CallReq; CallAcceptable e] |}).
Proof.
  intros Hreach Hacc Hpanic. unfold googleBreaker_doReq.
  erewrite bind_run_ok by (rewrite on_brk_accept, Hacc; reflexivity).
  unfold defer_recover, bind, invoke. cbn [brk calls]. rewrite Hpanic.
  unfold on_brk, zoom. cbn [brk].
  rewrite (markFailure_runs n t3 t4 (brk w) Hreach).
  unfold set_brk. cbn [calls snd]. rewrite <- app_assoc. reflexivity.
Qed.

Lemma doReq_acceptable_panic_marks_failure_witness :
  let w := {| brk := {| gb_k := k;
                        stat := {| collection.size := 40;
                                   collection.win := collection.newWindow 40;
                                   collection.interval := 250000000;
                                   collection.offset := 0;
                                   collection.ignoreCurrent := false;
                                   collection.lastTime := 1000 |} |};
              calls := [] |} in
  googleBreaker_doReq (Ok None) None (fun _ => Panic (PanicValue "boom"))
    1001 (1 # 2) 1002 1003 1004 1005 w
  = (Panic (PanicValue "boom"),
     {| brk := snd (googleBreaker_markFailure 1004 1005 (brk w));
        calls := calls w ++ [CallReq; CallAcceptable None] |}).
Proof.
  intros w.
  apply (doReq_acceptable_panic_marks_failure 0 w None (PanicValue "boom")).
  - apply (reach_new 1000). reflexivity.
  - reflexivity.
  - reflexivity.
Defined.

(** X13. [allow] hands out a promise exactly when [accept] admits and
    passes its error on otherwise, leaving the statistics as they
    were; the promise's [Accept] then records a success and its
    [Reject] a failure: while the clock stays in the current bucket
    [history] shows one more total, and one more accept after
    [Accept]. *)
Theorem allow_and_promise n b now draw :
  reachable n b ->
  googleBreaker_allow now draw b
  = (match fst (googleBreaker_accept now draw b) with
     | Ok None => Ok (Some mkGooglePromise, None)
     | Ok (Some e) => Ok (None, Some e)
     | Panic f => Panic f
     end, b)
  /\ forall p t1 t2 t t' accepts total,
       in_current_bucket (stat b) t1 ->
       in_current_bucket (stat b) t ->
       in_current_bucket (stat b) t' ->
       fst (googleBreaker_history t b) = Ok (accepts, total) ->
       fst (googleBreaker_history t' (snd (googlePromise_Accept p t1 t2 b)))
       = Ok (add64 accepts 1, add64 total 1)
       /\ fst (googleBreaker_history t' (snd (googlePromise_Reject p t1 t2 b)))
          = Ok (accepts, add64 total 1).
Proof.
  intros Hreach. pose proof (reachable_ok _ _ Hreach) as Hok. split.
  - unfold googleBreaker_allow, bind.
    pose proof (accept_unchanged now draw b) as Hu.
    destruct (googleBreaker_accept now draw b) as [[[e|]|f] s];
      simpl in *; subst s; reflexivity.
  - intros p t1 t2 t t' accepts total Ht1 Ht Ht' Hh. split.
    + exact (history_after_mark (Z.of_nat n) 1 t1 t2 b Hok ltac:(lia)
               ltac:(lia) Ht1 t t' accepts total Ht Ht' Hh).
    + exact (history_after_mark (Z.of_nat n) 0 t1 t2 b Hok ltac:(lia)
               ltac:(lia) Ht1 t t' accepts total Ht Ht' Hh).
Qed.

Lemma allow_and_promise_witness :
  let b := {| gb_k := k;
              stat := {| collection.size := 40;
                         collection.win := collection.newWindow 40;
                         collection.interval := 250000000;
                         collection.offset := 0;
                         collection.ignoreCurrent := false;
                         collection.lastTime := 1000 |} |} in
  googleBreaker_allow 1001 (1 # 2) b = (Ok (Some mkGooglePromise, None), b).
Proof.
  intros b.
  destruct (allow_and_promise 0 b 1001 (1 # 2)) as [H _].
  - apply (reach_new 1000). reflexivity.
  - exact H.
Defined.

End BreakerCalls.

(** ** The breaker: what [history] can report *)

Section Tallies.

Import collection.

Lemma tally_zero : tally (mkBucket 0 0).
Proof. exists 0. split; [reflexivity|simpl; lia]. Qed.

Lemma tally_count bk : tally bk -> 0 <= Count bk.
Proof. intros (m & _ & H). lia. Qed.

Lemma bucket_at_tally bs j : Forall tally bs -> tally (bucket_at bs j).
Proof.
  intros H. unfold bucket_at. destruct (bs !! Z.to_nat j) as [b|] eqn:E.
  - simpl. rewrite Forall_lookup in H. eapply H. eassumption.
  - apply tally_zero.
Qed.

Lemma count_sum_nonneg bs : Forall tally bs -> 0 <= count_sum bs.
Proof.
  induction 1 as [|b bs Hb _ IH]; simpl; [lia|].
  pose proof (tally_count b Hb). lia.
Qed.

Lemma count_sum_insert bs :
  forall i old x,
    bs !! i = Some old ->
    count_sum (<[i := x]> bs) = count_sum bs - Count old + Count x.
Proof.
  induction bs as [|b bs IH]; intros i old x H; [discriminate H|].
  destruct i as [|i]; simpl in *.
  - inversion H; subst. lia.
  - rewrite (IH i old x H). lia.
Qed.

Lemma count_sum_lookup bs i bk :
  Forall tally bs -> bs !! i = Some bk -> Count bk <= count_sum bs.
Proof.
  intros H. revert i. induction H as [|b bs Hb Hbs IH]; intros i E;
    [discriminate E|].
  pose proof (count_sum_nonneg bs Hbs). pose proof (tally_count b Hb).
  destruct i as [|i]; simpl in *.
  - inversion E; subst. lia.
  - specialize (IH i E). lia.
Qed.

Lemma reset_some_count bs bs' :
  reset_some bs bs' -> Forall tally bs ->
  Forall tally bs' /\ count_sum bs' <= count_sum bs.
Proof.
  induction 1 as [|b b' bs bs' Hb _ IH]; intros Hall; [split; [constructor|lia]|].
  inversion Hall as [|? ? Hb0 Hbs0]; subst.
  destruct (IH Hbs0) as [H1 H2]. pose proof (tally_count b Hb0).
  destruct Hb as [->| ->]; simpl; split; try constructor;
    try assumption; try apply tally_zero; lia.
Qed.

Lemma count_sum_replicate n : count_sum (replicate n (mkBucket 0 0)) = 0.
Proof. induction n as [|n IH]; simpl; [reflexivity|]. rewrite IH. reflexivity. Qed.

(** The buckets of a breaker that has recorded [n] outcomes hold
    tallies of at most [n] outcomes in all. *)
Lemma reachable_tally n b :
  reachable n b -> Z.of_nat n <= int64_max ->
  Forall tally (buckets (win (breaker.stat b)))
  /\ count_sum (buckets (win (breaker.stat b))) <= Z.of_nat n.
Proof.
  assert (Hmark : forall n c t1 t2 b,
             reachable n b -> 0 <= c <= 1 ->
             Z.of_nat (S n) <= int64_max ->
             (Forall tally (buckets (win (breaker.stat b)))
              /\ count_sum (buckets (win (breaker.stat b))) <= Z.of_nat n) ->
             let b' := snd (breaker.on_stat
                              (RollingWindow_Add (inject_Z c) t1 t2) b) in
             Forall tally (buckets (win (breaker.stat b')))
             /\ count_sum (buckets (win (breaker.stat b'))) <= Z.of_nat (S n)).
  { clear n b. intros n c t1 t2 b Hreach Hc Hn [Hall Hsum].
    pose proof (reachable_ok _ _ Hreach) as Hok.
    destruct (mark_ok (Z.of_nat n) c t1 t2 b ltac:(lia) Hc Hok)
      as (bs & bk & Hrs & _ & Hbk & Hrun & _).
    cbv zeta. rewrite Hrun. simpl.
    destruct (reset_some_count _ _ Hrs Hall) as [Hall' Hsum'].
    pose proof (count_sum_lookup _ _ _ Hall' Hbk) as Hle.
    assert (Hbkt : tally bk) by (rewrite Forall_lookup in Hall'; eauto).
    destruct Hbkt as (m & Hm & Hmr).
    assert (Hcnt : add64 (Count bk) 1 = Count bk + 1).
    { unfold add64. apply wrap64_small. unfold int64_min, int64_max in *. lia. }
    split.
    - apply Forall_insert; [assumption|].
      exists (m + c). simpl. rewrite Hm, Qred_inject_add, Hcnt.
      split; [reflexivity|lia].
    - rewrite (count_sum_insert _ _ _ _ Hbk). simpl. rewrite Hcnt. lia. }
  induction 1 as [now b Hnew|n b now draw Hr IH|n b t1 t2 Hr IH|n b t1 t2 Hr IH];
    intros Hn.
  - unfold breaker.newGoogleBreaker, NewRollingWindow in Hnew. simpl in Hnew.
    inversion Hnew; subst b. cbn [breaker.stat win]. unfold newWindow.
    cbn [buckets]. split.
    + apply Forall_replicate. apply tally_zero.
    + rewrite count_sum_replicate. lia.
  - rewrite accept_unchanged. apply IH. assumption.
  - apply (Hmark n 1 t1 t2 b Hr ltac:(lia) Hn). apply IH. lia.
  - apply (Hmark n 0 t1 t2 b Hr ltac:(lia) Hn). apply IH. lia.
Qed.

Lemma count_at_insert_ne bs i b js :
  0 <= i -> Forall (fun j => 0 <= j /\ j <> i) js ->
  count_at (<[Z.to_nat i := b]> bs) js = count_at bs js.
Proof.
  intros Hi. induction 1 as [|j js [Hj Hne] _ IH]; simpl; [reflexivity|].
  rewrite IH, bucket_at_insert_ne by lia. reflexivity.
Qed.

(** Distinct indices count each bucket at most once. *)
Lemma count_at_le js :
  forall bs,
    NoDup js -> Forall (fun j => 0 <= j < Z.of_nat (length bs)) js ->
    Forall tally bs ->
    0 <= count_at bs js <= count_sum bs.
Proof.
  induction js as [|j js IH]; intros bs Hnd Hrange Hall; simpl.
  - pose proof (count_sum_nonneg bs Hall). lia.
  - inversion Hnd as [|? ? Hnotin Hnd']; subst.
    inversion Hrange as [|? ? Hj Hrange']; subst.
    set (bs0 := <[Z.to_nat j := mkBucket 0 0]> bs).
    assert (Hall0 : Forall tally bs0)
      by (apply Forall_insert; [assumption|apply tally_zero]).
    assert (Hrange0 : Forall (fun j => 0 <= j < Z.of_nat (length bs0)) js)
      by (unfold bs0; rewrite length_insert; assumption).
    destruct (IH bs0 Hnd' Hrange0 Hall0) as [H1 H2].
    assert (E : count_at bs0 js = count_at bs js).
    { apply count_at_insert_ne; [lia|].
      apply Forall_forall. intros j' Hj'. split.
      - rewrite Forall_forall in Hrange'. apply Hrange' in Hj'. lia.
      - intros ->. contradiction. }
    pose proof (bucket_at_is_lookup bs j Hj) as Hb.
    rewrite E in H1, H2. unfold bs0 in H2. rewrite (count_sum_insert _ _ _ _ Hb) in H2.
    simpl in H2.
    pose proof (tally_count _ (bucket_at_tally bs j Hall)). lia.
Qed.

Lemma history_fold_tally bs :
  Forall tally bs ->
  forall js a t,
    0 <= a <= t -> t + count_at bs js <= int64_max ->
    let r := fold_left (history_step bs) js (a, t) in
    0 <= fst r <= snd r /\ snd r = t + count_at bs js.
Proof.
  intros Hall. induction js as [|j js IH]; intros a t Ha Ht; simpl.
  - split; [assumption|lia].
  - simpl in Ht.
    destruct (bucket_at_tally bs j Hall) as (m & Hm & Hmr).
    assert (Hjs : 0 <= count_at bs js).
    { clear - Hall. induction js as [|j' js IH]; simpl; [lia|].
      pose proof (tally_count _ (bucket_at_tally bs j' Hall)). lia. }
    assert (Hstep : history_step bs (a, t) j
                    = (a + m, t + Count (bucket_at bs j))).
    { unfold history_step, breaker.history_fn. simpl.
      rewrite Hm, int64_of_float_inject.
      rewrite (wrap64_small m) by (unfold int64_min, int64_max in *; lia).
      unfold add64.
      rewrite !wrap64_small by (unfold int64_min, int64_max in *; lia).
      reflexivity. }
    rewrite Hstep.
    destruct (IH (a + m) (t + Count (bucket_at bs j)) ltac:(lia) ltac:(lia))
      as [H1 H2].
    split; [exact H1|]. rewrite H2. lia.
Qed.

(** X14. [history] never reports more outcomes than were recorded, nor
    more accepts than outcomes: for a breaker that has recorded [n]
    outcomes (within int64) it returns [accepts] and [total] with
    [0 <= accepts <= total <= n], at any clock reading. *)
Theorem history_counts_recorded_outcomes n b now :
  reachable n b -> Z.of_nat n <= int64_max ->
  exists accepts total,
    breaker.googleBreaker_history now b = (Ok (accepts, total), b)
    /\ 0 <= accepts <= total /\ total <= Z.of_nat n.
Proof.
  intros Hreach Hn. pose proof (reachable_ok _ _ Hreach) as Hok.
  destruct (reachable_tally n b Hreach Hn) as [Hall Hsum].
  pose proof (bk_rw _ _ Hok) as Hrw.
  pose proof Hrw as [Hsize Hwsize Hlen Hoff].
  rewrite (history_run _ now b Hok).
  pose proof (visited_NoDup (breaker.stat b) now Hrw) as Hnd.
  pose proof (visited_in_range (breaker.stat b) now Hrw) as Hrange.
  rewrite <- Hlen in Hrange.
  pose proof (count_at_le _ _ Hnd Hrange Hall) as Hle.
  destruct (history_fold_tally _ Hall (visited (breaker.stat b) now) 0 0
              ltac:(lia) ltac:(lia)) as [H1 H2].
  destruct (fold_left _ _ (0, 0)) as [accepts total]. simpl in *.
  exists accepts, total. split; [reflexivity|]. lia.
Qed.

Lemma history_counts_recorded_outcomes_witness :
  let b := snd (breaker.googleBreaker_markSuccess 1200 1201
             (snd (breaker.googleBreaker_markFailure 1100 1101
                {| breaker.gb_k := breaker.k;
                   breaker.stat :=
                     {| size := 40; win := newWindow 40;
                        interval := 250000000; offset := 0;
                        ignoreCurrent := false; lastTime := 1000 |} |}))) in
  exists accepts total,
    breaker.googleBreaker_history 1300 b = (Ok (accepts, total), b)
    /\ 0 <= accepts <= total /\ total <= 2.
Proof.
  intros b.
  apply (history_counts_recorded_outcomes 2 b 1300).
  - apply reach_success, reach_failure. apply (reach_new 1000). reflexivity.
  - apply Z.leb_le. reflexivity.
Defined.

End Tallies.

(** ** The bloom filter: the checks before the store is asked *)

Section BloomChecks.

Import bloom.

Lemma buildOffsetArgs_loop_decides r offsets :
  forall args,
    buildOffsetArgs_loop r offsets args
    = if forallb (fun o => o <? rbits r) offsets
      then (args ++ map FormatUint offsets, None)
      else ([], Some ErrTooLargeOffset).
Proof.
  induction offsets as [|o offsets IH]; intros args; simpl.
  - rewrite app_nil_r. reflexivity.
  - rewrite Z.leb_antisym. destruct (o <? rbits r); simpl; [|reflexivity].
    rewrite IH, <- app_assoc. reflexivity.
Qed.

(** X15. [buildOffsetArgs] accepts a list of offsets exactly when every
    offset is below [bits], and then returns their decimal strings in
    order; as soon as one offset is not below [bits] the result is
    [ErrTooLargeOffset] with no arguments, and [set] and [check]
    return that error without asking the store. *)
Theorem buildOffsetArgs_checks_every_offset r offsets :
  redisBitSet_buildOffsetArgs r offsets
  = (if forallb (fun o => o <? rbits r) offsets
     then (map FormatUint offsets, None)
     else ([], Some ErrTooLargeOffset))
  /\ (forallb (fun o => o <? rbits r) offsets = false ->
      forall Eval,
        redisBitSet_set Eval r offsets = Some ErrTooLargeOffset
        /\ redisBitSet_check Eval r offsets
           = (false, Some ErrTooLargeOffset)).
Proof.
  assert (H : redisBitSet_buildOffsetArgs r offsets
              = if forallb (fun o => o <? rbits r) offsets
                then (map FormatUint offsets, None)
                else ([], Some ErrTooLargeOffset))
    by (unfold redisBitSet_buildOffsetArgs;
        rewrite buildOffsetArgs_loop_decides; reflexivity).
  split; [exact H|]. intros Hbad Eval.
  unfold redisBitSet_set, redisBitSet_check. rewrite H, Hbad.
  split; reflexivity.
Qed.

Lemma buildOffsetArgs_checks_every_offset_witness :
  redisBitSet_buildOffsetArgs (newRedisBitSet "k" 100) [3; 100; 7]
  = ([], Some ErrTooLargeOffset)
  /\ redisBitSet_set (fun _ _ _ => (Some 1, None))
       (newRedisBitSet "k" 100) [3; 100; 7]
     = Some ErrTooLargeOffset.
Proof.
  destruct (buildOffsetArgs_checks_every_offset
              (newRedisBitSet "k" 100) [3; 100; 7]) as [H1 H2].
  split; [exact H1|].
  destruct (H2 eq_refl (fun _ _ _ => (Some 1, None))) as [H3 _]. exact H3.
Defined.

(** X16. [New] does not check [bits], and zero is the only size on
    which the filter panics: with [bits = 0], [getLocations] panics
    with an integer division by zero, and so do [Add] and [Exists],
    whatever the hash function and before the store is asked; with
    [bits > 0] none of the three panics, whatever the store answers. *)
Theorem filter_panics_only_on_zero_bits (Hash : list Byte.byte -> Z)
    (Eval : script -> list string -> list string -> option Z * error)
    f data :
  (bits f = 0 ->
   Filter_getLocations Hash f data = Panic DivideByZero
   /\ Filter_Add Hash Eval f data = Panic DivideByZero
   /\ Filter_Exists Hash Eval f data = Panic DivideByZero)
  /\ (0 < bits f ->
      Filter_getLocations Hash f data
      = Ok (locations_of Hash (bits f) data)
      /\ (exists e, Filter_Add Hash Eval f data = Ok e)
      /\ (exists r, Filter_Exists Hash Eval f data = Ok r)).
Proof.
  split; intros Hb.
  - destruct f as [n r]. simpl in Hb. subst n. repeat split; reflexivity.
  - assert (Hrun : Filter_getLocations Hash f data
                   = Ok (locations_of Hash (bits f) data))
      by (apply getLocations_run; lia).
    split; [exact Hrun|]. unfold Filter_Add, Filter_Exists. rewrite Hrun.
    split; [eexists; reflexivity|].
    destruct (redisBitSet_check Eval (bitSet f) _) as [isSet [e|]];
      eexists; reflexivity.
Qed.

Lemma filter_panics_only_on_zero_bits_witness :
  Filter_Add (fun l => 7 + 1000 * Z.of_nat (length l))
    (fun _ _ _ => (Some 1, None)) (New "k" 0) [Byte.x61]
  = Panic DivideByZero
  /\ exists r,
       Filter_Exists (fun l => 7 + 1000 * Z.of_nat (length l))
         (fun _ _ _ => (Some 1, None)) (New "k" 100) [Byte.x61]
       = Ok r.
Proof.
  split.
  - destruct (filter_panics_only_on_zero_bits
                (fun l => 7 + 1000 * Z.of_nat (length l))
                (fun _ _ _ => (Some 1, None)) (New "k" 0) [Byte.x61])
      as [H _].
    destruct (H eq_refl) as (_ & H2 & _). exact H2.
  - destruct (filter_panics_only_on_zero_bits
                (fun l => 7 + 1000 * Z.of_nat (length l))
                (fun _ _ _ => (Some 1, None)) (New "k" 100) [Byte.x61])
      as [_ H].
    destruct (H ltac:(apply Z.ltb_lt; reflexivity)) as (_ & _ & H3). exact H3.
Defined.

End BloomChecks.

(** ** The registry of named breakers *)

Section RegistryProperties.

Import breakers.

Context {Breaker : Type}.

Lemma GetBreaker_bound name fresh others (bs : registry Breaker) b :
  bs !! name = Some b ->
  GetBreaker Breaker name fresh others bs = (Ok b, bs).
Proof.
  intros H. unfold GetBreaker, bind, get. rewrite H. reflexivity.
Qed.

(** X17. [GetBreaker] makes at most one breaker per name.  It returns
    the breaker registered under the name and registers [NewBreaker]'s
    only when the name is still free once the write lock is held, so a
    breaker that another goroutine registered in between is kept; in
    every case the name is bound afterwards to the breaker returned,
    and every later [GetBreaker] and [do] for that name get the same
    breaker and leave the map alone. *)
Theorem GetBreaker_registers_once name fresh others (bs : registry Breaker) :
  exists b,
    fst (GetBreaker Breaker name fresh others bs) = Ok b
    /\ snd (GetBreaker Breaker name fresh others bs) !! name = Some b
    /\ (forall b0, bs !! name = Some b0 ->
          b = b0 /\ snd (GetBreaker Breaker name fresh others bs) = bs)
    /\ (forall b0, bs !! name = None -> others bs !! name = Some b0 ->
          b = b0
          /\ snd (GetBreaker Breaker name fresh others bs) = others bs)
    /\ (bs !! name = None -> others bs !! name = None ->
          b = fresh
          /\ snd (GetBreaker Breaker name fresh others bs)
             = <[name := fresh]> (others bs))
    /\ (forall fresh' others',
          GetBreaker Breaker name fresh' others'
            (snd (GetBreaker Breaker name fresh others bs))
          = (Ok b, snd (GetBreaker Breaker name fresh others bs)))
    /\ (forall (E : Type) (execute : Breaker -> E) fresh' others',
          do Breaker name execute fresh' others'
            (snd (GetBreaker Breaker name fresh others bs))
          = (Ok (execute b), snd (GetBreaker Breaker name fresh others bs))).
Proof.
  assert (Hgen : forall b bs',
             GetBreaker Breaker name fresh others bs = (Ok b, bs') ->
             bs' !! name = Some b ->
             (forall fresh' others',
                GetBreaker Breaker name fresh' others' bs' = (Ok b, bs'))
             /\ (forall (E : Type) (execute : Breaker -> E) fresh' others',
                   do Breaker name execute fresh' others' bs'
                   = (Ok (execute b), bs'))).
  { intros b bs' _ Hb. split.
    - intros fresh' others'. apply GetBreaker_bound. assumption.
    - intros E execute fresh' others'. unfold do.
      rewrite (bind_run_ok _ _ _ _ _ (GetBreaker_bound name fresh' others' bs' b Hb)).
      reflexivity. }
  destruct (bs !! name) as [b0|] eqn:E1.
  - assert (Hrun : GetBreaker Breaker name fresh others bs = (Ok b0, bs))
      by (apply GetBreaker_bound; assumption).
    destruct (Hgen b0 bs Hrun E1) as [H1 H2].
    exists b0. rewrite Hrun. simpl.
    split; [reflexivity|]. split; [assumption|].
    split; [intros b1 Hb1; inversion Hb1; subst; split; reflexivity|].
    split; [intros b1 Hb1; discriminate Hb1|].
    split; [intros Hb1; discriminate Hb1|].
    split; assumption.
  - destruct (others bs !! name) as [b1|] eqn:E2.
    + assert (Hrun : GetBreaker Breaker name fresh others bs
                     = (Ok b1, others bs)).
      { unfold GetBreaker, bind, get, put. rewrite E1. simpl. rewrite E2.
        reflexivity. }
      destruct (Hgen b1 (others bs) Hrun E2) as [H1 H2].
      exists b1. rewrite Hrun. simpl.
      split; [reflexivity|]. split; [assumption|].
      split; [intros b2 Hb2; discriminate Hb2|].
      split; [intros b2 _ Hb2; inversion Hb2; subst; split; reflexivity|].
      split; [intros _ Hb2; discriminate Hb2|].
      split; assumption.
    + assert (Hrun : GetBreaker Breaker name fresh others bs
                     = (Ok fresh, <[name := fresh]> (others bs))).
      { unfold GetBreaker, bind, get, put. rewrite E1. simpl. rewrite E2.
        reflexivity. }
      assert (Hb : <[name := fresh]> (others bs) !! name = Some fresh)
        by apply (lookup_insert_eq (M := gmap string)).
      destruct (Hgen fresh _ Hrun Hb) as [H1 H2].
      exists fresh. rewrite Hrun. simpl.
      split; [reflexivity|]. split; [assumption|].
      split; [intros b2 Hb2; discriminate Hb2|].
      split; [intros b2 _ Hb2; discriminate Hb2|].
      split; [intros _ _; split; reflexivity|].
      split; assumption.
Qed.

(** X18. [NoBreakerFor] binds the name to the no-op breaker, replacing
    a breaker registered before and leaving the other names alone;
    [GetBreaker] then returns the no-op breaker and makes no new one. *)
Theorem NoBreakerFor_overrides name noop (bs : registry Breaker) :
  exists bs',
    NoBreakerFor Breaker name noop bs = (Ok tt, bs')
    /\ bs' !! name = Some noop
    /\ (forall other, other <> name -> bs' !! other = bs !! other)
    /\ (forall fresh others,
          GetBreaker Breaker name fresh others bs' = (Ok noop, bs')).
Proof.
  exists (<[name := noop]> bs).
  split; [reflexivity|].
  split; [apply (lookup_insert_eq (M := gmap string))|].
  split; [intros other Hne; apply (lookup_insert_ne (M := gmap string)); congruence|].
  intros fresh others. apply GetBreaker_bound. apply (lookup_insert_eq (M := gmap string)).
Qed.

End RegistryProperties.

(** ** The bloom filter on a redis server *)

Section BloomOnRedis.

Import bloom.

Variable Hash : list Byte.byte -> Z.

Lemma parse_FormatUint o :
  0 <= o < 2 ^ 32 -> redis.parse_offset (FormatUint o) = Some o.
Proof.
  intros Ho. unfold redis.parse_offset, FormatUint.
  rewrite NilZero.usu.
  - rewrite DecimalN.Unsigned.of_to, Z2N.id by lia.
    fold (FormatUint o). rewrite String.eqb_refl.
    destruct (o <? 2 ^ 32) eqn:E; [reflexivity|zbool; lia].
  - destruct (Z.to_N o) as [|p]; simpl; [discriminate|].
    apply DecimalPos.Unsigned.to_uint_nonnil.
Qed.

Lemma getbit_setbit d key o key' o' :
  redis.getbit (redis.setbit d key o) key' o'
  = if String.eqb key key' && (o =? o') then 1 else redis.getbit d key' o'.
Proof.
  unfold redis.getbit, redis.setbit. simpl.
  destruct (String.eqb key key' && (o =? o')); reflexivity.
Qed.

Lemma getbit_cases d key o : redis.getbit d key o = 0 \/ redis.getbit d key o = 1.
Proof. unfold redis.getbit. destruct (existsb _ d); [right|left]; reflexivity. Qed.

Lemma holds_bits_of_refl d : holds_bits_of d d.
Proof. intros key o H. exact H. Qed.

Lemma holds_bits_of_trans d1 d2 d3 :
  holds_bits_of d1 d2 -> holds_bits_of d2 d3 -> holds_bits_of d1 d3.
Proof. intros H1 H2 key o H. apply H2, H1, H. Qed.

Lemma holds_bits_of_setbit d key o : holds_bits_of d (redis.setbit d key o).
Proof.
  intros key' o' H. rewrite getbit_setbit.
  destruct (String.eqb key key' && (o =? o')); [reflexivity|assumption].
Qed.

(** [setScript] on the arguments of in-range offsets. *)
Lemma run_setScript_ok key offsets :
  Forall (fun o => 0 <= o < 2 ^ 32) offsets ->
  forall d,
    exists d',
      redis.run_setScript (Some key) (map FormatUint offsets) d
      = ((None, Some redis_Nil), d')
      /\ holds_bits_of d d'
      /\ Forall (fun o => redis.getbit d' key o = 1) offsets.
Proof.
  induction 1 as [|o offsets Ho _ IH]; intros d; simpl.
  - exists d. split; [reflexivity|]. split; [apply holds_bits_of_refl|constructor].
  - unfold redis.call_setbit. rewrite (parse_FormatUint o Ho).
    destruct (IH (redis.setbit d key o)) as (d' & E & Hext & Hall).
    exists d'. split; [exact E|]. split.
    + eapply holds_bits_of_trans; [apply holds_bits_of_setbit|exact Hext].
    + constructor; [|exact Hall]. apply Hext. rewrite getbit_setbit.
      rewrite String.eqb_refl, Z.eqb_refl. reflexivity.
Qed.

(** [testScript] answers for the conjunction of the bits. *)
Lemma run_testScript_ok key offsets d :
  Forall (fun o => 0 <= o < 2 ^ 32) offsets ->
  redis.run_testScript (Some key) (map FormatUint offsets) d
  = if forallb (fun o => redis.getbit d key o =? 1) offsets
    then (Some 1, None)
    else (None, Some redis_Nil).
Proof.
  induction 1 as [|o offsets Ho _ IH]; simpl; [reflexivity|].
  unfold redis.call_getbit. rewrite (parse_FormatUint o Ho).
  destruct (getbit_cases d key o) as [E|E]; rewrite E; simpl;
    [reflexivity|exact IH].
Qed.

Lemma locations_below bits data :
  0 < bits <= 2 ^ 32 ->
  Forall (fun o => 0 <= o < 2 ^ 32) (locations_of Hash bits data).
Proof.
  intros Hb. destruct (locations_in_range Hash bits data ltac:(lia)) as [_ H].
  eapply Forall_impl; [exact H|]. simpl. intros o Ho. lia.
Qed.

Lemma Add_on key nbits data d :
  0 < nbits ->
  Filter_Add Hash (answers d) (New key nbits) data
  = Ok (match snd (answers d setScript [key]
                     (map FormatUint (locations_of Hash nbits data))) with
        | Some redis_Nil => None
        | e => e
        end).
Proof.
  intros Hb. unfold Filter_Add.
  rewrite getLocations_run by (simpl; lia). simpl bits.
  unfold redisBitSet_set, redisBitSet_buildOffsetArgs.
  rewrite buildOffsetArgs_loop_ok.
  - cbn [bitSet New newRedisBitSet bloom.key app].
    destruct (answers d setScript _ _) as [resp [[| |]|]]; reflexivity.
  - destruct (locations_in_range Hash nbits data Hb) as [_ H].
    eapply Forall_impl; [exact H|]. simpl. intros; lia.
Qed.

Lemma Exists_on key nbits data d :
  0 < nbits <= 2 ^ 32 ->
  Filter_Exists Hash (answers d) (New key nbits) data
  = Ok (forallb (fun o => redis.getbit d key o =? 1)
          (locations_of Hash nbits data), None).
Proof.
  intros Hb. unfold Filter_Exists.
  rewrite getLocations_run by (simpl; lia). simpl bits.
  unfold redisBitSet_check, redisBitSet_buildOffsetArgs.
  rewrite buildOffsetArgs_loop_ok.
  - cbn [bitSet New newRedisBitSet bloom.key app]. unfold answers, redis.Eval.
    cbn [hd_error fst].
    rewrite run_testScript_ok by (apply locations_below; assumption).
    destruct (forallb _ _); reflexivity.
  - destruct (locations_in_range Hash nbits data ltac:(lia)) as [_ H].
    eapply Forall_impl; [exact H|]. simpl. intros; lia.
Qed.

(** X19. No false negatives: on a filter of at most 2^32 bits [Add]
    succeeds, and once the server has run its script [Exists] finds
    the data, on that server and on every later one that still holds
    the bits (whatever else was added under any key). *)
Theorem added_data_is_found key nbits data d :
  0 < nbits <= 2 ^ 32 ->
  let f := New key nbits in
  let d' :=
    snd (redis.Eval setScript [key]
           (map FormatUint (locations_of Hash nbits data)) d) in
  Filter_Add Hash (answers d) f data = Ok None
  /\ holds_bits_of d d'
  /\ forall d'',
       holds_bits_of d' d'' ->
       Filter_Exists Hash (answers d'') f data = Ok (true, None).
Proof.
  intros Hb f d'.
  destruct (run_setScript_ok key (locations_of Hash nbits data)
              (locations_below nbits data Hb) d) as (d1 & E & Hext & Hall).
  assert (Hd' : d' = d1) by (unfold d', redis.Eval; cbn [hd_error]; rewrite E; reflexivity).
  split; [|split].
  - unfold f. rewrite Add_on by lia. unfold answers, redis.Eval.
    cbn [hd_error]. rewrite E. reflexivity.
  - rewrite Hd'. exact Hext.
  - intros d'' Hext'. unfold f. rewrite Exists_on by assumption.
    rewrite Hd' in Hext'.
    assert (Hf : forallb (fun o => redis.getbit d'' key o =? 1)
                   (locations_of Hash nbits data) = true).
    { apply forallb_forall. intros o Ho. apply Z.eqb_eq, Hext'.
      rewrite Forall_forall in Hall. apply Hall, list_elem_of_In, Ho. }
    rewrite Hf. reflexivity.
Qed.

(** X20. [Exists] answers true exactly when the server holds a 1 at
    every one of the 14 offsets of the data, and false without an
    error otherwise; on a server without bits it finds nothing. *)
Theorem Exists_tests_every_bit key nbits data d :
  0 < nbits <= 2 ^ 32 ->
  Filter_Exists Hash (answers d) (New key nbits) data
  = Ok (forallb (fun o => redis.getbit d key o =? 1)
          (locations_of Hash nbits data), None)
  /\ Filter_Exists Hash (answers []) (New key nbits) data = Ok (false, None).
Proof.
  intros Hb. split; [apply Exists_on; assumption|].
  rewrite Exists_on by assumption. reflexivity.
Qed.

End BloomOnRedis.

Lemma added_data_is_found_witness :
  let Hash := fun l : list Byte.byte => 7 + 1000 * Z.of_nat (length l) in
  let d' :=
    snd (redis.Eval bloom.setScript ["k"%string]
           (map bloom.FormatUint (locations_of Hash 100 [Byte.x61])) []) in
  bloom.Filter_Add Hash (answers []) (bloom.New "k" 100) [Byte.x61] = Ok None
  /\ bloom.Filter_Exists Hash (answers d') (bloom.New "k" 100) [Byte.x61]
     = Ok (true, None).
Proof.
  intros Hash d'.
  destruct (added_data_is_found Hash "k" 100 [Byte.x61] []) as (H1 & _ & H2).
  - split; [apply Z.ltb_lt|apply Z.leb_le]; reflexivity.
  - split; [exact H1|]. apply H2. intros key o H. exact H.
Defined.

Lemma Exists_tests_every_bit_witness :
  let Hash := fun l : list Byte.byte => 7 + 1000 * Z.of_nat (length l) in
  bloom.Filter_Exists Hash (answers []) (bloom.New "k" 100) [Byte.x61]
  = Ok (false, None).
Proof.
  intros Hash.
  destruct (Exists_tests_every_bit Hash "k" 100 [Byte.x61] []) as [_ H].
  - split; [apply Z.ltb_lt|apply Z.leb_le]; reflexivity.
  - exact H.
Defined.

(** ** Operations that cannot fail *)

Section NeverPanics.

Import collection.

Lemma Add_keeps_interval v t1 t2 rw :
  rw_ok rw -> interval (snd (RollingWindow_Add v t1 t2 rw)) = interval rw.
Proof.
  intros Hok. destruct (Z.eq_dec (interval rw) 0) as [Hz|Hnz].
  - rewrite Add_panic by assumption. reflexivity.
  - destruct (Add_spec v t1 t2 rw Hok Hnz) as (bs & b & _ & _ & _ & ->).
    reflexivity.
Qed.

Lemma run_adds_ok adds :
  forall rw,
    rw_ok rw ->
    rw_ok (run_adds adds rw)
    /\ interval (run_adds adds rw) = interval rw
    /\ size (run_adds adds rw) = size rw.
Proof.
  induction adds as [|[[v t1] t2] adds IH]; intros rw Hok.
  - split; [assumption|]. split; reflexivity.
  - rewrite run_adds_cons.
    destruct (IH _ (Add_ok v t1 t2 rw Hok)) as (H1 & H2 & H3).
    split; [assumption|]. rewrite H2, H3, Add_keeps_interval by assumption.
    split; [reflexivity|].
    destruct (Z.eq_dec (interval rw) 0) as [Hz|Hnz].
    + rewrite Add_panic by assumption. reflexivity.
    + destruct (Add_spec v t1 t2 rw Hok Hnz) as (bs & b & _ & _ & _ & ->).
      reflexivity.
Qed.

(** [Reduce] with any callback, on a well-formed window. *)
Lemma Reduce_runs {A : Type} (fn : Bucket -> A -> Bucket * A) acc now rw :
  rw_ok rw -> interval rw <> 0 ->
  exists r, fst (RollingWindow_Reduce fn acc now rw) = Ok r.
Proof.
  intros Hok Hi. pose proof Hok as [Hsize Hwsize Hlen Hoff].
  pose proof (span_val_range rw now ltac:(lia)) as Hsp.
  unfold RollingWindow_Reduce.
  rewrite (bind_run_ok _ _ _ _ _ (span_run now rw Hi)).
  rewrite (bind_run_ok get _ rw rw rw eq_refl).
  set (diff := if (span_val rw now =? 0) && ignoreCurrent rw
               then sub64 (size rw) 1 else sub64 (size rw) (span_val rw now)).
  assert (Hd : diff <= size rw).
  { unfold diff, sub64.
    destruct (_ && _);
      rewrite wrap64_small by (unfold int64_min, int64_max; lia); lia. }
  destruct (0 <? diff) eqn:E; [|exists acc; reflexivity]. zbool.
  unfold bind, rem64.
  destruct (size rw =? 0) eqn:E0; [zbool; lia|]. unfold ret, on_win, zoom.
  unfold add64.
  rewrite (wrap64_small (offset rw + span_val rw now))
    by (unfold int64_min, int64_max; lia).
  rewrite wrap64_small by (unfold int64_min, int64_max; lia).
  set (start := Z.rem (offset rw + span_val rw now + 1) (size rw)).
  assert (Hstart : 0 <= start < size rw) by (apply rem_index_range; lia).
  rewrite window_reduce_body.
  destruct (for_loop_ok
              (fun w => w_size w = size rw
                        /\ Z.of_nat (length (buckets w)) = size rw)
              (reduce_body fn start) (Z.to_nat diff) 0 acc (win rw))
    as (r & w' & Eloop & _).
  - intros j a w Hj [Hw Hl].
    assert (Hadd : add64 start j = start + j)
      by (unfold add64; apply wrap64_small;
          unfold int64_min, int64_max; lia).
    assert (Hidx : 0 <= Z.rem (add64 start j) (w_size w) < size rw)
      by (rewrite Hadd, Hw; apply rem_index_range; lia).
    destruct (lookup_lt_is_Some_2 (buckets w)
                (Z.to_nat (Z.rem (add64 start j) (w_size w)))) as [b Hb];
      [lia|].
    rewrite (reduce_body_ok fn start j a w b ltac:(lia) ltac:(lia) Hb).
    eexists. eexists. split; [reflexivity|]. simpl.
    rewrite length_insert. split; assumption.
  - split; assumption.
  - rewrite Eloop. exists r. reflexivity.
Qed.

(** X21. A window made by [NewRollingWindow] with a non-zero interval
    never panics: after any sequence of [Add] calls, at any clock
    readings, the next [Add] and the next [Reduce] (with any callback)
    return, and the slice still has [size] buckets.  The only panic of
    the constructor is the one for a size below 1. *)
Theorem constructed_window_never_panics sz iv opts now adds rw :
  Forall (fun o => o = IgnoreCurrentBucket) opts ->
  NewRollingWindow sz iv opts now = Ok rw ->
  sz < 2 ^ 62 -> iv <> 0 ->
  1 <= sz
  /\ Z.of_nat (length (buckets (win (run_adds adds rw)))) = sz
  /\ (forall v t1 t2,
        fst (RollingWindow_Add v t1 t2 (run_adds adds rw)) = Ok tt)
  /\ (forall (A : Type) (fn : Bucket -> A -> Bucket * A) acc t,
        exists r,
          fst (RollingWindow_Reduce fn acc t (run_adds adds rw)) = Ok r)
  /\ (forall sz', sz' < 1 ->
        NewRollingWindow sz' iv opts now
        = Panic (PanicValue "size must be greater than 0")).
Proof.
  intros Hopts Hnew Hsz Hiv.
  destruct (NewRollingWindow_ok sz iv opts now rw Hopts Hnew Hsz)
    as (Hok & Hs & Hi & _).
  destruct (run_adds_ok adds rw Hok) as (Hok' & Hi' & Hs').
  pose proof Hok' as [Hsize Hwsize Hlen Hoff].
  split; [lia|]. split; [lia|]. split; [|split].
  - intros v t1 t2.
    destruct (Add_spec v t1 t2 _ Hok' ltac:(congruence))
      as (bs & b & _ & _ & _ & ->).
    reflexivity.
  - intros A fn acc t. apply Reduce_runs; [assumption|congruence].
  - intros sz' Hsz'. unfold NewRollingWindow.
    destruct (sz' <? 1) eqn:E; [reflexivity|zbool; lia].
Qed.

Lemma constructed_window_never_panics_witness :
  let rw := {| size := 3; win := newWindow 3; interval := 10; offset := 0;
               ignoreCurrent := true; lastTime := 100 |} in
  let adds := [(1%Q, 105, 105); (1%Q, 212, 213); (1%Q, 90, 91)] in
  1 <= 3
  /\ Z.of_nat (length (buckets (win (run_adds adds rw)))) = 3
  /\ (forall v t1 t2,
        fst (RollingWindow_Add v t1 t2 (run_adds adds rw)) = Ok tt)
  /\ (forall (A : Type) (fn : Bucket -> A -> Bucket * A) acc t,
        exists r,
          fst (RollingWindow_Reduce fn acc t (run_adds adds rw)) = Ok r)
  /\ (forall sz', sz' < 1 ->
        NewRollingWindow sz' 10 [IgnoreCurrentBucket] 100
        = Panic (PanicValue "size must be greater than 0")).
Proof.
  intros rw adds.
  apply (constructed_window_never_panics 3 10 [IgnoreCurrentBucket] 100
           adds rw).
  - repeat constructor.
  - reflexivity.
  - apply Z.ltb_lt. reflexivity.
  - discriminate.
Defined.

(** X22. The breaker's own code never panics: in every state reached
    from [newGoogleBreaker] by recording outcomes, [accept] returns
    and leaves the breaker as it is, [markSuccess] and [markFailure]
    return, and the window keeps its 40 buckets of 250 ms with the
    offset inside the slice. *)
Theorem breaker_never_panics n b :
  reachable n b ->
  (forall now draw,
     exists e, breaker.googleBreaker_accept now draw b = (Ok e, b))
  /\ (forall t1 t2, fst (breaker.googleBreaker_markSuccess t1 t2 b) = Ok tt)
  /\ (forall t1 t2, fst (breaker.googleBreaker_markFailure t1 t2 b) = Ok tt)
  /\ size (breaker.stat b) = 40
  /\ length (buckets (win (breaker.stat b))) = 40%nat
  /\ interval (breaker.stat b) * size (breaker.stat b) = breaker.window
  /\ 0 <= offset (breaker.stat b) < 40.
Proof.
  intros Hreach. pose proof (reachable_ok _ _ Hreach) as Hok.
  pose proof Hok as [Hk Hrw Hsz Hiv Hig Hsums].
  pose proof Hrw as [Hsize Hwsize Hlen Hoff].
  unfold breaker.buckets in Hsz.
  split; [|split; [|split; [|split; [|split; [|split]]]]].
  - intros now draw.
    pose proof (history_run _ now b Hok) as Hh.
    destruct (fold_left _ _ (0, 0)) as [accepts total].
    eexists. apply (accept_run now draw b accepts total).
    rewrite Hh. reflexivity.
  - intros t1 t2. rewrite (markSuccess_runs n t1 t2 b Hreach). reflexivity.
  - intros t1 t2. rewrite (markFailure_runs n t1 t2 b Hreach). reflexivity.
  - assumption.
  - lia.
  - rewrite Hiv, Hsz. reflexivity.
  - lia.
Qed.

Lemma breaker_never_panics_witness :
  let b := snd (breaker.googleBreaker_markFailure 20000001200 20000001201
             (snd (breaker.googleBreaker_markSuccess 1100 1101
                {| breaker.gb_k := breaker.k;
                   breaker.stat :=
                     {| size := 40; win := newWindow 40;
                        interval := 250000000; offset := 0;
                        ignoreCurrent := false; lastTime := 1000 |} |}))) in
  fst (breaker.googleBreaker_markSuccess 20000001300 20000001301 b) = Ok tt
  /\ 0 <= offset (breaker.stat b) < 40.
Proof.
  intros b.
  destruct (breaker_never_panics 2 b) as (_ & H1 & _ & _ & _ & _ & H2).
  - apply reach_failure, reach_success. apply (reach_new 1000). reflexivity.
  - split; [apply H1|exact H2].
Defined.

End NeverPanics.

(** ** Random strings *)

Section Random.

Import stringx.

Variable Source : Type.
Variable Int63 : Source -> Z * Source.

Lemma letterBytes_length : length letterBytes = 62%nat.
Proof. reflexivity. Qed.

Lemma letter_at idx :
  0 <= idx < 62 ->
  exists x, letterBytes !! Z.to_nat idx = Some x /\ x ∈ letterBytes.
Proof.
  intros H.
  destruct (lookup_lt_is_Some_2 letterBytes (Z.to_nat idx)) as [x Hx].
  - rewrite letterBytes_length. lia.
  - exists x. split; [assumption|]. eapply list_elem_of_lookup_2. eassumption.
Qed.

Lemma idx_nonneg c : 0 <= Z.land c letterIdxMask.
Proof. apply Z.land_nonneg. right. change letterIdxMask with 63. lia. Qed.

(** One round of the loop. *)
Lemma Randn_loop_step fuel i c r b s :
  0 <= i < Z.of_nat (length b) -> i <= int64_max -> 0 <= r <= 10 ->
  exists c1 r1 s1,
    refill Source Int63 c r s = (c1, r1, s1)
    /\ 1 <= r1 <= 10
    /\ (r = 0 -> c1 = fst (Int63 s) /\ r1 = letterIdxMax)
    /\ (r <> 0 -> c1 = c /\ r1 = r)
    /\ ((Z.land c1 letterIdxMask < 62
         /\ exists x,
              x ∈ letterBytes
              /\ Randn_loop Source Int63 (S fuel) i c r b s
                 = Randn_loop Source Int63 fuel (i - 1)
                     (Z.shiftr c1 letterIdxBits) (r1 - 1)
                     (<[Z.to_nat i := x]> b) s1)
        \/ (62 <= Z.land c1 letterIdxMask
            /\ Randn_loop Source Int63 (S fuel) i c r b s
               = Randn_loop Source Int63 fuel i
                   (Z.shiftr c1 letterIdxBits) (r1 - 1) b s1)).
Proof.
  intros Hi Himax Hr.
  assert (Hre : exists c1 r1 s1,
             refill Source Int63 c r s = (c1, r1, s1)
             /\ 1 <= r1 <= 10
             /\ (r = 0 -> c1 = fst (Int63 s) /\ r1 = letterIdxMax)
             /\ (r <> 0 -> c1 = c /\ r1 = r)).
  { unfold refill. destruct (r =? 0) eqn:E; zbool.
    - destruct (Int63 s) as [c' s']. exists c', letterIdxMax, s'.
      split; [reflexivity|]. split; [change letterIdxMax with 10; lia|].
      split; [intros _; split; reflexivity|]. intros H. contradiction.
    - exists c, r, s. split; [reflexivity|]. split; [lia|].
      split; [intros H; contradiction|]. intros _. split; reflexivity. }
  destruct Hre as (c1 & r1 & s1 & Hrefill & Hr1 & H0 & Hn0).
  exists c1, r1, s1. split; [assumption|]. split; [assumption|].
  split; [assumption|]. split; [assumption|].
  assert (Hstep : Randn_loop Source Int63 (S fuel) i c r b s
                  = let idx := Z.land c1 letterIdxMask in
                    if idx <? Z.of_nat (length letterBytes) then
                      match index idx letterBytes with
                      | (Ok x, _) =>
                          match store i x b with
                          | (Ok _, b') =>
                              Randn_loop Source Int63 fuel (sub64 i 1)
                                (Z.shiftr c1 letterIdxBits) (sub64 r1 1) b' s1
                          | (Panic f, _) => (Panic f, s1)
                          end
                      | (Panic f, _) => (Panic f, s1)
                      end
                    else
                      Randn_loop Source Int63 fuel i
                        (Z.shiftr c1 letterIdxBits) (sub64 r1 1) b s1).
  { cbn [Randn_loop]. destruct (0 <=? i) eqn:E; [|zbool; lia].
    fold (refill Source Int63 c r s). rewrite Hrefill. reflexivity. }
  rewrite Hstep. cbv zeta. rewrite letterBytes_length.
  assert (Hsub : sub64 r1 1 = r1 - 1)
    by (apply wrap64_small; unfold int64_min, int64_max; lia).
  assert (Hsubi : sub64 i 1 = i - 1)
    by (apply wrap64_small; unfold int64_min, int64_max in *; lia).
  rewrite Hsub, Hsubi.
  pose proof (idx_nonneg c1) as Hidx.
  destruct (Z.land c1 letterIdxMask <? Z.of_nat 62) eqn:E; zbool.
  - left. split; [lia|].
    destruct (letter_at (Z.land c1 letterIdxMask) ltac:(lia)) as (x & Hx & Hin).
    exists x. split; [assumption|].
    rewrite (index_ok letterBytes _ x Hidx Hx).
    destruct (lookup_lt_is_Some_2 b (Z.to_nat i)) as [y Hy]; [lia|].
    rewrite (store_ok b i x y ltac:(lia) Hy). reflexivity.
  - right. split; [lia|reflexivity].
Qed.

Lemma Randn_loop_done fuel i c r b s :
  i < 0 -> Randn_loop Source Int63 (S fuel) i c r b s = (Ok (Some b), s).
Proof.
  intros Hi. cbn [Randn_loop]. destruct (0 <=? i) eqn:E; [zbool; lia|].
  reflexivity.
Qed.

(** Whatever the source gives, the loop does not panic and what it
    returns is made of letters. *)
Lemma Randn_loop_sound fuel :
  forall i c r b s,
    -1 <= i < Z.of_nat (length b) -> Z.of_nat (length b) <= int64_max ->
    0 <= r <= 10 ->
    (forall k y, b !! k = Some y -> (Z.to_nat (i + 1) <= k)%nat ->
       y ∈ letterBytes) ->
    match Randn_loop Source Int63 fuel i c r b s with
    | (Ok (Some b'), _) =>
        length b' = length b /\ Forall (fun y => y ∈ letterBytes) b'
    | (Ok None, _) => True
    | (Panic _, _) => False
    end.
Proof.
  induction fuel as [|fuel IH]; intros i c r b s Hi Hmax Hr Hinv;
    [exact I|].
  destruct (Z_lt_dec i 0) as [Hneg|Hpos].
  - rewrite Randn_loop_done by assumption. split; [reflexivity|].
    apply Forall_lookup. intros k y Hy. apply (Hinv k y Hy).
    replace (i + 1) with 0 by lia. simpl. lia.
  - destruct (Randn_loop_step fuel i c r b s ltac:(lia) ltac:(lia) Hr)
      as (c1 & r1 & s1 & _ & Hr1 & _ & _ & [[_ (x & Hx & ->)]|[_ ->]]).
    + specialize (IH (i - 1) (Z.shiftr c1 letterIdxBits) (r1 - 1)
                    (<[Z.to_nat i := x]> b) s1).
      rewrite length_insert in IH.
      assert (Hinv' : forall k y,
                 <[Z.to_nat i := x]> b !! k = Some y ->
                 (Z.to_nat (i - 1 + 1) <= k)%nat -> y ∈ letterBytes).
      { intros k y Hy Hk. destruct (Nat.eq_dec k (Z.to_nat i)) as [->|Hne].
        - rewrite list_lookup_insert_eq in Hy by lia.
          inversion Hy; subst. assumption.
        - rewrite list_lookup_insert_ne in Hy by lia.
          apply (Hinv k y Hy). lia. }
      specialize (IH ltac:(lia) Hmax ltac:(lia) Hinv').
      destruct (Randn_loop _ _ fuel _ _ _ _ _) as [[[b'|]|f] s'];
        assumption.
    + apply IH; try lia. assumption.
Qed.

Lemma has_letter_shift c r :
  has_letter c r -> 62 <= Z.land c letterIdxMask ->
  has_letter (Z.shiftr c letterIdxBits) (r - 1).
Proof.
  intros (j & Hj & Hlt) Hbad. rewrite letterBytes_length in Hlt.
  destruct (Z.eq_dec j 0) as [->|Hne].
  - rewrite Z.mul_0_r, Z.shiftr_0_r in Hlt. lia.
  - exists (j - 1). split; [lia|]. rewrite letterBytes_length.
    rewrite Z.shiftr_shiftr by (unfold letterIdxBits; lia).
    replace (letterIdxBits + letterIdxBits * (j - 1))
      with (letterIdxBits * j) by ring.
    assumption.
Qed.

Lemma Randn_start n :
  0 <= n <= int64_max ->
  sub64 n 1 = n - 1
  /\ Z.of_nat (length (replicate (Z.to_nat n) Byte.x00)) = n
  /\ forall k y,
       replicate (Z.to_nat n) Byte.x00 !! k = Some y ->
       (Z.to_nat (n - 1 + 1) <= k)%nat -> y ∈ letterBytes.
Proof.
  intros Hn. split; [|split].
  - apply wrap64_small. unfold int64_min, int64_max in *. lia.
  - rewrite length_replicate. lia.
  - intros k y Hy Hk. apply lookup_lt_Some in Hy.
    rewrite length_replicate in Hy. lia.
Qed.

(** X23. [Randn] panics on a negative length, in [make]; for any other
    length it does not panic, whatever the source gives, and a string
    it returns has [n] bytes, all of them from [letterBytes]. *)
Theorem Randn_is_safe fuel n s :
  (n < 0 ->
   fst (Randn Source Int63 fuel n s)
   = Panic (PanicValue "runtime error: makeslice: len out of range"))
  /\ (0 <= n <= int64_max ->
      match fst (Randn Source Int63 fuel n s) with
      | Ok (Some str) =>
          Z.of_nat (length (list_byte_of_string str)) = n
          /\ Forall (fun y => y ∈ letterBytes) (list_byte_of_string str)
      | Ok None => True
      | Panic _ => False
      end).
Proof.
  split; intros Hn; unfold Randn.
  - destruct (n <? 0) eqn:E; [reflexivity|zbool; lia].
  - destruct (n <? 0) eqn:E; [zbool; lia|]. clear E.
    destruct (Int63 s) as [cache s1].
    destruct (Randn_start n Hn) as (Hsub & Hlen & Hinv). rewrite Hsub.
    pose proof (Randn_loop_sound fuel (n - 1) cache letterIdxMax
                  (replicate (Z.to_nat n) Byte.x00) s1
                  ltac:(lia) ltac:(lia)
                  ltac:(change letterIdxMax with 10; lia) Hinv) as H.
    destruct (Randn_loop _ _ fuel _ _ _ _ _) as [[[b'|]|f] s2]; simpl.
    + rewrite list_byte_of_string_of_list_byte. destruct H as [H1 H2].
      split; [lia|assumption].
    + exact I.
    + exact H.
Qed.

Hypothesis fair : forall s, has_letter (fst (Int63 s)) letterIdxMax.

(** With a source that gives a letter in every value, the loop ends
    within ten rounds a letter. *)
Lemma Randn_loop_returns fuel :
  forall i c r b s,
    -1 <= i < Z.of_nat (length b) -> Z.of_nat (length b) <= int64_max ->
    0 <= r <= 10 ->
    r + 10 * (i + 1) + 1 <= Z.of_nat fuel
    \/ (0 <= i /\ has_letter c r /\ r + 10 * i + 1 <= Z.of_nat fuel) ->
    exists b' s',
      Randn_loop Source Int63 fuel i c r b s = (Ok (Some b'), s').
Proof.
  induction fuel as [|fuel IH]; intros i c r b s Hi Hmax Hr Hfuel.
  - exfalso. destruct Hfuel as [H|(H1 & (j & Hj & _) & H2)]; simpl in *; lia.
  - destruct (Z_lt_dec i 0) as [Hneg|Hpos].
    + rewrite Randn_loop_done by assumption. eauto.
    + destruct (Randn_loop_step fuel i c r b s ltac:(lia) ltac:(lia) Hr)
        as (c1 & r1 & s1 & _ & Hr1 & H0 & Hn0
            & [[Hgood (x & _ & ->)]|[Hbad ->]]).
      * apply IH; rewrite ?length_insert; try lia.
        left. destruct (Z.eq_dec r 0) as [->|Hrn].
        -- destruct (H0 eq_refl) as [_ ->]. change letterIdxMax with 10 in *.
           destruct Hfuel as [H|(_ & (j & Hj & _) & _)]; lia.
        -- destruct (Hn0 Hrn) as [_ ->].
           destruct Hfuel as [H|(_ & _ & H)]; lia.
      * apply IH; try lia.
        destruct (Z.eq_dec r 0) as [->|Hrn].
        -- destruct (H0 eq_refl) as [-> ->]. right.
           split; [lia|]. split.
           ++ apply has_letter_shift; [apply fair|assumption].
           ++ change letterIdxMax with 10 in *.
              destruct Hfuel as [H|(_ & (j & Hj & _) & _)]; lia.
        -- destruct (Hn0 Hrn) as [-> ->].
           destruct Hfuel as [H|(_ & Hl & H)].
           ++ left. lia.
           ++ right. split; [lia|]. split; [|lia].
              apply has_letter_shift; assumption.
Qed.

(** X24. With a source each of whose values holds the index of a
    letter in one of its ten groups of six bits, [Randn(n)] ends within
    [10 * n + 1] rounds of its loop and returns a string of [n] bytes
    from [letterBytes]. *)
Theorem Randn_returns_letters fuel n s :
  0 <= n <= int64_max -> 10 * n + 1 <= Z.of_nat fuel ->
  exists str s',
    Randn Source Int63 fuel n s = (Ok (Some str), s')
    /\ Z.of_nat (length (list_byte_of_string str)) = n
    /\ Forall (fun y => y ∈ letterBytes) (list_byte_of_string str).
Proof.
  intros Hn Hfuel. unfold Randn.
  destruct (n <? 0) eqn:E; [zbool; lia|]. clear E.
  pose proof (fair s) as Hfair.
  destruct (Int63 s) as [cache s1]. simpl in Hfair.
  destruct (Randn_start n Hn) as (Hsub & Hlen & Hinv). rewrite Hsub.
  assert (Hret : exists b' s',
             Randn_loop Source Int63 fuel (n - 1) cache letterIdxMax
               (replicate (Z.to_nat n) Byte.x00) s1
             = (Ok (Some b'), s')).
  { destruct (Z.eq_dec n 0) as [->|Hne].
    - destruct fuel as [|fuel]; [simpl in Hfuel; lia|].
      rewrite Randn_loop_done by lia. eauto.
    - apply Randn_loop_returns; try lia.
      + change letterIdxMax with 10. lia.
      + change letterIdxMax with 10 in *.
        right. split; [lia|]. split; [assumption|lia]. }
  destruct Hret as (b' & s' & Hret).
  pose proof (Randn_loop_sound fuel (n - 1) cache letterIdxMax
                (replicate (Z.to_nat n) Byte.x00) s1
                ltac:(lia) ltac:(lia)
                ltac:(change letterIdxMax with 10; lia) Hinv) as H.
  rewrite Hret in *. destruct H as [H1 H2].
  exists (string_of_list_byte b'), s'. split; [reflexivity|].
  rewrite list_byte_of_string_of_list_byte. split; [lia|assumption].
Qed.

End Random.

Lemma Randn_returns_letters_witness :
  exists str s',
    stringx.Randn nat (fun s => (Z.of_nat s mod 62, S s)) 31 3 0%nat
    = (Ok (Some str), s')
    /\ Z.of_nat (length (list_byte_of_string str)) = 3
    /\ Forall (fun y => y ∈ stringx.letterBytes) (list_byte_of_string str).
Proof.
  apply (Randn_returns_letters nat (fun s => (Z.of_nat s mod 62, S s))).
  - intros s. exists 0.
    split; [split; [apply Z.leb_le|apply Z.ltb_lt]; reflexivity|].
    simpl fst. rewrite Z.mul_0_r, Z.shiftr_0_r.
    change stringx.letterIdxMask with (Z.ones 6).
    change (Z.of_nat (length stringx.letterBytes)) with 62.
    rewrite Z.land_ones by lia.
    pose proof (Z.mod_pos_bound (Z.of_nat s) 62 ltac:(lia)) as Hm.
    rewrite Z.mod_small by lia. lia.
  - split; apply Z.leb_le; reflexivity.
  - apply Z.leb_le. reflexivity.
Defined.
